(** * ollekia: a shallow embedding of the query builder, the pagination
    engine and the transfer engine, with the properties of their
    specification.

    Sources embedded here:
    - [search_expr.py]  ([QueryBuilder.build])
    - [search.py]       ([AsyncSearch.__init__], [_scrape], [_full_text_search])
    - [file.py]         ([AsyncBaseFile.__init__], [AsyncFile.download])
    - [utils.py]        ([get_md5]), with [hashlib.md5] after RFC 1321

    Python [str] and [bytes] are both represented by [string] (a sequence of
    8-bit characters; text is identified with its UTF-8 encoding), a [dict]
    with string keys by a [gmap string _] or, where the set of keys is known,
    by a record of optional fields, and an [int] by [Z]. *)

From Stdlib Require Import ZArith Ascii String List Lia.
From stdpp Require Import base option list gmap strings pretty.

Local Open Scope Z_scope.

(** ** Python runtime helpers *)

Module Py.

(** The exceptions that the embedded code can raise or catch. The aiohttp
    hierarchy is [ClientResponseError <: ClientError <: Exception]. *)
Inductive exn : Type :=
  | ClientResponseError (status : Z)
  | ClientError (msg : string)
  | FileNotFoundError (path : string)
  | FileExistsError (path : string)
  | NotADirectoryError (path : string)
  | IsADirectoryError (path : string)
  | OSError (msg : string)
  | UnicodeDecodeError
  | KeyError (key : string)
  | TypeError
  | ValueError
  | AttributeError.

Inductive result (A : Type) : Type :=
  | Ok (a : A)
  | Raise (e : exn).
Arguments Ok {A} a.
Arguments Raise {A} e.

Definition bind {A B} (r : result A) (k : A -> result B) : result B :=
  match r with
  | Ok a => k a
  | Raise e => Raise e
  end.

(** [for x in xs: acc = body(acc, x)] where the body may raise. *)
Fixpoint for_each {A S} (body : S -> A -> result S) (xs : list A) (acc : S)
  : result S :=
  match xs with
  | [] => Ok acc
  | x :: xs' => bind (body acc x) (for_each body xs')
  end.

(** The double quote character, and [sep.join(parts)]. *)
Definition dquote : string := String "034"%char EmptyString.

Fixpoint join (sep : string) (parts : list string) : string :=
  match parts with
  | [] => EmptyString
  | [p] => p
  | p :: rest => p +:+ sep +:+ join sep rest
  end.

(** Truthiness of a [str]: only the empty string is falsy. *)
Definition str_truthy (s : string) : bool :=
  match s with
  | EmptyString => false
  | String _ _ => true
  end.

(** [s.strip(c)] for a one-character set [c]. *)
Fixpoint lstrip (c : ascii) (s : string) : string :=
  match s with
  | EmptyString => EmptyString
  | String a s' => if Ascii.eqb a c then lstrip c s' else s
  end.

Fixpoint rstrip (c : ascii) (s : string) : string :=
  match s with
  | EmptyString => EmptyString
  | String a s' =>
      match rstrip c s' with
      | EmptyString => if Ascii.eqb a c then EmptyString else String a EmptyString
      | String b r => String a (String b r)
      end
  end.

Definition strip (c : ascii) (s : string) : string := rstrip c (lstrip c s).

(** [s[:n]] and [s[n:]]. *)
Fixpoint str_take (n : nat) (s : string) : string :=
  match n, s with
  | S n', String c s' => String c (str_take n' s')
  | _, _ => EmptyString
  end.

Fixpoint str_drop (n : nat) (s : string) : string :=
  match n, s with
  | S n', String c s' => str_drop n' s'
  | _, _ => s
  end.

(** A coroutine object: the value of calling an [async def] function
    without [await]. It holds the computation and does not run it. *)
Inductive coroutine (A : Type) : Type :=
  | Coro (body : A).
Arguments Coro {A} body.

(** [await c] runs the coroutine and gives its result. *)
Definition await {A} (c : coroutine A) : A :=
  match c with Coro body => body end.

(** A coroutine object defines neither [__bool__] nor [__len__]: it is
    always truthy. *)
Definition coroutine_truthy {A} (c : coroutine A) : bool := true.

(** A coroutine object inherits [object.__eq__]: it compares by identity,
    so it is never equal to a [str] or to [None]. *)
Definition coroutine_eq_value {A} (c : coroutine A) (v : option string) : bool :=
  false.

(** Python values that occur as request parameters, in decoded JSON and as
    object attributes. A dict is an association list in key order; a float
    [PFloat m e] is the binary fraction [m * 2^e]. *)
#[warnings="-register-all"] Inductive pyval : Type :=
  | PNone
  | PBool (b : bool)
  | PInt (z : Z)
  | PFloat (m e : Z)
  | PStr (s : string)
  | PList (l : list pyval)
  | PDict (kvs : list (string * pyval)).

Definition truthy (v : pyval) : bool :=
  match v with
  | PNone => false
  | PBool b => b
  | PInt z => negb (z =? 0)
  | PFloat m _ => negb (m =? 0)
  | PStr s => str_truthy s
  | PList l => match l with [] => false | _ => true end
  | PDict kvs => match kvs with [] => false | _ => true end
  end.

(** [v is False] *)
Definition is_False (v : pyval) : bool :=
  match v with
  | PBool false => true
  | _ => false
  end.

(** The value of a key in a dict. As in [json.loads], when a name occurs
    more than once its last member counts. *)
Fixpoint assoc (k : string) (kvs : list (string * pyval)) : option pyval :=
  match kvs with
  | [] => None
  | (k', v) :: rest =>
      match assoc k rest with
      | Some x => Some x
      | None => if String.eqb k k' then Some v else None
      end
  end.

(** [v.get(k, dflt)]: only a dict has a [get] method. *)
Definition py_get (v : pyval) (k : string) (dflt : pyval) : result pyval :=
  match v with
  | PDict kvs => Ok (default dflt (assoc k kvs))
  | _ => Raise AttributeError
  end.

(** [v[k]] on a decoded JSON value with a string key: [KeyError] on a dict
    without the key, [TypeError] on anything else. *)
Definition py_getitem (v : pyval) (k : string) : result pyval :=
  match v with
  | PDict kvs =>
      match assoc k kvs with
      | Some x => Ok x
      | None => Raise (KeyError k)
      end
  | _ => Raise TypeError
  end.

Fixpoint chars (s : string) : list pyval :=
  match s with
  | EmptyString => []
  | String c s' => PStr (String c EmptyString) :: chars s'
  end.

(** The elements that [for item in v] visits: the elements of a list, the
    keys of a dict, the characters of a str (one per byte, which is exact
    for ASCII text); other values are not iterable. *)
Definition py_iter (v : pyval) : result (list pyval) :=
  match v with
  | PList l => Ok l
  | PDict kvs => Ok (map (fun kv => PStr (fst kv)) kvs)
  | PStr s => Ok (chars s)
  | _ => Raise TypeError
  end.


(** [posixpath.join(a, b)] and [posixpath.dirname(p)]. *)
Definition slash : ascii := "/"%char.

Definition startswith_slash (s : string) : bool :=
  match s with
  | String c _ => Ascii.eqb c slash
  | EmptyString => false
  end.

Fixpoint endswith_slash (s : string) : bool :=
  match s with
  | EmptyString => false
  | String c EmptyString => Ascii.eqb c slash
  | String _ s' => endswith_slash s'
  end.

(** A string made of slashes only (the empty string included). *)
Fixpoint all_slashes (s : string) : bool :=
  match s with
  | EmptyString => true
  | String c s' => Ascii.eqb c slash && all_slashes s'
  end.

Definition path_join (a b : string) : string :=
  if startswith_slash b then b
  else if negb (str_truthy a) || endswith_slash a then a +:+ b
  else a +:+ "/" +:+ b.

(** [p[:p.rfind("/") + 1]] *)
Fixpoint dir_prefix (p : string) : string :=
  match p with
  | EmptyString => EmptyString
  | String c p' =>
      match dir_prefix p' with
      | EmptyString => if Ascii.eqb c slash then String c EmptyString else EmptyString
      | String d r => String c (String d r)
      end
  end.

Definition dirname (p : string) : string :=
  let head := dir_prefix p in
  if str_truthy head && str_truthy (lstrip slash head)
  then rstrip slash head
  else head.

(** [f.readlines()] of a file opened in text mode with the default
    [newline=None]: the line ends LF, CR and CR LF are all
    translated to LF, and every line keeps its line end. *)
Definition LF : ascii := "010"%char.
Definition CR : ascii := "013"%char.

Fixpoint readlines_from (cur : string) (s : string) : list string :=
  match s with
  | EmptyString =>
      match cur with
      | EmptyString => []
      | _ => [cur]
      end
  | String c rest =>
      if Ascii.eqb c LF then (cur +:+ String LF EmptyString) :: readlines_from EmptyString rest
      else if Ascii.eqb c CR then
        match rest with
        | String c2 rest2 =>
            if Ascii.eqb c2 LF
            then (cur +:+ String LF EmptyString) :: readlines_from EmptyString rest2
            else (cur +:+ String LF EmptyString) :: readlines_from EmptyString rest
        | EmptyString => [cur +:+ String LF EmptyString]
        end
      else readlines_from (cur +:+ String c EmptyString) rest
  end.

Definition readlines (text : string) : list string :=
  readlines_from EmptyString text.

Fixpoint endswith_LF (s : string) : bool :=
  match s with
  | EmptyString => false
  | String c EmptyString => Ascii.eqb c LF
  | String _ s' => endswith_LF s'
  end.

(** [x in xs] for a list of str. *)
Definition str_in (x : string) (xs : list string) : bool :=
  existsb (String.eqb x) xs.

(** [s.startswith(p)] *)
Fixpoint startswith (p s : string) : bool :=
  match p, s with
  | EmptyString, _ => true
  | String a p', String b s' => Ascii.eqb a b && startswith p' s'
  | String _ _, EmptyString => false
  end.

(** Whether bytes are well-formed UTF-8, as the strict decoder of
    [open(..., encoding="utf-8")] requires: [more] continuation bytes are
    still due, the next of them between [lo] and [hi]. Overlong forms,
    surrogates and code points above U+10FFFF are not well-formed. *)
Fixpoint utf8_scan (more lo hi : nat) (s : string) : bool :=
  match s with
  | EmptyString => (more =? 0)%nat
  | String c s' =>
      let b := nat_of_ascii c in
      match more with
      | O =>
          if (b <? 128)%nat then utf8_scan 0 128 191 s'
          else if (194 <=? b)%nat && (b <=? 223)%nat then utf8_scan 1 128 191 s'
          else if (b =? 224)%nat then utf8_scan 2 160 191 s'
          else if (b =? 237)%nat then utf8_scan 2 128 159 s'
          else if (225 <=? b)%nat && (b <=? 239)%nat then utf8_scan 2 128 191 s'
          else if (b =? 240)%nat then utf8_scan 3 144 191 s'
          else if (241 <=? b)%nat && (b <=? 243)%nat then utf8_scan 3 128 191 s'
          else if (b =? 244)%nat then utf8_scan 3 128 143 s'
          else false
      | S more' => (lo <=? b)%nat && (b <=? hi)%nat && utf8_scan more' 128 191 s'
      end
  end.

Definition utf8_valid (s : string) : bool := utf8_scan 0 128 191 s.

End Py.

Import Py.

(** ** [search_expr.py]: the query builder *)

Module QueryBuilder.

(** [rule["logic"]]: a dict whose keys ["and"], ["or"], ["alone"] are each
    optional and hold keyword lists. *)
Record Logic : Type := mkLogic {
  l_and : option (list string);
  l_or : option (list string);
  l_alone : option (list string)
}.

(** The empty dict [{}]. *)
Definition empty_logic : Logic := mkLogic None None None.

(** An element of [date_logic["ranges"]]. *)
Record DateRange : Type := mkDateRange {
  dr_from : string;
  dr_to : string
}.

(** [rule["date"]]: a dict with an optional ["ranges"] list. *)
Record DateLogic : Type := mkDateLogic {
  ranges : option (list DateRange)
}.

(** A rule of ["to_be"] or ["not_to_be"]: a dict with the optional keys
    ["field"], ["logic"] and ["date"]. *)
Record Rule : Type := mkRule {
  field : option string;
  logic : option Logic;
  date : option DateLogic
}.

(** [self.config]. *)
Record Config : Type := mkConfig {
  to_be : option (list Rule);
  groups : option (list (list string));
  not_to_be : option (list Rule)
}.

(** A value of [positive_rules_map]: the logic dict of a field rule, or the
    preformatted clause of a date rule. *)
Inductive RuleLogic : Type :=
  | RLDict (l : Logic)
  | RLStr (s : string).

(** [not rule_logic] is true for the empty dict and the empty string. *)
Definition rule_logic_truthy (rl : RuleLogic) : bool :=
  match rl with
  | RLDict (mkLogic None None None) => false
  | RLDict _ => true
  | RLStr s => str_truthy s
  end.

(** [f"date:[{date_range['from']} TO {date_range['to']}]"] *)
Definition date_clause (r : DateRange) : string :=
  "date:[" +:+ dr_from r +:+ " TO " +:+ dr_to r +:+ "]".

(** One iteration of the loop over [self.config.get("to_be", [])]. *)
Definition add_positive_rule (m : gmap string RuleLogic) (rule : Rule)
  : gmap string RuleLogic :=
  match field rule with
  | Some f => <[f := RLDict (default empty_logic (logic rule))]> m
  | None =>
      match date rule with
      | Some date_logic =>
          match default [] (ranges date_logic) with
          | date_range :: _ => <["date" := RLStr (date_clause date_range)]> m
          | [] => m
          end
      | None => m
      end
  end.

Definition positive_rules_map (cfg : Config) : gmap string RuleLogic :=
  fold_left add_positive_rule (default [] (to_be cfg)) ∅.

(** [f'{field_name}:"{kw}"'] *)
Definition quoted (field_name kw : string) : string :=
  field_name +:+ ":" +:+ dquote +:+ kw +:+ dquote.

(** The body of [for field_name in group], acting on [all_group_parts].
    Calling [.get] on a [str] (a preformatted clause stored under a key other
    than ["date"]) raises [AttributeError]. *)
Definition add_field_parts (m : gmap string RuleLogic)
    (all_group_parts : list string) (field_name : string)
  : result (list string) :=
  match m !! field_name with
  | None => Ok all_group_parts
  | Some rule_logic =>
      if negb (rule_logic_truthy rule_logic) then Ok all_group_parts
      else
        match rule_logic with
        | RLStr s =>
            if String.eqb field_name "date" then Ok (all_group_parts ++ [s])
            else Raise AttributeError
        | RLDict l =>
            let parts1 :=
              fold_left (fun acc kw => acc ++ [quoted field_name kw])
                        (default [] (l_and l)) all_group_parts in
            let parts2 :=
              fold_left (fun acc kw => acc ++ [quoted field_name kw])
                        (default [] (l_or l)) parts1 in
            Ok (fold_left (fun acc kw => acc ++ [quoted field_name kw])
                          (default [] (l_alone l)) parts2)
        end
  end.

(** The body of [for group in groups_config], acting on [grouped_queries]. *)
Definition add_group (m : gmap string RuleLogic)
    (grouped_queries : list string) (group : list string)
  : result (list string) :=
  bind (for_each (add_field_parts m) group [])
    (fun all_group_parts =>
       match all_group_parts with
       | [] => Ok grouped_queries
       | _ =>
           let joined_group := join " OR " all_group_parts in
           if (1 <? Z.of_nat (length all_group_parts))
           then Ok (grouped_queries ++ ["(" +:+ joined_group +:+ ")"])
           else Ok (grouped_queries ++ [joined_group])
       end).

(** The body of [for rule in negative_rules], acting on [not_queries]. *)
Definition add_negative_rule (not_queries : list string) (rule : Rule)
  : list string :=
  let logic := default empty_logic (logic rule) in
  match field rule, l_alone logic with
  | Some field_name, Some (kw :: kws) =>
      if str_truthy field_name
      then not_queries ++
           map (fun kw => "NOT " +:+ quoted field_name kw) (kw :: kws)
      else not_queries
  | _, _ => not_queries
  end.

Definition build (cfg : Config) : result string :=
  let positive_rules_map := positive_rules_map cfg in
  bind (for_each (add_group positive_rules_map) (default [] (groups cfg)) [])
    (fun grouped_queries =>
       let not_queries :=
         fold_left add_negative_rule (default [] (not_to_be cfg)) [] in
       let final_parts := grouped_queries ++ not_queries in
       Ok (join " AND " (List.filter str_truthy final_parts))).

(** The builder object: [__init__] stores the configuration, [build] reads
    it and returns the query together with the (unchanged) object. *)
Record t : Type := mk { config : Config }.

Definition build_method (self : t) : result string * t :=
  (build (config self), self).

(** *** The builder as its specification describes it

    Every keyword of a field's [and], [or] and [alone] lists becomes one
    quoted clause; the clauses of the fields of a group are collected in
    order; a group with several clauses is OR-joined in parentheses, a group
    with one clause is that clause, a group without clauses is left out; the
    result is the AND-join of the group clauses followed by the NOT
    clauses. *)

Definition spec_keywords (l : Logic) : list string :=
  default [] (l_and l) ++ default [] (l_or l) ++ default [] (l_alone l).

Definition spec_field_clauses (m : gmap string RuleLogic) (field_name : string)
  : list string :=
  match m !! field_name with
  | Some (RLDict l) => map (quoted field_name) (spec_keywords l)
  | Some (RLStr clause) => [clause]
  | None => []
  end.

Definition spec_group (clauses : list string) : option string :=
  match clauses with
  | [] => None
  | [clause] => Some clause
  | _ => Some ("(" +:+ join " OR " clauses +:+ ")")
  end.

Definition spec_group_clauses (cfg : Config) : list string :=
  omap (fun group =>
          spec_group (flat_map (spec_field_clauses (positive_rules_map cfg)) group))
       (default [] (groups cfg)).

Definition spec_not_rule (rule : Rule) : list string :=
  match field rule with
  | Some field_name =>
      if str_truthy field_name
      then map (fun kw => "NOT " +:+ quoted field_name kw)
               (default [] (l_alone (default empty_logic (logic rule))))
      else []
  | None => []
  end.

Definition spec_not_clauses (cfg : Config) : list string :=
  flat_map spec_not_rule (default [] (not_to_be cfg)).

Definition spec_build (cfg : Config) : string :=
  join " AND " (spec_group_clauses cfg ++ spec_not_clauses cfg).

(** *** The query as the specification words it, from the ruleset alone

    None of the definitions of the builder above is used here. A rule of
    [to_be] speaks for the field it names; a rule without a field whose
    [date] has a range speaks for ["date"]. The last rule that speaks for a
    field is the one that counts. A field rule gives one quoted clause for
    every keyword of its [and], [or] and [alone] lists, in this order; a
    date rule gives the clause of its first range. *)

Definition spec_clause (field_name kw : string) : string :=
  field_name +:+ ":" +:+ dquote +:+ kw +:+ dquote.

Definition spec_date_clause (r : DateRange) : string :=
  "date:[" +:+ dr_from r +:+ " TO " +:+ dr_to r +:+ "]".

Definition spec_first_range (rule : Rule) : option DateRange :=
  match date rule with
  | Some date_logic => head (default [] (ranges date_logic))
  | None => None
  end.

Definition spec_speaks_for (field_name : string) (rule : Rule) : bool :=
  match field rule with
  | Some f => String.eqb f field_name
  | None => bool_decide (is_Some (spec_first_range rule)) && String.eqb "date" field_name
  end.

Definition spec_rule_clauses (field_name : string) (rule : Rule) : list string :=
  match field rule with
  | Some _ =>
      let l := default empty_logic (logic rule) in
      map (spec_clause field_name)
          (default [] (l_and l) ++ default [] (l_or l) ++ default [] (l_alone l))
  | None => option_list (spec_date_clause <$> spec_first_range rule)
  end.

Definition spec_clauses_of_field (cfg : Config) (field_name : string) : list string :=
  match last (List.filter (spec_speaks_for field_name) (default [] (to_be cfg))) with
  | Some rule => spec_rule_clauses field_name rule
  | None => []
  end.

(** Several clauses are OR-joined in parentheses, one clause stands as it
    is, and a group without clauses gives nothing. *)
Definition spec_groups (cfg : Config) : list string :=
  omap (fun group =>
          match flat_map (spec_clauses_of_field cfg) group with
          | [] => None
          | [clause] => Some clause
          | clauses => Some ("(" +:+ join " OR " clauses +:+ ")")
          end)
       (default [] (groups cfg)).

(** A rule of [not_to_be] with a field gives one [NOT] clause for every
    keyword of its [alone] list. *)
Definition spec_nots (cfg : Config) : list string :=
  flat_map (fun rule =>
              match field rule with
              | Some field_name =>
                  if str_truthy field_name
                  then map (fun kw => "NOT " +:+ spec_clause field_name kw)
                           (default [] (l_alone (default empty_logic (logic rule))))
                  else []
              | None => []
              end)
           (default [] (not_to_be cfg)).

(** The invariant of [positive_rules_map]: the preformatted clause of a
    date rule is only ever stored under the key ["date"], and is not
    empty. *)
Definition date_only (m : gmap string RuleLogic) : Prop :=
  forall k s, m !! k = Some (RLStr s) ->
              k = "date" /\ exists r, s = date_clause r.

(** A clause is never shorter than three characters, so it is neither
    empty nor a pair of parentheses. *)
Definition proper_clause (s : string) : Prop := (3 <= String.length s)%nat.

(** *** The rulesets of the examples *)

(** Which of the three keyword lists of a rule holds a value. *)
Inductive keyword_list : Type :=
  | InAnd
  | InOr
  | InAlone.

Definition one_keyword (k : keyword_list) (kw : string) : Logic :=
  match k with
  | InAnd => mkLogic (Some [kw]) None None
  | InOr => mkLogic None (Some [kw]) None
  | InAlone => mkLogic None None (Some [kw])
  end.

Definition field_rule (field_name : string) (l : Logic) : Rule :=
  mkRule (Some field_name) (Some l) None.

(** Group [["creator"]] with rule [{field: creator, logic: {alone: ["Doe"]}}]. *)
Definition creator_ruleset : Config :=
  mkConfig (Some [field_rule "creator" (one_keyword InAlone "Doe")])
           (Some [["creator"]])
           None.

(** A group of two fields with one value each. *)
Definition two_field_ruleset (k1 k2 : keyword_list) : Config :=
  mkConfig (Some [field_rule "field1" (one_keyword k1 "a");
                  field_rule "field2" (one_keyword k2 "b")])
           (Some [["field1"; "field2"]])
           None.

(** [config["not_to_be"].append(rule)] *)
Definition append_not_rule (cfg : Config) (rule : Rule) : Config :=
  mkConfig (to_be cfg) (groups cfg) (Some (default [] (not_to_be cfg) ++ [rule])).

Definition lang_rule : Rule := field_rule "lang" (one_keyword InAlone "x").

Definition empty_ruleset : Config := mkConfig None None None.

End QueryBuilder.

(** ** [search.py]: the pagination engine *)

Module AsyncSearch.

(** [SearchOptions] (data_classes/search_dataclass.py). *)
Record SearchOptions : Type := mkSearchOptions {
  query : string;
  fields : list string;
  sorts : list string;
  params : gmap string pyval;
  request_kwargs : gmap string pyval;
  fts : bool;
  dsl_fts : bool
}.

(** The attributes of an [AsyncSearch] object that the enumeration uses. *)
Record t : Type := mk {
  search_options : SearchOptions;
  _num_found : option pyval
}.

Definition has_key (k : string) (m : gmap string pyval) : bool :=
  bool_decide (is_Some (m !! k)).

(** Lines 22-31 of [__init__]: the flags and the literal-match marker. *)
Definition init_dsl_fts (o : SearchOptions) : bool :=
  if negb (dsl_fts o) then false else true.

Definition init_fts (o : SearchOptions) : bool :=
  if init_dsl_fts o || fts o then true else false.

Definition init_query (o : SearchOptions) : string :=
  if init_fts o && negb (init_dsl_fts o) then "!L " +:+ query o else query o.

(** Lines 35-42: [default_params], and the caller's [params] after the
    in-place insertion of ["page"]. *)
Definition init_default_params (o : SearchOptions) : gmap string pyval :=
  let default_params : gmap string pyval := {[ "q" := PStr (init_query o) ]} in
  if negb (has_key "page" (params o)) then
    if has_key "rows" (params o) then default_params
    else <["count" := PStr "10000"]> default_params
  else <["output" := PStr "json"]> default_params.

Definition init_page (o : SearchOptions) : gmap string pyval :=
  if negb (has_key "page" (params o)) then
    if has_key "rows" (params o) then <["page" := PInt 1]> (params o)
    else params o
  else params o.

(** Lines 44-46: ["index"] is renamed to ["scope"]. *)
Definition init_scope (p : gmap string pyval) : gmap string pyval :=
  match p !! "index" with
  | Some v => delete "index" (<["scope" := v]> p)
  | None => p
  end.

(** Lines 48-50: [final_params = default_params.copy();
    final_params.update(params)]. The union of stdpp is left-biased. *)
Definition init_final_params (o : SearchOptions) : gmap string pyval :=
  init_scope (init_page o) ∪ init_default_params o.

Definition init_request_kwargs (o : SearchOptions) : gmap string pyval :=
  if negb (has_key "timeout" (request_kwargs o))
  then <["timeout" := PInt 300]> (request_kwargs o)
  else request_kwargs o.

(** [AsyncSearch.__init__] *)
Definition init (o : SearchOptions) : t :=
  {| search_options :=
       {| query := init_query o;
          fields := fields o;
          sorts := sorts o;
          params := init_final_params o;
          request_kwargs := init_request_kwargs o;
          fts := init_fts o;
          dsl_fts := init_dsl_fts o |};
     _num_found := None |}.

(** *** The transport and the observable behaviour of an enumeration *)

(** [client.post] followed by [response.json()]: the decoded body of the
    [n]-th request of the enumeration (counted from 0) for the payload sent
    with it, or the exception that either call raises. *)
Definition Transport : Type := nat -> gmap string pyval -> result pyval.

Inductive event : Type :=
  | EvPost (url : string) (payload : gmap string pyval)
  | EvYield (v : pyval).

(** How a run of the generator body ended: it returned (or left its loop),
    or the model ran out of fuel with the loop still going. *)
Inductive ending : Type :=
  | Finished
  | Running.

Record run : Type := mkRun {
  trace : list event;
  final : t;
  status : ending
}.

Definition SCRAPE_URL : string := "https://archive.org/services/search/v1/scrape".
Definition FTS_URL : string := "https://be-api.us.archive.org/ia-pub-fts-api".

Definition set_params (self : t) (p : gmap string pyval) : t :=
  let o := search_options self in
  {| search_options :=
       {| query := query o; fields := fields o; sorts := sorts o;
          params := p; request_kwargs := request_kwargs o;
          fts := fts o; dsl_fts := dsl_fts o |};
     _num_found := _num_found self |}.

Definition set_num_found (self : t) (v : pyval) : t :=
  {| search_options := search_options self; _num_found := Some v |}.

(** Lines 101-105 of [_scrape]. *)
Definition scrape_prepare (self : t) : t :=
  let o := search_options self in
  let p1 :=
    match fields o with
    | [] => params o
    | _ => <["fields" := PStr (join "," (fields o))]> (params o)
    end in
  let p2 :=
    match sorts o with
    | [] => p1
    | _ => <["sorts" := PStr (join "," (sorts o))]> p1
    end in
  set_params self p2.

(** The [try] block of [_scrape] after [json_response] is received: the
    values yielded before the block ends, the new [_num_found] when the
    assignment is reached, and the exception when one is raised. *)
Record attempt : Type := mkAttempt {
  yielded : list pyval;
  num_found_set : option pyval;
  raised : option exn
}.

Definition scrape_body (json_response : pyval) : attempt :=
  match py_get json_response "error" PNone with
  | Raise e => mkAttempt [] None (Some e)
  | Ok err =>
      let error_record := if truthy err then [json_response] else [] in
      match py_get json_response "total" (PInt 0) with
      | Raise e => mkAttempt error_record None (Some e)
      | Ok total =>
          match bind (py_getitem json_response "items") py_iter with
          | Raise e => mkAttempt error_record (Some total) (Some e)
          | Ok items => mkAttempt (error_record ++ items) (Some total) None
          end
      end
  end.

(** The [while True] loop of [_scrape]; [n] counts the requests issued so
    far. Every [except] clause ends in [break]; a [try] block that completes
    goes round the loop again. *)
Fixpoint scrape_loop (fuel : nat) (client_post : Transport) (n : nat) (self : t)
  : run :=
  match fuel with
  | O => mkRun [] self Running
  | S fuel' =>
      let payload := params (search_options self) in
      let request := EvPost SCRAPE_URL payload in
      match client_post n payload with
      | Raise _ => mkRun [request] self Finished
      | Ok json_response =>
          let a := scrape_body json_response in
          let self' :=
            match num_found_set a with
            | Some total => set_num_found self total
            | None => self
            end in
          let evs := request :: map EvYield (yielded a) in
          match raised a with
          | Some _ => mkRun evs self' Finished
          | None =>
              let r := scrape_loop fuel' client_post (S n) self' in
              mkRun (evs ++ trace r) (final r) (status r)
          end
      end
  end.

Definition _scrape (fuel : nat) (client_post : Transport) (self : t) : run :=
  scrape_loop fuel client_post 0%nat (scrape_prepare self).

(** The values that the consumer of the generator receives, in order, and
    the number of requests issued. *)
Definition yields (tr : list event) : list pyval :=
  flat_map (fun ev => match ev with EvYield v => [v] | EvPost _ _ => [] end) tr.

Definition posts (tr : list event) : nat :=
  length (List.filter (fun ev => match ev with EvPost _ _ => true | _ => false end) tr).

(** Lines 162-174 of [_full_text_search]: the JSON payload. *)
Definition fts_data (self : t) : gmap string pyval :=
  let o := search_options self in
  let data : gmap string pyval :=
    <["scroll" := PStr "true"]>
      (<["from" := PStr "0"]>
         (<["size" := PStr "10000"]> {[ "q" := PStr (query o) ]})) in
  let data1 :=
    match params o !! "scope" with
    | Some v => <["scope" := v]> data
    | None => data
    end in
  match params o !! "size" with
  | Some v => <["size" := v]> (<["scroll" := PStr "False"]> data1)
  | None => data1
  end.

(** What one pass through the [try] block of [_full_text_search] does once
    [json_response] is received. *)
Inductive fts_step : Type :=
  | FtsReturn
  | FtsBreak (hits : pyval)
  | FtsNext (hits : pyval) (data : gmap string pyval)
  | FtsExcept (e : exn).

Definition fts_body (data : gmap string pyval) (json_response : pyval) : fts_step :=
  match py_get json_response "error" PNone with
  | Raise e => FtsExcept e
  | Ok _ =>
      match py_get json_response "_scroll_id" PNone with
      | Raise e => FtsExcept e
      | Ok scroll_id =>
          match bind (py_get json_response "hits" (PDict []))
                     (fun h => py_get h "hits" PNone) with
          | Raise e => FtsExcept e
          | Ok hits =>
              if negb (truthy hits) then FtsReturn
              else
                match data !! "scroll" with
                | None => FtsExcept (KeyError "scroll")
                | Some scroll =>
                    if negb (truthy hits) || is_False scroll then FtsBreak hits
                    else FtsNext hits (<["scroll_id" := scroll_id]> data)
                end
          end
      end
  end.

(** The [while True] loop of [_full_text_search]. The [except] clauses log
    and fall out of the [try] statement, so the loop goes round again with
    the same payload. *)
Fixpoint fts_loop (fuel : nat) (client_post : Transport) (n : nat)
    (data : gmap string pyval) (self : t) : run :=
  match fuel with
  | O => mkRun [] self Running
  | S fuel' =>
      let request := EvPost FTS_URL data in
      let again (evs : list event) (data' : gmap string pyval) :=
        let r := fts_loop fuel' client_post (S n) data' self in
        mkRun (evs ++ trace r) (final r) (status r) in
      match client_post n data with
      | Raise _ => again [request] data
      | Ok json_response =>
          match fts_body data json_response with
          | FtsReturn => mkRun [request] self Finished
          | FtsBreak hits => mkRun [request; EvYield hits] self Finished
          | FtsNext hits data' => again [request; EvYield hits] data'
          | FtsExcept _ => again [request] data
          end
      end
  end.

Definition _full_text_search (fuel : nat) (client_post : Transport) (self : t)
  : run :=
  fts_loop fuel client_post 0%nat (fts_data self) self.

(** *** Responses and transports of the examples *)

(** A bulk-scrape response [{"items": [...], "total": n}] and a full-text
    response [{"_scroll_id": id, "hits": {"hits": [...]}}]. *)
Definition scrape_response (total : Z) (items : list pyval) : pyval :=
  PDict [("items", PList items); ("total", PInt total)].

Definition fts_response (scroll_id : string) (hits : list pyval) : pyval :=
  PDict [("_scroll_id", PStr scroll_id); ("hits", PDict [("hits", PList hits)])].

Definition record (identifier : string) : pyval :=
  PDict [("identifier", PStr identifier)].

(** The hits of a full-text response, as line 196 computes them. *)
Definition response_hits (json_response : pyval) : result pyval :=
  bind (py_get json_response "hits" (PDict [])) (fun h => py_get h "hits" PNone).

(** A response that is a JSON object and carries no hits. *)
Definition no_hits (json_response : pyval) : Prop :=
  (exists kvs, json_response = PDict kvs)
  /\ exists hits, response_hits json_response = Ok hits /\ truthy hits = false.

Definition plain_options (q : string) : SearchOptions :=
  mkSearchOptions q [] [] ∅ ∅ false false.

(** Full-text search with a fixed result size. *)
Definition sized_fts_options (q : string) : SearchOptions :=
  mkSearchOptions q [] [] {[ "size" := PStr "10" ]} ∅ true false.

(** The caller passes its own ["q"] parameter. *)
Definition q_override_options : SearchOptions :=
  mkSearchOptions "title:x" [] [] {[ "q" := PStr "title:y" ]} ∅ false false.

(** Two batches of items, an empty batch, one more batch, and then the
    connection fails. *)
Definition two_batches_then_empty : Transport :=
  fun n _ =>
    match n with
    | 0%nat => Ok (scrape_response 4 [record "a"; record "b"])
    | 1%nat => Ok (scrape_response 4 [record "c"])
    | 2%nat => Ok (scrape_response 4 [])
    | 3%nat => Ok (scrape_response 4 [record "d"])
    | _ => Raise (ClientError "connection reset")
    end.

(** Two pages of hits and then pages without hits. *)
Definition three_pages : Transport :=
  fun n _ =>
    match n with
    | 0%nat => Ok (fts_response "s1" [record "a"])
    | 1%nat => Ok (fts_response "s2" [record "b"])
    | _ => Ok (fts_response "s3" [])
    end.

End AsyncSearch.

(** ** [hashlib.md5]

    The digest of the Python library, following RFC 1321: the message is
    padded to a multiple of 64 bytes and folded block by block into four
    32-bit words. *)

Module Hashlib.


Definition w32 (x : Z) : Z := x mod 2 ^ 32.

Definition rotl (x c : Z) : Z :=
  w32 (Z.lor (Z.shiftl x c) (Z.shiftr x (32 - c))).

Definition not32 (x : Z) : Z := Z.lxor x 0xffffffff.

Definition shifts : list Z :=
  [7; 12; 17; 22; 7; 12; 17; 22; 7; 12; 17; 22; 7; 12; 17; 22;
   5; 9; 14; 20; 5; 9; 14; 20; 5; 9; 14; 20; 5; 9; 14; 20;
   4; 11; 16; 23; 4; 11; 16; 23; 4; 11; 16; 23; 4; 11; 16; 23;
   6; 10; 15; 21; 6; 10; 15; 21; 6; 10; 15; 21; 6; 10; 15; 21].

Definition sines : list Z :=
  [0xd76aa478; 0xe8c7b756; 0x242070db; 0xc1bdceee;
   0xf57c0faf; 0x4787c62a; 0xa8304613; 0xfd469501;
   0x698098d8; 0x8b44f7af; 0xffff5bb1; 0x895cd7be;
   0x6b901122; 0xfd987193; 0xa679438e; 0x49b40821;
   0xf61e2562; 0xc040b340; 0x265e5a51; 0xe9b6c7aa;
   0xd62f105d; 0x02441453; 0xd8a1e681; 0xe7d3fbc8;
   0x21e1cde6; 0xc33707d6; 0xf4d50d87; 0x455a14ed;
   0xa9e3e905; 0xfcefa3f8; 0x676f02d9; 0x8d2a4c8a;
   0xfffa3942; 0x8771f681; 0x6d9d6122; 0xfde5380c;
   0xa4beea44; 0x4bdecfa9; 0xf6bb4b60; 0xbebfbc70;
   0x289b7ec6; 0xeaa127fa; 0xd4ef3085; 0x04881d05;
   0xd9d4d039; 0xe6db99e5; 0x1fa27cf8; 0xc4ac5665;
   0xf4292244; 0x432aff97; 0xab9423a7; 0xfc93a039;
   0x655b59c3; 0x8f0ccc92; 0xffeff47d; 0x85845dd1;
   0x6fa87e4f; 0xfe2ce6e0; 0xa3014314; 0x4e0811a1;
   0xf7537e82; 0xbd3af235; 0x2ad7d2bb; 0xeb86d391].

Fixpoint bytes_of (s : string) : list Z :=
  match s with
  | EmptyString => []
  | String c s' => Z.of_N (N_of_ascii c) :: bytes_of s'
  end.

(** [n] as [k] bytes, least significant first. *)
Fixpoint le_bytes (k : nat) (n : Z) : list Z :=
  match k with
  | O => []
  | S k' => n mod 256 :: le_bytes k' (n / 256)
  end.

Fixpoint le_word (bs : list Z) : Z :=
  match bs with
  | [] => 0
  | b :: bs' => b + 256 * le_word bs'
  end.

Definition pad (msg : list Z) : list Z :=
  let len := Z.of_nat (length msg) in
  msg ++ [0x80] ++ repeat 0 (Z.to_nat ((55 - len) mod 64)) ++ le_bytes 8 (8 * len).

Fixpoint chunks (fuel size : nat) (bs : list Z) : list (list Z) :=
  match fuel, bs with
  | O, _ | _, [] => []
  | S fuel', _ => firstn size bs :: chunks fuel' size (skipn size bs)
  end.

Definition state : Type := (Z * Z * Z * Z)%type.

Definition step (m : list Z) (st : state) (i : Z) : state :=
  let '(a, b, c, d) := st in
  let '(f, g) :=
    if i <? 16 then (Z.lor (Z.land b c) (Z.land (not32 b) d), i)
    else if i <? 32 then (Z.lor (Z.land d b) (Z.land (not32 d) c), (5 * i + 1) mod 16)
    else if i <? 48 then (Z.lxor b (Z.lxor c d), (3 * i + 5) mod 16)
    else (Z.lxor c (Z.lor b (not32 d)), (7 * i) mod 16) in
  let f' := w32 (f + a + nth (Z.to_nat i) sines 0 + nth (Z.to_nat g) m 0) in
  (d, w32 (b + rotl f' (nth (Z.to_nat i) shifts 0)), b, c).

Definition block (st : state) (bs : list Z) : state :=
  let m := map le_word (chunks 16 4 bs) in
  let '(a, b, c, d) := fold_left (step m) (map Z.of_nat (seq 0 64)) st in
  let '(a0, b0, c0, d0) := st in
  (w32 (a0 + a), w32 (b0 + b), w32 (c0 + c), w32 (d0 + d)).

Definition hex_digit (n : Z) : ascii :=
  ascii_of_N (Z.to_N (if n <? 10 then 48 + n else 87 + n)).

Fixpoint hex (bs : list Z) : string :=
  match bs with
  | [] => EmptyString
  | b :: bs' => String (hex_digit (b / 16)) (String (hex_digit (b mod 16)) (hex bs'))
  end.

(** [hashlib.md5(data).hexdigest()] *)
Definition md5_hexdigest (data : string) : string :=
  let bs := pad (bytes_of data) in
  let '(a, b, c, d) :=
    fold_left block (chunks (length bs) 64 bs)
              (0x67452301, 0xefcdab89, 0x98badcfe, 0x10325476) in
  hex (le_bytes 4 a ++ le_bytes 4 b ++ le_bytes 4 c ++ le_bytes 4 d).

End Hashlib.

(** ** [utils.py] *)

Module Utils.

(** A binary file object: its content and the read position. *)
Record file_object : Type := mkFileObject {
  fo_content : string;
  fo_pos : nat
}.

Definition CHUNK : nat := Z.to_nat 8192.

(** [fp.read(8192)] *)
Definition read_chunk (fp : file_object) : string * file_object :=
  let chunk := substring (fo_pos fp) CHUNK (fo_content fp) in
  (chunk, mkFileObject (fo_content fp) (fo_pos fp + String.length chunk)).

(** The [while True] loop of [get_md5]. The digest object [m] is
    represented by the bytes fed to it with [m.update]. The loop ends at the
    first empty chunk, which comes after at most [length content] reads. *)
Fixpoint md5_loop (fuel : nat) (m : string) (fp : file_object)
  : string * file_object :=
  match fuel with
  | O => (m, fp)
  | S fuel' =>
      let '(chunk, fp') := read_chunk fp in
      if negb (str_truthy chunk) then (m, fp')
      else md5_loop fuel' (m +:+ chunk) fp'
  end.

(** [async def get_md5]: calling it gives a coroutine object; awaiting that
    object reads the file, rewinds it and gives the hex digest. *)
Definition get_md5 (fp : file_object) : coroutine (string * file_object) :=
  Coro (let '(m, fp') := md5_loop (S (String.length (fo_content fp))) EmptyString fp in
        (Hashlib.md5_hexdigest m, mkFileObject (fo_content fp') 0%nat)).

End Utils.

(** ** [file.py]: remote files and the transfer engine *)

Module AsyncBaseFile.

(** The attributes of the object, by name: [__init__] assigns them with
    [setattr] from the keys of the file metadata. *)
Definition attrs : Type := gmap string pyval.

(** [f.get("name") == name] *)
Definition name_matches (name : string) (f : pyval) : result bool :=
  bind (py_get f "name" PNone)
       (fun v => Ok match v with
                    | PStr s => String.eqb s name
                    | _ => false
                    end).

(** Lines 41-45: the first entry of [item_metadata["files"]] with the
    given name, when no file metadata was passed. *)
Fixpoint find_file (name : string) (files : list pyval) : result (list (string * pyval)) :=
  match files with
  | [] => Ok []
  | f :: rest =>
      bind (name_matches name f)
           (fun hit =>
              if hit
              then match f with
                   | PDict kvs => Ok kvs
                   | _ => Raise AttributeError
                   end
              else find_file name rest)
  end.

Definition normalize_name (name : string) : string :=
  if str_truthy name then strip slash name else name.

(** Lines 35-67 of [AsyncBaseFile.__init__]. Lines 69-74, which only
    reassign [mtime] and [size] through the builtins [float] and [int], are
    not part of this embedding. *)
Definition init (item_metadata : pyval) (name : string)
    (file_metadata : option (list (string * pyval))) : result attrs :=
  let file_metadata0 := default [] file_metadata in
  let name := normalize_name name in
  bind (match file_metadata0 with
        | [] =>
            bind (py_get item_metadata "files" (PList []))
                 (fun files => bind (py_iter files) (find_file name))
        | _ => Ok file_metadata0
        end)
    (fun file_metadata =>
       bind (bind (py_get item_metadata "metadata" (PDict []))
                  (fun md => py_get md "identifier" PNone))
         (fun identifier =>
            let self : attrs :=
              <["exists" := PBool (truthy (PDict file_metadata))]>
              (<["crc32" := PNone]>
              (<["mtime" := PFloat 0 0]>
              (<["sha1" := PNone]>
              (<["md5" := PNone]>
              (<["format" := PNone]>
              (<["source" := PNone]>
              (<["size" := PInt 0]>
              (<["name" := PStr name]>
              (<["identifier" := identifier]> ∅))))))))) in
            let self :=
              fold_left (fun (self : attrs) kv => <[fst kv := snd kv]> self)
                        file_metadata self in
            Ok (<["metadata" := PDict file_metadata]> self))).

(** [self.name] *)
Definition name_of (self : attrs) : option pyval := self !! "name".

(** [AsyncBaseFile(item_metadata, name, file_metadata).name] *)
Definition init_name (item_metadata : pyval) (name : string)
    (file_metadata : option (list (string * pyval))) : result (option pyval) :=
  bind (init item_metadata name file_metadata) (fun self => Ok (name_of self)).

End AsyncBaseFile.

Module AsyncFile.

(** The attributes of an [AsyncFile] that [download] reads. Timestamps are
    whole seconds. *)
Record t : Type := mk {
  identifier : string;
  name : string;
  size : Z;
  md5 : option string;
  mtime : Z;
  url : string
}.

(** [DownloadOptions.checksum_archive] is declared [bool]; [download] also
    passes it to [open] as the file to append to, so a caller may store the
    ledger path in it. *)
Inductive ledger_setting : Type :=
  | LedgerFlag (b : bool)
  | LedgerPath (path : string).

Definition ledger_truthy (l : ledger_setting) : bool :=
  match l with
  | LedgerFlag b => b
  | LedgerPath path => str_truthy path
  end.

(** The fields of [DownloadOptions] (data_classes/download_dataclass.py)
    that [download] uses. [destdir] holds the string of the [Path];
    [fileobj] tells whether a sink object was provided. The timeout is
    passed to the client unchanged and is not recorded. *)
Record DownloadOptions : Type := mkDownloadOptions {
  destdir : option string;
  file_path : string;
  verbose : bool;
  ignore_existing : bool;
  ignore_errors : bool;
  stdout : bool;
  checksum : bool;
  checksum_archive : ledger_setting;
  retries : Z;
  no_change_timestamp : bool;
  return_responses : bool;
  fileobj : bool;
  params : option (gmap string string);
  retries_sleep : Z
}.

Definition set_retries (o : DownloadOptions) (n : Z) : DownloadOptions :=
  {| destdir := destdir o; file_path := file_path o; verbose := verbose o;
     ignore_existing := ignore_existing o; ignore_errors := ignore_errors o;
     stdout := stdout o; checksum := checksum o;
     checksum_archive := checksum_archive o; retries := n;
     no_change_timestamp := no_change_timestamp o;
     return_responses := return_responses o; fileobj := fileobj o;
     params := params o; retries_sleep := retries_sleep o |}.

(** A request made through [client.get], and the response: the status, the
    parsed [Last-Modified] header, the chunks that
    [response.content.iter_chunked(8192)] delivers and the exception, if
    any, that ends the stream after them. *)
Record request : Type := mkRequest {
  req_url : string;
  req_params : option (gmap string string);
  req_headers : gmap string string
}.

Record response : Type := mkResponse {
  resp_status : Z;
  resp_last_modified : option Z;
  resp_chunks : list string;
  resp_stream_error : option exn
}.

(** [client.get]: the answer to the [n]-th request of the call (counted
    from 0), or the exception it raises. *)
Definition Transport : Type := nat -> request -> result response.

(** What the call does to its environment, in order. *)
Inductive event : Type :=
  | EvMakedirs (path : string)
  | EvGet (r : request)
  | EvSleep (seconds : Z)
  | EvUtime (path : string) (time : Z).

(** The environment: the regular files by path, the bytes written to
    [sys.stdout.buffer] and to the provided sink, and the events so far.
    Directories are not stored: a directory that a call needs is there or
    can be made, unless a regular file is in its way; [os.path.exists],
    [os.stat] and [open] for reading see the regular files only. A path is
    taken as it is written: two paths name the same file when they are
    equal. Permissions, links and limits of the file system are not part
    of the embedding. A [str] is held as its UTF-8 encoding. *)
Record world : Type := mkWorld {
  fs : gmap string string;
  stdout_buf : string;
  fileobj_buf : string;
  events : list event
}.

Definition set_fs (w : world) (fs' : gmap string string) : world :=
  {| fs := fs'; stdout_buf := stdout_buf w; fileobj_buf := fileobj_buf w;
     events := events w |}.

Definition log (w : world) (ev : event) : world :=
  {| fs := fs w; stdout_buf := stdout_buf w; fileobj_buf := fileobj_buf w;
     events := events w ++ [ev] |}.

Definition write_stdout (w : world) (data : string) : world :=
  {| fs := fs w; stdout_buf := stdout_buf w +:+ data;
     fileobj_buf := fileobj_buf w; events := events w |}.

Definition write_fileobj (w : world) (data : string) : world :=
  {| fs := fs w; stdout_buf := stdout_buf w; fileobj_buf := fileobj_buf w +:+ data;
     events := events w |}.

(** [aiofiles.os.path.exists] and [aiofiles.os.path.isfile] are coroutine
    functions. *)
Definition path_exists (w : world) (path : string) : coroutine bool :=
  Coro (bool_decide (is_Some (fs w !! path))).

Definition path_isfile (w : world) (path : string) : coroutine bool :=
  Coro (bool_decide (is_Some (fs w !! path))).

(** [(await aiofiles.os.stat(path)).st_size] of an existing file. *)
Definition st_size (w : world) (path : string) : Z :=
  Z.of_nat (String.length (default EmptyString (fs w !! path))).

(** [open(path, "w")], [open(path, "wb")]: the file is created or
    truncated; [open(path, "a")], [open(path, "ab")]: its content is kept. *)
Definition open_truncate (w : world) (path : string) : world :=
  set_fs w (<[path := EmptyString]> (fs w)).

Definition append_file (w : world) (path : string) (data : string) : world :=
  set_fs w (<[path := default EmptyString (fs w !! path) +:+ data]> (fs w)).

Definition concat_chunks (chunks : list string) : string :=
  fold_left (fun acc chunk => acc +:+ chunk) chunks EmptyString.

(** *** Directories and files in each other's way *)

(** The paths that [os.makedirs(name)] may have to make, outermost first,
    as repeated [os.path.split] gives them, for a [name] as [dirname]
    gives it (without a slash at its end, unless it is made of slashes):
    the prefixes of [name] that end before a slash, taken without the
    slashes at their end, and [name] itself. The empty path and a path
    made of slashes are not among them. *)
Definition is_head (seen : string) : bool :=
  str_truthy seen && negb (endswith_slash seen).

Fixpoint heads_from (seen rest : string) : list string :=
  match rest with
  | EmptyString => if is_head seen then [seen] else []
  | String c rest' =>
      (if Ascii.eqb c slash && is_head seen then [seen] else [])
      ++ heads_from (seen +:+ String c EmptyString) rest'
  end.

Definition makedirs_heads (name : string) : list string :=
  heads_from EmptyString name.

(** A regular file lies beneath [p]. *)
Definition holds_files (fs : gmap string string) (p : string) : bool :=
  existsb (fun kv => startswith (p +:+ "/") (fst kv)) (map_to_list fs).

(** A regular file at [p] is in the way of a directory [p]. In a file
    system no regular file lies beneath a regular file; a map that has both
    is read with [p] as a directory. *)
Definition in_the_way (fs : gmap string string) (p : string) : bool :=
  bool_decide (is_Some (fs !! p)) && negb (holds_files fs p).

(** The exception of [os.makedirs(name, exist_ok=True)], when it raises:
    [mkdir] fails with [FileExistsError] where the regular file is [name]
    itself, and with [NotADirectoryError] on the path that comes after the
    regular file otherwise. *)
Fixpoint makedirs_stop (fs : gmap string string) (heads : list string) : option exn :=
  match heads with
  | [] => None
  | p :: rest =>
      if in_the_way fs p then
        Some match rest with
             | [] => FileExistsError p
             | q :: _ => NotADirectoryError q
             end
      else makedirs_stop fs rest
  end.

Definition makedirs_error (fs : gmap string string) (name : string) : option exn :=
  makedirs_stop fs (makedirs_heads name).

Definition makedirs (w : world) (name : string) : result world :=
  match makedirs_error (fs w) name with
  | Some e => Raise e
  | None => Ok (log w (EvMakedirs name))
  end.

(** [p[p.rfind("/") + 1:]] *)
Definition basename (path : string) : string :=
  str_drop (String.length (dir_prefix path)) path.

(** The exception of [open(path, "wb")] and of [open(path, "ab")], when
    they raise, in a directory that is there: the empty path names no
    file; a path whose last component is empty, [.] or [..], or beneath
    which a regular file lies, names a directory. *)
Definition names_directory (path : string) : bool :=
  negb (str_truthy (basename path))
  || String.eqb (basename path) "." || String.eqb (basename path) "..".

Definition open_error (fs : gmap string string) (path : string) : option exn :=
  if bool_decide (is_Some (fs !! path)) then None
  else if negb (str_truthy path) then Some (FileNotFoundError path)
  else if names_directory path || holds_files fs path
  then Some (IsADirectoryError path)
  else None.

Definition CHECKSUM_ARCHIVE_FILENAME : string := "_checksum_archive.txt".
Definition LINE_END : string := String LF EmptyString.

(** How a step of [download] ends: the function returns a value, raises, or
    goes on. *)
Inductive retval : Type :=
  | RTrue
  | RFalse
  | RNone
  | RResponse (r : response).

Inductive outcome : Type :=
  | Returned (v : retval)
  | Raised (e : exn).

Inductive step : Type :=
  | Done (w : world) (o : outcome)
  | Proceed (w : world).

(** Lines 106-112: the destination path. A [Path] object is always truthy;
    a [str] is truthy unless empty. *)
Definition resolve_path (w : world) (self : t) (o : DownloadOptions)
  : result string :=
  let file_path := if str_truthy (file_path o) then file_path o else name self in
  match destdir o with
  | Some d =>
      if str_truthy d then
        if await (path_isfile w d)
        then Raise (OSError (d +:+ " is not a directory!"))
        else Ok (path_join d file_path)
      else Ok file_path
  | None => Ok file_path
  end.

Section Download.

Variable client_get : Transport.

(** Lines 118-137: the checksum ledger. The two calls of
    [aiofiles.os.path.exists] in lines 117 and 120 are not awaited: the
    conditions test the coroutine objects. The ledger is opened with
    [encoding="utf-8"]: [readlines] raises [UnicodeDecodeError] on bytes
    that are not well-formed. *)
Definition ledger_check (o : DownloadOptions) (file_path : string) (w : world)
  : step :=
  if ledger_truthy (checksum_archive o) then
    let checksum_archive_filename := CHECKSUM_ARCHIVE_FILENAME in
    let w :=
      if negb (coroutine_truthy (path_exists w checksum_archive_filename))
      then open_truncate w checksum_archive_filename
      else w in
    match fs w !! checksum_archive_filename with
    | None => Done w (Raised (FileNotFoundError checksum_archive_filename))
    | Some text =>
        if negb (utf8_valid text) then Done w (Raised UnicodeDecodeError)
        else
          let checksum_archive_data := readlines text in
          if str_in file_path checksum_archive_data
          then Done w (Returned RNone)
          else Proceed w
    end
  else Proceed w.

(** Lines 154-158: the path is appended to the file that
    [download_options.checksum_archive] designates; [open(True, "a")] opens
    file descriptor 1. *)
Definition ledger_append (o : DownloadOptions) (file_path : string) (w : world)
  : world :=
  match checksum_archive o with
  | LedgerFlag true => write_stdout w (file_path +:+ LINE_END)
  | LedgerFlag false => w
  | LedgerPath path =>
      if str_truthy path then append_file w path (file_path +:+ LINE_END) else w
  end.

(** Lines 138-159. [utils.get_md5(fp)] is not awaited either: [md5_sum] is
    the coroutine object. *)
Definition existing_check (self : t) (o : DownloadOptions) (file_path : string)
    (w : world) : step :=
  if ignore_existing o then Done w (Returned RNone)
  else if checksum o || ledger_truthy (checksum_archive o) then
    match fs w !! file_path with
    | None => Done w (Raised (FileNotFoundError file_path))
    | Some content =>
        let md5_sum := Utils.get_md5 (Utils.mkFileObject content 0%nat) in
        if coroutine_eq_value md5_sum (md5 self)
        then Done (ledger_append o file_path w) (Returned RNone)
        else Proceed w
    end
  else Proceed w.

(** Lines 117-159: the checks made before the transfer loop. *)
Definition skip_checks (self : t) (o : DownloadOptions) (file_path : string)
    (w : world) : step :=
  if negb (return_responses o) && coroutine_truthy (path_exists w file_path) then
    match ledger_check o file_path w with
    | Done w' out => Done w' out
    | Proceed w' => existing_check self o file_path w'
    end
  else Proceed w.

(** [{"Range": f"bytes={st.st_size}-"}] *)
Definition range_headers (st_size : Z) : gmap string string :=
  {[ "Range" := "bytes=" +:+ pretty st_size +:+ "-" ]}.

(** Lines 167-176: the request headers of an attempt. [headers] is the
    variable of [download]: it keeps its value from one attempt to the
    next. *)
Definition attempt_headers (self : t) (o : DownloadOptions) (file_path : string)
    (w : world) (headers : gmap string string) : gmap string string :=
  if negb (return_responses o) && await (path_exists w file_path) then
    if negb (st_size w file_path =? size self)
       && negb (checksum o || ledger_truthy (checksum_archive o))
    then range_headers (st_size w file_path)
    else headers
  else headers.

(** Lines 207-209 and 223-227: the body is written chunk by chunk; when the
    stream fails, the chunks delivered before are already written. *)
Definition stream_to (write : world -> string -> world) (resp : response)
    (w : world) : world :=
  fold_left write (resp_chunks resp) w.

(** How one pass through the [try] block (lines 164-229) ends. *)
Inductive attempt_end : Type :=
  | AReturn (v : retval)
  | ABreak
  | AExcept (e : exn).

(** Lines 167-229: the pass from the point where the parent directory is
    there. *)
Definition attempt_transfer (self : t) (o : DownloadOptions) (file_path : string)
    (n : nat) (headers : gmap string string) (w : world)
  : gmap string string * world * attempt_end :=
  let headers := attempt_headers self o file_path w headers in
  let req := mkRequest (url self) (params o) headers in
  let w := log w (EvGet req) in
  match client_get n req with
  | Raise e => (headers, w, AExcept e)
  | Ok resp =>
      let last_mod_mtime := default (mtime self) (resp_last_modified resp) in
      if 400 <=? resp_status resp
      then (headers, w, AExcept (ClientResponseError (resp_status resp)))
      else if return_responses o then (headers, w, AReturn (RResponse resp))
      else if stdout o || fileobj o then
        let w :=
          if stdout o then stream_to write_stdout resp w
          else stream_to write_fileobj resp w in
        match resp_stream_error resp with
        | Some e => (headers, w, AExcept e)
        | None => (headers, w, ABreak)
        end
      else
        match open_error (fs w) file_path with
        | Some e => (headers, w, AExcept e)
        | None =>
            let w :=
              if bool_decide (is_Some (headers !! "Range")) then w
              else open_truncate w file_path in
            let w :=
              stream_to (fun w chunk => append_file w file_path chunk) resp w in
            match resp_stream_error resp with
            | Some e => (headers, w, AExcept e)
            | None =>
                let w :=
                  if negb (no_change_timestamp o)
                  then log w (EvUtime file_path last_mod_mtime)
                  else w in
                (headers, w, AReturn RTrue)
            end
        end
  end.

(** One pass through the [try] block. [os.makedirs] (line 165) is inside
    it: when it raises, the pass ends in the [except] clause before the
    headers are computed and before any request. *)
Definition attempt (self : t) (o : DownloadOptions) (file_path parent_dir : string)
    (n : nat) (headers : gmap string string) (w : world)
  : gmap string string * world * attempt_end :=
  match (if str_truthy parent_dir && negb (return_responses o)
         then makedirs w parent_dir
         else Ok w) with
  | Raise e => (headers, w, AExcept e)
  | Ok w => attempt_transfer self o file_path n headers w
  end.

(** Lines 162-246: the retry loop. [fuel] bounds the iterations of
    [while True] in the model; [None] means that it ran out. *)
Fixpoint retry_loop (fuel : nat) (self : t) (file_path parent_dir : string)
    (n : nat) (headers : gmap string string) (o : DownloadOptions) (w : world)
  : option (world * DownloadOptions * outcome) :=
  match fuel with
  | O => None
  | S fuel' =>
      let '(headers, w, e) := attempt self o file_path parent_dir n headers w in
      match e with
      | AReturn v => Some (w, o, Returned v)
      | ABreak => Some (w, o, Returned RTrue)
      | AExcept exc =>
          if 0 <? retries o then
            let o := set_retries o (retries o - 1) in
            let w := log w (EvSleep (retries_sleep o)) in
            retry_loop fuel' self file_path parent_dir (S n) headers o w
          else if ignore_errors o then Some (w, o, Returned RFalse)
          else Some (w, o, Raised exc)
      end
  end.

(** [AsyncFile.download]. The options object is shared with the caller, so
    the call also gives back its final state. Every pass that does not end
    the loop lowers a positive [retries] by one, so [retries + 1] passes
    are enough. *)
Definition download (self : t) (o : DownloadOptions) (w : world)
  : option (world * DownloadOptions * outcome) :=
  match resolve_path w self o with
  | Raise e => Some (w, o, Raised e)
  | Ok file_path =>
      let parent_dir := dirname file_path in
      match skip_checks self o file_path w with
      | Done w' out => Some (w', o, out)
      | Proceed w' =>
          retry_loop (S (Z.to_nat (retries o))) self file_path parent_dir
                     0%nat ∅ o w'
      end
  end.

End Download.

(** *** Observations on a run, and the fixtures of the examples *)

(** The environment with further events. *)
Definition log_all (w : world) (evs : list event) : world :=
  {| fs := fs w; stdout_buf := stdout_buf w; fileobj_buf := fileobj_buf w;
     events := events w ++ evs |}.

Definition is_get (ev : event) : bool :=
  match ev with EvGet _ => true | _ => false end.

Definition is_sleep (ev : event) : bool :=
  match ev with EvSleep _ => true | _ => false end.

(** The number of requests and of sleeps among some events, and the
    requests themselves. *)
Definition gets (evs : list event) : nat := length (List.filter is_get evs).
Definition sleeps (evs : list event) : nat := length (List.filter is_sleep evs).

Definition requests (evs : list event) : list request :=
  flat_map (fun ev => match ev with EvGet r => [r] | _ => [] end) evs.

(** An attempt fails at the transport level when [client.get] raises,
    when the status is 400 or more ([raise_for_status]), or when the body
    stream breaks off while it is read; the body is not read when the
    response itself is asked for. *)
Definition fails (o : DownloadOptions) (r : result response) : Prop :=
  match r with
  | Raise _ => True
  | Ok resp =>
      400 <= resp_status resp
      \/ (return_responses o = false /\ resp_stream_error resp <> None)
  end.

Definition always_fails (o : DownloadOptions) (client_get : Transport) : Prop :=
  forall n req, fails o (client_get n req).

(** The exception that such an attempt hands to the [except] clause. *)
Definition failure_of (r : result response) : exn :=
  match r with
  | Raise e => e
  | Ok resp =>
      if 400 <=? resp_status resp then ClientResponseError (resp_status resp)
      else default (ClientResponseError (resp_status resp)) (resp_stream_error resp)
  end.

(** The world in which the transfer of a pass runs when [os.makedirs] has
    not raised, and the events of a pass up to its request. *)
Definition with_parent (o : DownloadOptions) (parent_dir : string) (w : world)
  : world :=
  if str_truthy parent_dir && negb (return_responses o)
  then log w (EvMakedirs parent_dir)
  else w.

Definition pass_events (o : DownloadOptions) (parent_dir : string) (req : request)
  : list event :=
  (if str_truthy parent_dir && negb (return_responses o)
   then [EvMakedirs parent_dir] else [])
  ++ [EvGet req].

(** Passes with a sleep after each one but the last. *)
Fixpoint with_sleeps (delay : Z) (passes : list (list event)) : list event :=
  match passes with
  | [] => []
  | [pass] => pass
  | pass :: rest => pass ++ [EvSleep delay] ++ with_sleeps delay rest
  end.

(** The events of a pass that makes its request and goes no further: the
    creation of the parent directory, when there is one to create, and
    the request. *)
Definition request_only (o : DownloadOptions) (parent_dir : string)
    (pass : list event) : Prop :=
  exists req, pass = pass_events o parent_dir req.

(** [fs'] differs from [fs] at most at [path], where it has a file if
    [fs] has one. *)
Definition grows_at (path : string) (fs fs' : gmap string string) : Prop :=
  (forall k, k <> path -> fs' !! k = fs !! k)
  /\ (is_Some (fs !! path) -> is_Some (fs' !! path)).

(** [os.makedirs] is not called in a pass, or it does not raise. *)
Definition parent_free (o : DownloadOptions) (fs : gmap string string)
    (parent_dir : string) : Prop :=
  return_responses o = true \/ makedirs_error fs parent_dir = None.

(** Nothing on disk keeps a pass from the transport and from the body: the
    parent directory can be made, and the destination can be opened when
    the body goes to it. *)
Definition destination_free (o : DownloadOptions) (fs : gmap string string)
    (file_path : string) : Prop :=
  return_responses o = true
  \/ (makedirs_error fs (dirname file_path) = None
      /\ (stdout o || fileobj o = true \/ open_error fs file_path = None)).

(** The options with the defaults of the dataclass, but for the given
    fields. *)
Definition options (ignore_errors checksum return_responses : bool)
    (ledger : ledger_setting) (retries : Z) : DownloadOptions :=
  {| destdir := None; file_path := EmptyString; verbose := false;
     ignore_existing := false; ignore_errors := ignore_errors;
     stdout := false; checksum := checksum; checksum_archive := ledger;
     retries := retries; no_change_timestamp := false;
     return_responses := return_responses; fileobj := false;
     params := None; retries_sleep := 3 |}.

(** The file [a.txt] of the item [item]. *)
Definition remote_file (size : Z) (md5 : option string) : t :=
  mk "item" "a.txt" size md5 0 "https://archive.org/item/a.txt".

Definition world_with (files : list (string * string)) : world :=
  mkWorld (list_to_map files) EmptyString EmptyString [].

(** A server that always sends the given body, and one that is down. *)
Definition serves (body : string) : Transport :=
  fun _ _ => Ok (mkResponse 200 None [body] None).

Definition unreachable : Transport :=
  fun _ _ => Raise (ClientError "cannot connect").

(** A server whose every answer breaks off after two bytes of the body. *)
Definition always_drops : Transport :=
  fun _ _ => Ok (mkResponse 200 None ["he"] (Some (ClientError "connection reset"))).

(** A server whose first answer breaks off after the whole body has been
    delivered, and whose later answers are complete. *)
Definition drops_then_serves (body : string) : Transport :=
  fun n _ =>
    match n with
    | O => Ok (mkResponse 206 None [body] (Some (ClientError "connection reset")))
    | S _ => Ok (mkResponse 206 None [body] None)
    end.

End AsyncFile.

(** ** [file.py]: options of the further examples *)

Module AsyncFileFixtures.

Import AsyncFile.

(** Options that differ from given ones in one field. *)
Definition set_ignore_existing (o : DownloadOptions) (b : bool) : DownloadOptions :=
  {| destdir := destdir o; file_path := file_path o; verbose := verbose o;
     ignore_existing := b; ignore_errors := ignore_errors o;
     stdout := stdout o; checksum := checksum o;
     checksum_archive := checksum_archive o; retries := retries o;
     no_change_timestamp := no_change_timestamp o;
     return_responses := return_responses o; fileobj := fileobj o;
     params := params o; retries_sleep := retries_sleep o |}.

Definition set_stdout (o : DownloadOptions) (b : bool) : DownloadOptions :=
  {| destdir := destdir o; file_path := file_path o; verbose := verbose o;
     ignore_existing := ignore_existing o; ignore_errors := ignore_errors o;
     stdout := b; checksum := checksum o;
     checksum_archive := checksum_archive o; retries := retries o;
     no_change_timestamp := no_change_timestamp o;
     return_responses := return_responses o; fileobj := fileobj o;
     params := params o; retries_sleep := retries_sleep o |}.

Definition set_destdir (o : DownloadOptions) (d : option string) : DownloadOptions :=
  {| destdir := d; file_path := file_path o; verbose := verbose o;
     ignore_existing := ignore_existing o; ignore_errors := ignore_errors o;
     stdout := stdout o; checksum := checksum o;
     checksum_archive := checksum_archive o; retries := retries o;
     no_change_timestamp := no_change_timestamp o;
     return_responses := return_responses o; fileobj := fileobj o;
     params := params o; retries_sleep := retries_sleep o |}.

(** The options of the dataclass as they are by default. *)
Definition default_options : DownloadOptions :=
  options false false false (LedgerFlag false) 2.

(** A file in a subdirectory of its item. *)
Definition nested_file : t :=
  mk "item" "a/b.txt" 5 None 0 "https://archive.org/item/a/b.txt".

End AsyncFileFixtures.

(** ** [search.py]: protocol selection, offset paging and aggregations *)

Module AsyncSearchModes.

Import AsyncSearch.

(** The branches of [_make_results_generator]. *)
Inductive mode : Type :=
  | FullTextScroll
  | UserAggs
  | OffsetPaged
  | BulkScrape.

Definition select_mode (self : t) : mode :=
  let o := search_options self in
  if fts o then FullTextScroll
  else if has_key "user_aggs" (params o) then UserAggs
  else if has_key "page" (params o) then OffsetPaged
  else BulkScrape.

Definition ADVANCED_SEARCH_URL : string := "https://archive.org/advancedsearch.php".

(** [f"fl[{key}]"] and [f"sort[{i}]"] *)
Definition fl_key (i : nat) : string := "fl[" +:+ pretty i +:+ "]".
Definition sort_key (i : nat) : string := "sort[" +:+ pretty i +:+ "]".

(** Lines 57-58: ["identifier"] is appended to the field list when it is
    not in it. *)
Definition advanced_fields (fields : list string) : list string :=
  if str_in "identifier" fields then fields else fields ++ ["identifier"].

(** [for i, v in enumerate(xs): params[key(i)] = v], from index [i]. *)
Fixpoint set_indexed (key : nat -> string) (i : nat) (xs : list string)
    (p : gmap string pyval) : gmap string pyval :=
  match xs with
  | [] => p
  | v :: xs' => set_indexed key (S i) xs' (<[key i := PStr v]> p)
  end.

(** Lines 57-66 of [_advanced_search]. *)
Definition advanced_prepare (self : t) : t :=
  let o := search_options self in
  let fields' := advanced_fields (fields o) in
  let p1 := set_indexed fl_key 0 fields' (params o) in
  let p2 := set_indexed sort_key 0 (sorts o) p1 in
  {| search_options :=
       {| query := query o; fields := fields'; sorts := sorts o;
          params := <["output" := PStr "json"]> p2;
          request_kwargs := request_kwargs o;
          fts := fts o; dsl_fts := dsl_fts o |};
     _num_found := _num_found self |}.

(** What the consumer of an offset-paged or aggregate enumeration sees:
    the requests made with [client.get] and the records yielded. *)
Inductive get_event : Type :=
  | EvGet (url : string) (params : gmap string pyval)
  | EvRecord (v : pyval).

(** How the generator ended: it was exhausted, or an exception left it. *)
Inductive gen_end : Type :=
  | Exhausted
  | Propagated (e : exn).

Record get_run : Type := mkGetRun {
  g_trace : list get_event;
  g_final : t;
  g_end : gen_end
}.

Definition records (tr : list get_event) : list pyval :=
  flat_map (fun ev => match ev with EvRecord v => [v] | EvGet _ _ => [] end) tr.

Definition get_requests (tr : list get_event) : list (gmap string pyval) :=
  flat_map (fun ev => match ev with EvGet _ p => [p] | EvRecord _ => [] end) tr.

(** [not self._num_found] *)
Definition num_found_unset (self : t) : bool :=
  match _num_found self with
  | None => true
  | Some v => negb (truthy v)
  end.

(** [v.items()]: only a dict has the method. *)
Definition py_items (v : pyval) : result (list (string * pyval)) :=
  match v with
  | PDict kvs => Ok kvs
  | _ => Raise AttributeError
  end.

(** [response_json.get("response", {}).get(key, dflt)] *)
Definition response_field (response_json : pyval) (key : string) (dflt : pyval)
  : result pyval :=
  bind (py_get response_json "response" (PDict [])) (fun r => py_get r key dflt).

Section Generators.

(** The builtin [int], applied to a decoded JSON value. *)
Variable int : pyval -> result Z.

(** [client.get] followed by [response.json()], as [Transport] is for
    [client.post]. *)
Variable client_get : Transport.

(** [_advanced_search]: one request inside a [try] whose [except] clauses
    catch every exception, log it and let the generator end. *)
Definition _advanced_search (self : t) : get_run :=
  let self := advanced_prepare self in
  let p := params (search_options self) in
  let request := EvGet ADVANCED_SEARCH_URL p in
  match client_get 0%nat p with
  | Raise _ => mkGetRun [request] self Exhausted
  | Ok response_json =>
      match bind (response_field response_json "numFound" (PInt 0)) int with
      | Raise _ => mkGetRun [request] self Exhausted
      | Ok num_found =>
          let self :=
            if num_found_unset self then set_num_found self (PInt num_found)
            else self in
          match bind (response_field response_json "docs" (PList [])) py_iter with
          | Raise _ => mkGetRun [request] self Exhausted
          | Ok docs => mkGetRun (request :: map EvRecord docs) self Exhausted
          end
      end
  end.

(** [_user_aggs]: no [try]; an exception leaves the generator. The
    aggregations are iterated with [async for] over
    [dict.items()], which is not an asynchronous iterable: once the
    iterable is evaluated, the statement raises [TypeError]. *)
Definition _user_aggs (self : t) : get_run :=
  let o := search_options self in
  match params o !! "count" with
  | None => mkGetRun [] self (Propagated (KeyError "count"))
  | Some _ =>
      let p := <["output" := PStr "json"]>
                 (<["rows" := PStr "1"]> (delete "count" (params o))) in
      let self := set_params self p in
      let request := EvGet ADVANCED_SEARCH_URL p in
      match client_get 0%nat p with
      | Raise e => mkGetRun [request] self (Propagated e)
      | Ok response_json =>
          match py_get response_json "error" PNone with
          | Raise e => mkGetRun [request] self (Propagated e)
          | Ok _ =>
              match bind (response_field response_json "aggregations" (PDict []))
                         py_items with
              | Raise e => mkGetRun [request] self (Propagated e)
              | Ok _ => mkGetRun [request] self (Propagated TypeError)
              end
          end
      end
  end.

End Generators.

(** *** Vocabulary for the statements about the two scrolling loops *)

(** The payloads of the requests of a run, in order. *)
Definition post_payloads (tr : list event) : list (gmap string pyval) :=
  flat_map (fun ev => match ev with EvPost _ p => [p] | EvYield _ => [] end) tr.

(** A bulk-scrape response that the [try] block of [_scrape] handles
    without an exception. *)
Definition handled (json_response : pyval) : Prop :=
  raised (scrape_body json_response) = None.

(** [_num_found] after the responses [resps] were handled one after the
    other. *)
Definition last_total (resps : list pyval) (before : option pyval) : option pyval :=
  fold_left (fun acc resp =>
               match num_found_set (scrape_body resp) with
               | Some total => Some total
               | None => acc
               end) resps before.

(** A full-text response that is a JSON object and carries hits. *)
Definition has_hits (json_response : pyval) : Prop :=
  (exists kvs, json_response = PDict kvs)
  /\ exists hits, response_hits json_response = Ok hits /\ truthy hits = true.

Definition hits_of (json_response : pyval) : pyval :=
  match response_hits json_response with
  | Ok hits => hits
  | Raise _ => PNone
  end.

Definition scroll_id_of (json_response : pyval) : pyval :=
  match py_get json_response "_scroll_id" PNone with
  | Ok v => v
  | Raise _ => PNone
  end.

(** The payloads of a scroll through [pages]: each request carries the
    [_scroll_id] of the response before it. *)
Fixpoint scroll_payloads (data : gmap string pyval) (pages : list pyval)
  : list (gmap string pyval) :=
  match pages with
  | [] => [data]
  | page :: rest =>
      data :: scroll_payloads (<["scroll_id" := scroll_id_of page]> data) rest
  end.

(** A transport whose every request fails. *)
Definition down : Transport := fun _ _ => Raise (ClientError "connection refused").

(** The builtin [int] on a value of decoded JSON. An [int] is itself,
    [True] is 1 and [False] is 0; a float is cut off towards zero; [None],
    a list and a dict give [TypeError]. A [str] is read in base ten: the
    ASCII white space around it is dropped, a sign may come first, and the
    digits may have single underscores between them; anything else, and
    more than 4300 digits (the limit of Python 3.11 as it is by default),
    gives [ValueError]. The digits and the white space of Unicode outside
    ASCII, which [int] reads too, are not covered: here a [str] with such a
    character gives [ValueError]. *)
Definition int_space (c : ascii) : bool :=
  let n := nat_of_ascii c in
  ((9 <=? n) && (n <=? 13) || (n =? 32))%nat.

Definition int_digit (c : ascii) : option Z :=
  let n := nat_of_ascii c in
  if ((48 <=? n) && (n <=? 57))%nat then Some (Z.of_nat (n - 48)) else None.

Fixpoint all_int_space (s : string) : bool :=
  match s with
  | EmptyString => true
  | String c s' => int_space c && all_int_space s'
  end.

Fixpoint drop_int_space (s : string) : string :=
  match s with
  | EmptyString => EmptyString
  | String c s' => if int_space c then drop_int_space s' else s
  end.

(** The digits of the literal, with their value and their number so far;
    [after_digit] tells whether the character before was a digit. *)
Fixpoint int_digits (value count : Z) (after_digit : bool) (s : string)
  : option (Z * Z) :=
  match s with
  | EmptyString => if after_digit then Some (value, count) else None
  | String c s' =>
      match int_digit c with
      | Some d => int_digits (10 * value + d) (count + 1) true s'
      | None =>
          if negb after_digit then None
          else if Ascii.eqb c "_" then int_digits value count false s'
          else if all_int_space s then Some (value, count)
          else None
      end
  end.

Definition int_of_str (s : string) : result Z :=
  let s := drop_int_space s in
  let '(negative, s) :=
    match s with
    | String c s' =>
        if Ascii.eqb c "-" then (true, s')
        else if Ascii.eqb c "+" then (false, s')
        else (false, s)
    | EmptyString => (false, s)
    end in
  match int_digits 0 0 false s with
  | Some (value, count) =>
      if 4300 <? count then Raise ValueError
      else Ok (if negative then - value else value)
  | None => Raise ValueError
  end.

Definition int_of_json (v : pyval) : result Z :=
  match v with
  | PInt z => Ok z
  | PBool b => Ok (if b then 1 else 0)
  | PFloat m e => Ok (if 0 <=? e then m * 2 ^ e else Z.quot m (2 ^ (- e)))
  | PStr s => int_of_str s
  | PNone | PList _ | PDict _ => Raise TypeError
  end.

(** A plain query on full-text search, as a caller who sets [fts] asks
    for it. *)
Definition fts_options (q : string) : SearchOptions :=
  mkSearchOptions q [] [] ∅ ∅ true false.

(** An answer of the bulk-scrape service that reports an error and has no
    ["items"]. *)
Definition scrape_error (msg : string) : pyval :=
  PDict [("error", PStr msg)].

Definition answers_error : Transport := fun _ _ => Ok (scrape_error "bad query").

(** Offset paging: the second page of two rows, with a field and a sort
    order; and its answer [{"response": {"numFound": n, "docs": [...]}}]. *)
Definition paged_options : SearchOptions :=
  mkSearchOptions "collection:x" ["title"] ["date desc"]
    {[ "page" := PInt 2; "rows" := PInt 2 ]} ∅ false false.

Definition advanced_response (num_found : Z) (docs : list pyval) : pyval :=
  PDict [("response", PDict [("numFound", PInt num_found); ("docs", PList docs)])].

Definition one_page : Transport :=
  fun _ _ => Ok (advanced_response 4 [record "c"; record "d"]).

(** Aggregations by year, asked for together with a row count. *)
Definition aggs_options : SearchOptions :=
  mkSearchOptions "collection:x" [] []
    {[ "user_aggs" := PStr "year"; "rows" := PInt 1 ]} ∅ false false.

End AsyncSearchModes.

(** ** [search_expr.py]: edits of a ruleset *)

Module QueryBuilderEdits.

Import QueryBuilder.

(** The key of [positive_rules_map] that a ["to_be"] rule assigns, if it
    assigns one. *)
Definition rule_key (rule : Rule) : option string :=
  match field rule with
  | Some f => Some f
  | None =>
      match date rule with
      | Some date_logic =>
          match default [] (ranges date_logic) with
          | _ :: _ => Some "date"
          | [] => None
          end
      | None => None
      end
  end.

(** The ruleset with other ["to_be"] rules, and with other ["not_to_be"]
    rules. *)
Definition with_to_be (cfg : Config) (rules : list Rule) : Config :=
  mkConfig (Some rules) (groups cfg) (not_to_be cfg).

Definition with_not_to_be (cfg : Config) (rules : list Rule) : Config :=
  mkConfig (to_be cfg) (groups cfg) (Some rules).

(** [field_name] is listed in some group. *)
Definition grouped (cfg : Config) (field_name : string) : Prop :=
  exists group, In group (default [] (groups cfg)) /\ In field_name group.

(** What [build] reads of a ["not_to_be"] rule. *)
Definition same_negation (r r' : Rule) : Prop :=
  field r = field r'
  /\ l_alone (default empty_logic (logic r)) = l_alone (default empty_logic (logic r')).

(** A ruleset whose two rules are for the same field, and a negative rule
    that has [or] keywords besides its [alone] keyword. *)
Definition twice_creator_ruleset : Config :=
  mkConfig (Some [field_rule "creator" (one_keyword InAlone "Doe");
                  field_rule "creator" (one_keyword InAlone "Roe")])
           (Some [["creator"]])
           None.

Definition lang_rule_with_or : Rule :=
  field_rule "lang" (mkLogic None (Some ["y"; "z"]) (Some ["x"])).

End QueryBuilderEdits.

(** ** [utils.py]: cookie strings and nested updates *)

Module UtilsDicts.

(** A [str] is the sequence of its code points, each below 256.
    [c.isspace()] holds for the code points 9 to 13, 28 to 32, 133 and
    160. *)
Definition isspace (c : ascii) : bool :=
  let n := nat_of_ascii c in
  ((9 <=? n)%nat && (n <=? 13)%nat) || ((28 <=? n)%nat && (n <=? 32)%nat)
  || (n =? 133)%nat || (n =? 160)%nat.

(** [s.strip()] *)
Fixpoint lstrip_ws (s : string) : string :=
  match s with
  | EmptyString => EmptyString
  | String a s' => if isspace a then lstrip_ws s' else s
  end.

Fixpoint rstrip_ws (s : string) : string :=
  match s with
  | EmptyString => EmptyString
  | String a s' =>
      match rstrip_ws s' with
      | EmptyString => if isspace a then EmptyString else String a EmptyString
      | String b r => String a (String b r)
      end
  end.

Definition strip_ws (s : string) : string := rstrip_ws (lstrip_ws s).

(** [s.split(c)]: the pieces between the occurrences of [c]; never an
    empty list. *)
Fixpoint split (c : ascii) (s : string) : list string :=
  match s with
  | EmptyString => [EmptyString]
  | String a s' =>
      if Ascii.eqb a c then EmptyString :: split c s'
      else
        match split c s' with
        | piece :: pieces => String a piece :: pieces
        | [] => [String a EmptyString]
        end
  end.

(** [c in s] *)
Fixpoint contains (c : ascii) (s : string) : bool :=
  match s with
  | EmptyString => false
  | String a s' => Ascii.eqb a c || contains c s'
  end.

(** [name, value = s.split(c, 1)] for a string that contains [c]. *)
Fixpoint split_once (c : ascii) (s : string) : string * string :=
  match s with
  | EmptyString => (EmptyString, EmptyString)
  | String a s' =>
      if Ascii.eqb a c then (EmptyString, s')
      else let '(name, value) := split_once c s' in (String a name, value)
  end.

(** The body of the loop of [parse_dict_cookies], acting on [result]; the
    value [None] of the dict is [None] of the option type. *)
Definition add_cookie_item (result : gmap string (option string)) (item : string)
  : gmap string (option string) :=
  let item := strip_ws item in
  if negb (str_truthy item) then result
  else if negb (contains "=" item) then <[item := None]> result
  else let '(name, value) := split_once "=" item in <[name := Some value]> result.

Definition cookie_items (value : string) : gmap string (option string) :=
  fold_left add_cookie_item (split ";" value) ∅.

Definition parse_dict_cookies (value : string) : gmap string (option string) :=
  let result := cookie_items value in
  let result :=
    match result !! "domain" with
    | None => <["domain" := Some ".archive.org"]> result
    | Some _ => result
    end in
  match result !! "path" with
  | None => <["path" := Some "/"]> result
  | Some _ => result
  end.

(** [f"{ck}={cv}"], the string that [_update_cookies] of the client
    parses for each entry of the cookie configuration. *)
Definition raw_cookie_str (ck cv : string) : string := ck +:+ "=" +:+ cv.

(** [f"{name}={value}"], and a cookie string made of such pairs:
    ["; ".join(...)]. *)
Definition cookie_pair (kv : string * string) : string :=
  raw_cookie_str (fst kv) (snd kv).

Definition cookie_string (pairs : list (string * string)) : string :=
  join "; " (map cookie_pair pairs).

(** [result[name] = value] for each pair in turn. *)
Definition given_cookies (pairs : list (string * string)) : gmap string (option string) :=
  fold_left (fun m kv => <[fst kv := Some (snd kv)]> m) pairs ∅.

Definition cookie_defaults : gmap string (option string) :=
  <["path" := Some "/"]> {[ "domain" := Some ".archive.org" ]}.

(** The blank after the separator of a cookie string, when there is
    one. *)
Definition blank_of (blank : bool) : string :=
  if blank then " " else EmptyString.

(** The first and the last character of a string. *)
Definition starts_with_space (s : string) : bool :=
  match s with
  | String a _ => isspace a
  | EmptyString => false
  end.

Fixpoint ends_with_space (s : string) : bool :=
  match s with
  | EmptyString => false
  | String a EmptyString => isspace a
  | String _ s' => ends_with_space s'
  end.

(** Names and values that pass through a cookie string unchanged: no
    [;] in either, no [=] in the name, no white space before the name or
    after the value. *)
Definition plain_pair (kv : string * string) : Prop :=
  contains ";" (fst kv) = false /\ contains "=" (fst kv) = false
  /\ contains ";" (snd kv) = false
  /\ starts_with_space (fst kv) = false /\ ends_with_space (snd kv) = false.

(** *** [deep_update] *)

(** [d[k] = v] on a dict in key order: the value of an existing key is
    replaced where it stands, a new key is added at the end. *)
Definition setitem (k : string) (v : pyval) (kvs : list (string * pyval))
  : list (string * pyval) :=
  match assoc k kvs with
  | Some _ => map (fun kv => if String.eqb (fst kv) k then (fst kv, v) else kv) kvs
  | None => kvs ++ [(k, v)]
  end.

(** [d[k] = v] on a value: only a dict takes a [str] key. *)
Definition py_setitem (d : pyval) (k : string) (v : pyval) : result pyval :=
  match d with
  | PDict kvs => Ok (PDict (setitem k v kvs))
  | _ => Raise TypeError
  end.

(** [deep_update(d, u)]. A dict has each key once, so that [u[k]] is the
    [v] of the iteration. The function updates [d] in place and returns
    it; the embedding gives the returned value, or the exception alone when
    the call raises (the part of [d] that was updated before is not
    represented). *)
Fixpoint deep_update (d : pyval) (u : pyval) {struct u} : result pyval :=
  match u with
  | PDict items =>
      (fix loop (d : pyval) (items : list (string * pyval)) {struct items}
         : result pyval :=
         match items with
         | [] => Ok d
         | (k, v) :: rest =>
             bind (match v with
                   | PDict _ =>
                       bind (py_get d k (PDict []))
                            (fun sub => bind (deep_update sub v)
                                             (fun r => py_setitem d k r))
                   | _ => py_setitem d k v
                   end)
                  (fun d' => loop d' rest)
         end) d items
  | _ => Raise AttributeError
  end.

(** The loop of [deep_update] by itself. *)
Fixpoint deep_update_items (d : pyval) (items : list (string * pyval))
  : result pyval :=
  match items with
  | [] => Ok d
  | (k, v) :: rest =>
      bind (match v with
            | PDict _ =>
                bind (py_get d k (PDict []))
                     (fun sub => bind (deep_update sub v)
                                      (fun r => py_setitem d k r))
            | _ => py_setitem d k v
            end)
           (fun d' => deep_update_items d' rest)
  end.

(** What the update gives at one key: a nested dict of [u] is merged into
    the value that [d] has there (or into an empty dict), any other value
    of [u] replaces it. *)
Definition updated_value (d : list (string * pyval)) (k : string) (v : pyval)
  : result pyval :=
  match v with
  | PDict _ => deep_update (default (PDict []) (assoc k d)) v
  | _ => Ok v
  end.

(** A configuration as [get_config] reads it from a file, and the
    configuration of a caller that adds a secret to its ["s3"] section. *)
Definition file_config : list (string * pyval) :=
  [("s3", PDict [("access", PStr "a")]);
   ("general", PDict [("secure", PStr "True")])].

Definition caller_config : list (string * pyval) :=
  [("s3", PDict [("secret", PStr "b")])].

(** The outcome of a call as an option: the value, if there is one. *)
Definition value_of {A} (r : result A) : option A :=
  match r with
  | Ok a => Some a
  | Raise _ => None
  end.

End UtilsDicts.

(** ** [item.py]: the files of an item *)

Module AsyncItem.

(** The attributes of an item that [get_files] and [download] read.
    [identifier] is a [str] or [None]; [metadata] and [files] are what
    [load] copied from the item metadata with [setattr]. *)
Record t : Type := mk {
  identifier : option string;
  metadata : pyval;
  files : pyval
}.

(** [f"{self.identifier}"] *)
Definition identifier_str (self : t) : string :=
  match identifier self with
  | Some s => s
  | None => "None"
  end.

(** An element of the [files] argument: a name, a file object (of which
    [get_files] reads the name), or a value of another type. *)
Inductive file_item : Type :=
  | ItemStr (s : string)
  | ItemFile (name : string)
  | ItemOther.

(** The [files] argument: [None], one name, one file object, or a list. *)
Inductive files_arg : Type :=
  | FilesNone
  | FilesStr (s : string)
  | FilesFile (name : string)
  | FilesList (items : list file_item).

(** An argument that is [None], a [str] or a list of [str]: [formats],
    [glob_pattern], [exclude_pattern], and [source] of the options. *)
Inductive strs_arg : Type :=
  | StrsNone
  | StrsStr (s : string)
  | StrsList (l : list string).

Definition strs_truthy (a : strs_arg) : bool :=
  match a with
  | StrsNone => false
  | StrsStr s => str_truthy s
  | StrsList l => match l with [] => false | _ => true end
  end.

(** Lines 158 and 163-171: [input_file_names]. A single file object is
    truthy and is neither a list nor a [str]: it adds no name. *)
Definition input_file_names (files : files_arg) : list string :=
  match files with
  | FilesList items =>
      flat_map (fun item => match item with
                            | ItemStr s => [s]
                            | ItemFile name => [name]
                            | ItemOther => []
                            end) items
  | FilesStr s => if str_truthy s then [s] else []
  | FilesFile _ => []
  | FilesNone => []
  end.

(** Lines 159 and 173-174: [formats] as a list. *)
Definition formats_list (formats : strs_arg) : list string :=
  if strs_truthy formats then
    match formats with
    | StrsList l => l
    | StrsStr s => [s]
    | StrsNone => []
    end
  else [].

(** [pattern.split('|') if isinstance(pattern, str) else pattern] *)
Definition pattern_list (pattern : strs_arg) : list string :=
  match pattern with
  | StrsStr s => UtilsDicts.split "|" s
  | StrsList l => l
  | StrsNone => []
  end.

(** Line 160: [exclude_pattern or ''] *)
Definition exclude_or_empty (exclude_pattern : strs_arg) : strs_arg :=
  if strs_truthy exclude_pattern then exclude_pattern else StrsStr EmptyString.

(** Lines 180-187: the derived files of [on_the_fly]. *)
Definition otf_files (self : t) : list pyval :=
  map (fun ff : string * string =>
         PDict [("name", PStr (identifier_str self +:+ snd ff));
                ("format", PStr (fst ff));
                ("otf", PBool true)])
      [("EPUB", ".epub"); ("MOBI", ".mobi");
       ("DAISY", "_daisy.zip"); ("MARCXML", "_archive_marc.xml")].

(** [item_files.append(x)] for each derived file: only a list has the
    method. *)
Definition append_all (item_files : pyval) (xs : list pyval) : result pyval :=
  match xs with
  | [] => Ok item_files
  | _ =>
      match item_files with
      | PList l => Ok (PList (l ++ xs))
      | _ => Raise AttributeError
      end
  end.

(** [x in names] for a value [x] and a list of [str]: a value that is not
    a [str] equals none of them. *)
Definition py_in (x : pyval) (names : list string) : bool :=
  match x with
  | PStr s => str_in s names
  | _ => false
  end.

(** What an asynchronous generator gives its consumer: the values yielded,
    and the exception that ended it, if one did. *)
Record gen (A : Type) : Type := mkGen {
  gen_yielded : list A;
  gen_raised : option exn
}.
Arguments mkGen {A} gen_yielded gen_raised.
Arguments gen_yielded {A} g.
Arguments gen_raised {A} g.

Section GetFiles.

(** [fnmatch(name, pattern)] of the standard library on two [str], and the
    constructor call [self.get_file(file_name, file_metadata=f_metadata)],
    which may raise. *)
Variable fnmatch : string -> string -> bool.
Variable File : Type.
Variable get_file : pyval -> pyval -> result File.

(** [any(fnmatch(file_name, p) for p in patterns)]: [fnmatch] raises
    [TypeError] on a name that is not a [str], when there is a pattern to
    try. *)
Definition any_fnmatch (file_name : pyval) (patterns : list string) : result bool :=
  match patterns with
  | [] => Ok false
  | _ =>
      match file_name with
      | PStr s => Ok (existsb (fnmatch s) patterns)
      | _ => Raise TypeError
      end
  end.

(** Lines 190-206: [should_yield] for one entry of the item's files. *)
Definition should_yield (names formats : list string)
    (glob_pattern exclude_pattern : strs_arg) (f_metadata : pyval)
  : result (pyval * bool) :=
  bind (py_get f_metadata "name" (PStr EmptyString)) (fun file_name =>
  bind (py_get f_metadata "format" (PStr EmptyString)) (fun file_format =>
    let none_given :=
      negb ((match names with [] => false | _ => true end)
            || (match formats with [] => false | _ => true end)
            || strs_truthy glob_pattern) in
    if none_given then Ok (file_name, true)
    else if py_in file_name names then Ok (file_name, true)
    else if py_in file_format formats then Ok (file_name, true)
    else if strs_truthy glob_pattern then
      bind (any_fnmatch file_name (pattern_list glob_pattern)) (fun matched =>
        if matched then
          bind (any_fnmatch file_name (pattern_list exclude_pattern))
               (fun excluded => Ok (file_name, negb excluded))
        else Ok (file_name, false))
    else Ok (file_name, false))).

(** The loop of lines 189-208. *)
Fixpoint files_loop (names formats : list string)
    (glob_pattern exclude_pattern : strs_arg) (item_files : list pyval)
  : gen File :=
  match item_files with
  | [] => mkGen [] None
  | f_metadata :: rest =>
      match should_yield names formats glob_pattern exclude_pattern f_metadata with
      | Raise e => mkGen [] (Some e)
      | Ok (file_name, false) =>
          files_loop names formats glob_pattern exclude_pattern rest
      | Ok (file_name, true) =>
          match get_file file_name f_metadata with
          | Raise e => mkGen [] (Some e)
          | Ok file =>
              let g := files_loop names formats glob_pattern exclude_pattern rest in
              mkGen (file :: gen_yielded g) (gen_raised g)
          end
      end
  end.

(** The body of [get_files]. *)
Definition get_files (self : t) (files : files_arg)
    (formats glob_pattern exclude_pattern : strs_arg) (on_the_fly : bool)
  : gen File :=
  let names := input_file_names files in
  let formats := formats_list formats in
  let exclude_pattern := exclude_or_empty exclude_pattern in
  match bind (append_all (AsyncItem.files self)
                         (if on_the_fly then otf_files self else []))
             py_iter with
  | Raise e => mkGen [] (Some e)
  | Ok item_files => files_loop names formats glob_pattern exclude_pattern item_files
  end.

End GetFiles.

(** *** [AsyncItem.download] *)

(** [DownloadOptions.fileobj]: nothing, the buffer of the standard output,
    or an object of the caller. *)
Inductive fileobj_setting : Type :=
  | FileobjNone
  | FileobjStdout
  | FileobjCaller.

(** The fields of [DownloadOptions] that [AsyncItem.download] reads or
    assigns before its loop. *)
Record DownloadOptions : Type := mkDownloadOptions {
  source : strs_arg;
  exclude_source : strs_arg;
  verbose : bool;
  stdout : bool;
  dry_run : bool;
  item_index : option Z;
  wanted_files : files_arg;
  formats : strs_arg;
  glob_pattern : strs_arg;
  exclude_pattern : strs_arg;
  on_the_fly : bool;
  fileobj : fileobj_setting
}.

(** [x = [x]] when [x] is truthy and not a list (lines 211-215). *)
Definition as_list (a : strs_arg) : strs_arg :=
  match a with
  | StrsStr s => if str_truthy s then StrsList [s] else a
  | _ => a
  end.

(** Lines 211-222: the assignments to the options object. *)
Definition prepare (o : DownloadOptions) : DownloadOptions :=
  {| source := as_list (source o);
     exclude_source := as_list (exclude_source o);
     verbose := if stdout o then false else verbose o;
     stdout := stdout o;
     dry_run := dry_run o;
     item_index := item_index o;
     wanted_files := wanted_files o;
     formats := formats o;
     glob_pattern := glob_pattern o;
     exclude_pattern := exclude_pattern o;
     on_the_fly := on_the_fly o;
     fileobj := if stdout o then FileobjStdout else FileobjNone |}.

(** Lines 224-228: the line printed to the standard error stream before
    the item is looked at. *)
Definition header (self : t) (o : DownloadOptions) : list string :=
  if dry_run o then []
  else
    match item_index o with
    | Some i =>
        if negb (i =? 0) && verbose o
        then [identifier_str self +:+ " (" +:+ pretty i +:+ "):"]
        else []
    | None => if verbose o then [identifier_str self +:+ ":"] else []
    end.

(** [self.metadata == {}] *)
Definition is_empty_dict (v : pyval) : bool :=
  match v with
  | PDict [] => true
  | _ => false
  end.

Definition files_truthy (files : files_arg) : bool :=
  match files with
  | FilesNone => false
  | FilesStr s => str_truthy s
  | FilesFile _ => true
  | FilesList items => match items with [] => false | _ => true end
  end.

(** What a [for] statement or [list(...)] is given: a list, or the object
    that a call of an asynchronous generator function returns. The body of
    the function has not run when the object is returned. *)
Inductive iterable (A : Type) : Type :=
  | PyList (l : list A)
  | AsyncGenerator (g : gen A).
Arguments PyList {A} l.
Arguments AsyncGenerator {A} g.

(** [list(it)] and [for x in it: body]: an asynchronous generator has no
    [__iter__], both raise [TypeError] on it. *)
Definition py_list {A} (it : iterable A) : result (iterable A) :=
  match it with
  | PyList l => Ok (PyList l)
  | AsyncGenerator _ => Raise TypeError
  end.

Definition py_for {A S} (it : iterable A) (body : S -> A -> result S) (s : S)
  : result S :=
  match it with
  | PyList l => for_each body l s
  | AsyncGenerator _ => Raise TypeError
  end.

(** What a call of [download] leaves: the options object, the lines
    printed to the standard error stream, and the value returned or the
    exception raised. *)
Record download_run (R : Type) : Type := mkDownloadRun {
  options_after : DownloadOptions;
  stderr : list string;
  returned : result R
}.
Arguments mkDownloadRun {R} options_after stderr returned.
Arguments options_after {R} d.
Arguments stderr {R} d.
Arguments returned {R} d.

Section Download.

Variable fnmatch : string -> string -> bool.
Variable File : Type.
Variable get_file : pyval -> pyval -> result File.

(** The loop of lines 264-299 acts on the counters, the lists and the
    world through [body], from the state [start]; lines 301-308 compute
    the returned list from the state that the loop leaves. [nothing] is
    the empty list. *)
Variable LoopState : Type.
Variable R : Type.
Variable start : LoopState.
Variable body : LoopState -> File -> result LoopState.
Variable finish : LoopState -> R.
Variable nothing : R.

Definition download (self : t) (o : DownloadOptions) : download_run R :=
  let o := prepare o in
  let err := header self o in
  if is_empty_dict (metadata self) then
    let msg := "skipping " +:+ identifier_str self +:+ ", item does not exist." in
    mkDownloadRun o (err ++ if verbose o then [" " +:+ msg] else []) (Ok nothing)
  else
      let files :=
        if files_truthy (wanted_files o) then
          AsyncGenerator (get_files fnmatch File get_file self (wanted_files o)
                            StrsNone StrsNone StrsNone (on_the_fly o))
        else if strs_truthy (formats o) then
          AsyncGenerator (get_files fnmatch File get_file self FilesNone
                            (formats o) StrsNone StrsNone (on_the_fly o))
        else if strs_truthy (glob_pattern o) then
          AsyncGenerator (get_files fnmatch File get_file self FilesNone
                            StrsNone (glob_pattern o) (exclude_pattern o)
                            (on_the_fly o))
        else
          AsyncGenerator (get_files fnmatch File get_file self FilesNone
                            StrsNone StrsNone StrsNone (on_the_fly o)) in
      mkDownloadRun o err
        (bind (if stdout o then py_list files else Ok files) (fun files =>
         bind (py_for files body start) (fun s => Ok (finish s)))).

End Download.

(** *** The items and files of the examples *)

Definition mp3_file : pyval :=
  PDict [("name", PStr "a.mp3"); ("format", PStr "VBR MP3")].

Definition txt_file : pyval :=
  PDict [("name", PStr "a.txt"); ("format", PStr "Text")].

Definition two_file_item : t :=
  mk (Some "x") (PDict [("identifier", PStr "x")]) (PList [mp3_file; txt_file]).

(** A stand-in for [fnmatch] that knows the pattern [*] and literal
    names, and a constructor that keeps its arguments. *)
Definition star_or_literal (name pattern : string) : bool :=
  String.eqb pattern "*" || String.eqb pattern name.

Definition keep_arguments (file_name f_metadata : pyval) : result (pyval * pyval) :=
  Ok (file_name, f_metadata).

Definition default_options : DownloadOptions :=
  mkDownloadOptions StrsNone StrsNone false false false None FilesNone
    StrsNone StrsNone StrsNone false FileobjNone.

End AsyncItem.

(** * Properties *)

(** ** Strings *)

Section StringFacts.

(** stdpp keeps [String.append] from being unfolded by [simpl]; these are
    its two equations. *)
Lemma append_nil (t : string) : EmptyString +:+ t = t.
Proof. reflexivity. Qed.

Lemma append_cons (c : ascii) (s t : string) :
  String c s +:+ t = String c (s +:+ t).
Proof. reflexivity. Qed.

Lemma append_empty_r (s : string) : s +:+ EmptyString = s.
Proof.
  induction s as [|c s IH]; [reflexivity|].
  now rewrite append_cons, IH.
Qed.

Lemma append_assoc (a b c : string) : (a +:+ b) +:+ c = a +:+ (b +:+ c).
Proof.
  induction a as [|x a IH]; [reflexivity|].
  now rewrite !append_cons, IH.
Qed.

Lemma length_append (a b : string) :
  String.length (a +:+ b) = (String.length a + String.length b)%nat.
Proof.
  induction a as [|x a IH]; [reflexivity|].
  rewrite append_cons. simpl. now rewrite IH.
Qed.

Lemma str_truthy_length (s : string) :
  str_truthy s = true <-> (0 < String.length s)%nat.
Proof. destruct s; simpl; split; intros; try lia; try discriminate; reflexivity. Qed.

Lemma str_truthy_false (s : string) : str_truthy s = false <-> s = EmptyString.
Proof. destruct s; simpl; split; intros; congruence. Qed.

(** [join] on a list extended at its end. *)
Lemma join_snoc (sep : string) (parts : list string) (p : string) :
  parts <> [] -> join sep (parts ++ [p]) = join sep parts +:+ sep +:+ p.
Proof.
  induction parts as [|a parts IH]; intros Hne; [congruence|].
  destruct parts as [|b parts].
  - reflexivity.
  - change (join sep ((a :: b :: parts) ++ [p]))
      with (a +:+ sep +:+ join sep ((b :: parts) ++ [p])).
    rewrite IH by discriminate.
    change (join sep (a :: b :: parts)) with (a +:+ sep +:+ join sep (b :: parts)).
    now rewrite !append_assoc.
Qed.

Lemma filter_truthy_all (parts : list string) :
  Forall (fun p => str_truthy p = true) parts ->
  List.filter str_truthy parts = parts.
Proof.
  induction 1 as [|p parts Hp _ IH]; simpl; [reflexivity|].
  now rewrite Hp, IH.
Qed.

End StringFacts.

(** ** [get_md5] *)

Section Md5Facts.

Import Utils.

Lemma substring_take_drop n m s : substring n m s = str_take m (str_drop n s).
Proof.
  revert n m. induction s as [|c s IH]; intros n m.
  - destruct n, m; reflexivity.
  - destruct n as [|n]; simpl.
    + destruct m as [|m]; [reflexivity|]. simpl. f_equal.
      rewrite (IH 0%nat m). now destruct s.
    + apply IH.
Qed.

Lemma take_drop_append n s : str_take n s +:+ str_drop n s = s.
Proof.
  revert s. induction n as [|n IH]; intros s; [reflexivity|].
  destruct s as [|c s]; [reflexivity|].
  simpl. rewrite append_cons. f_equal. apply IH.
Qed.

Lemma drop_length_take n s :
  str_drop (String.length (str_take n s)) s = str_drop n s.
Proof.
  revert s. induction n as [|n IH]; intros s; [reflexivity|].
  destruct s as [|c s]; [reflexivity|]. simpl. apply IH.
Qed.

Lemma drop_add n k s : str_drop (n + k) s = str_drop k (str_drop n s).
Proof.
  revert s. induction n as [|n IH]; intros s; [reflexivity|].
  destruct s as [|c s]; simpl; [now destruct k | apply IH].
Qed.

Lemma length_drop n s :
  String.length (str_drop n s) = (String.length s - n)%nat.
Proof.
  revert s. induction n as [|n IH]; intros s; simpl; [lia|].
  destruct s as [|c s]; simpl; [reflexivity | apply IH].
Qed.

(** The loop of [get_md5] feeds the digest every byte from the read
    position to the end of the file, in order. *)
Lemma md5_loop_reads_rest content :
  forall fuel m pos,
    (String.length (str_drop pos content) < fuel)%nat ->
    fst (md5_loop fuel m (mkFileObject content pos))
    = m +:+ str_drop pos content
    /\ fo_content (snd (md5_loop fuel m (mkFileObject content pos))) = content.
Proof.
  assert (Hchunk : (0 < CHUNK)%nat) by (unfold CHUNK; lia).
  induction fuel as [|fuel IH]; intros m pos Hfuel; [lia|].
  cbn [md5_loop]. unfold read_chunk. cbn [fo_content fo_pos].
  rewrite substring_take_drop.
  set (rest := str_drop pos content) in *.
  destruct (str_take CHUNK rest) as [|c chunk] eqn:Echunk.
  - cbn [str_truthy negb fst snd fo_content].
    assert (rest = EmptyString) as ->.
    { destruct rest; [reflexivity|].
      destruct CHUNK; [lia | discriminate]. }
    rewrite append_empty_r. split; reflexivity.
  - cbn [str_truthy negb].
    pose proof (take_drop_append CHUNK rest) as Hsplit.
    pose proof (drop_length_take CHUNK rest) as Hdrop.
    rewrite Echunk in Hsplit, Hdrop.
    destruct (IH (m +:+ String c chunk)
                 (pos + String.length (String c chunk))%nat) as [Hm Hc].
    { rewrite drop_add. fold rest. rewrite Hdrop, length_drop.
      rewrite <- Hsplit in Hfuel at 1. rewrite length_append in Hfuel.
      rewrite <- Hsplit at 1. rewrite length_append.
      cbn [String.length] in *. lia. }
    split; [|exact Hc].
    rewrite Hm, drop_add. fold rest. rewrite Hdrop, append_assoc.
    now rewrite Hsplit.
Qed.

(** Awaiting [get_md5] on a file opened at its start gives the MD5 digest
    of its whole content and leaves the file rewound. *)
Lemma get_md5_digest content :
  await (get_md5 (mkFileObject content 0%nat))
  = (Hashlib.md5_hexdigest content, mkFileObject content 0%nat).
Proof.
  unfold get_md5, await.
  destruct (md5_loop_reads_rest content (S (String.length content))
              EmptyString 0%nat) as [Hm Hc]; [simpl; lia|].
  cbn [fo_content] in *.
  destruct (md5_loop (S (String.length content)) EmptyString
                     (mkFileObject content 0%nat)) as [m fp'].
  simpl in Hm, Hc. subst m. rewrite append_nil. simpl. now rewrite Hc.
Qed.

End Md5Facts.

(** ** The query builder *)

Section QueryBuilderFacts.

Import QueryBuilder.

Lemma fold_append_map {A} (g : A -> string) (l : list A) (acc : list string) :
  fold_left (fun acc x => acc ++ [g x]) l acc = acc ++ map g l.
Proof.
  revert acc. induction l as [|x l IH]; intros acc; simpl.
  - now rewrite app_nil_r.
  - rewrite IH. now rewrite <- app_assoc.
Qed.

Lemma add_positive_rule_date_only m rule :
  date_only m -> date_only (add_positive_rule m rule).
Proof.
  intros Hm k s. unfold add_positive_rule.
  destruct (field rule) as [f|].
  - rewrite lookup_insert. case_decide; [discriminate | apply Hm].
  - destruct (date rule) as [dl|]; [|apply Hm].
    destruct (default [] (ranges dl)) as [|r rs]; [apply Hm|].
    rewrite lookup_insert. case_decide; [|apply Hm].
    intros [= <-]. split; [congruence | now exists r].
Qed.

Lemma positive_rules_map_date_only cfg : date_only (positive_rules_map cfg).
Proof.
  unfold positive_rules_map.
  assert (Hgen : forall rules m, date_only m ->
                   date_only (fold_left add_positive_rule rules m)).
  { induction rules as [|r rules IH]; intros m Hm; simpl; [exact Hm|].
    apply IH, add_positive_rule_date_only, Hm. }
  apply Hgen. intros k s. rewrite lookup_empty. discriminate.
Qed.

Lemma add_field_parts_spec m acc field_name :
  date_only m ->
  add_field_parts m acc field_name = Ok (acc ++ spec_field_clauses m field_name).
Proof.
  intros Hm. unfold add_field_parts, spec_field_clauses.
  destruct (m !! field_name) as [[l|s]|] eqn:E.
  - destruct l as [[a|] [o|] [al|]]; unfold spec_keywords; simpl;
      rewrite ?fold_append_map, ?app_nil_r, ?map_app, <- ?app_assoc;
      reflexivity.
  - destruct (Hm _ _ E) as [-> [r ->]]. reflexivity.
  - now rewrite app_nil_r.
Qed.

Lemma for_each_fields m group acc :
  date_only m ->
  for_each (add_field_parts m) group acc
  = Ok (acc ++ flat_map (spec_field_clauses m) group).
Proof.
  intros Hm. revert acc.
  induction group as [|f group IH]; intros acc; simpl.
  - now rewrite app_nil_r.
  - rewrite add_field_parts_spec by exact Hm. simpl.
    rewrite IH. now rewrite <- app_assoc.
Qed.

Lemma add_group_spec m acc group :
  date_only m ->
  add_group m acc group
  = Ok (acc ++ option_list (spec_group (flat_map (spec_field_clauses m) group))).
Proof.
  intros Hm. unfold add_group. rewrite for_each_fields by exact Hm. simpl.
  destruct (flat_map (spec_field_clauses m) group) as [|c [|c' cs]].
  - simpl. now rewrite app_nil_r.
  - reflexivity.
  - assert (H : (1 <? Z.of_nat (length (c :: c' :: cs))) = true)
      by (apply Z.ltb_lt; simpl length; lia).
    simpl in H |- *. now rewrite H.
Qed.

Lemma for_each_groups m groups acc :
  date_only m ->
  for_each (add_group m) groups acc
  = Ok (acc ++ omap (fun group =>
                       spec_group (flat_map (spec_field_clauses m) group)) groups).
Proof.
  intros Hm. revert acc.
  induction groups as [|g groups IH]; intros acc; simpl.
  - now rewrite app_nil_r.
  - rewrite add_group_spec by exact Hm. simpl. rewrite IH.
    destruct (spec_group (flat_map (spec_field_clauses m) g)); simpl.
    + now rewrite <- app_assoc.
    + now rewrite app_nil_r.
Qed.

Lemma add_negative_rule_spec acc rule :
  add_negative_rule acc rule = acc ++ spec_not_rule rule.
Proof.
  unfold add_negative_rule, spec_not_rule.
  destruct (field rule) as [f|]; [|now rewrite app_nil_r].
  destruct (l_alone (default empty_logic (logic rule))) as [[|kw kws]|]; simpl;
    destruct (str_truthy f); now rewrite ?app_nil_r.
Qed.

Lemma fold_negative_rules rules acc :
  fold_left add_negative_rule rules acc = acc ++ flat_map spec_not_rule rules.
Proof.
  revert acc. induction rules as [|r rules IH]; intros acc; simpl.
  - now rewrite app_nil_r.
  - rewrite IH, add_negative_rule_spec. now rewrite <- app_assoc.
Qed.

Lemma proper_clause_truthy s : proper_clause s -> str_truthy s = true.
Proof. unfold proper_clause. destruct s; simpl; [lia | reflexivity]. Qed.

Lemma quoted_proper field_name kw : proper_clause (quoted field_name kw).
Proof.
  unfold proper_clause, quoted. rewrite !length_append.
  change (String.length dquote) with 1%nat. simpl. lia.
Qed.

Lemma date_clause_proper r : proper_clause (date_clause r).
Proof.
  unfold proper_clause, date_clause. rewrite !length_append. simpl. lia.
Qed.

Lemma spec_field_clauses_proper m field_name :
  date_only m -> Forall proper_clause (spec_field_clauses m field_name).
Proof.
  intros Hm. unfold spec_field_clauses.
  destruct (m !! field_name) as [[l|s]|] eqn:E.
  - apply Forall_forall. intros c Hc. apply list_elem_of_In, in_map_iff in Hc.
    destruct Hc as (kw & <- & _). apply quoted_proper.
  - destruct (Hm _ _ E) as [_ [r ->]].
    constructor; [apply date_clause_proper | constructor].
  - constructor.
Qed.

Lemma join_length_ge sep c rest :
  (String.length c <= String.length (join sep (c :: rest)))%nat.
Proof.
  destruct rest as [|c' rest]; simpl; [lia|].
  rewrite length_append. lia.
Qed.

Lemma spec_group_proper clauses g :
  Forall proper_clause clauses -> spec_group clauses = Some g -> proper_clause g.
Proof.
  intros Hall. unfold spec_group.
  destruct clauses as [|c [|c' cs]]; intros [= <-].
  - now inversion Hall.
  - unfold proper_clause. rewrite !length_append.
    pose proof (join_length_ge " OR " c (c' :: cs)) as Hlen.
    inversion Hall as [|? ? Hc _]; subst. unfold proper_clause in Hc.
    change (String.length "(") with 1%nat. lia.
Qed.

Lemma spec_group_clauses_proper cfg :
  Forall proper_clause (spec_group_clauses cfg).
Proof.
  unfold spec_group_clauses.
  pose proof (positive_rules_map_date_only cfg) as Hm.
  induction (default [] (groups cfg)) as [|g gs IH]; simpl; [constructor|].
  destruct (spec_group _) as [c|] eqn:E; [|exact IH].
  constructor; [|exact IH].
  eapply spec_group_proper; [|exact E].
  clear E. induction g as [|f g IHg]; simpl; [constructor|].
  apply Forall_app. split; [now apply spec_field_clauses_proper | exact IHg].
Qed.

Lemma spec_not_clauses_proper cfg : Forall proper_clause (spec_not_clauses cfg).
Proof.
  unfold spec_not_clauses.
  induction (default [] (not_to_be cfg)) as [|r rs IH]; simpl; [constructor|].
  apply Forall_app. split; [|exact IH].
  unfold spec_not_rule. destruct (field r) as [f|]; [|constructor].
  destruct (str_truthy f); [|constructor].
  apply Forall_forall. intros c Hc. apply list_elem_of_In, in_map_iff in Hc.
  destruct Hc as (kw & <- & _).
  unfold proper_clause. rewrite length_append.
  pose proof (quoted_proper f kw) as H. unfold proper_clause in H.
  change (String.length "NOT ") with 4%nat. lia.
Qed.

(** The code computes what the specification describes, and never raises. *)
Lemma build_spec cfg : build cfg = Ok (spec_build cfg).
Proof.
  unfold build, spec_build.
  rewrite for_each_groups by apply positive_rules_map_date_only.
  simpl. rewrite fold_negative_rules. simpl.
  fold (spec_group_clauses cfg). fold (spec_not_clauses cfg).
  rewrite filter_truthy_all; [reflexivity|].
  apply Forall_app. split.
  - eapply Forall_impl; [apply spec_group_clauses_proper|].
    apply proper_clause_truthy.
  - eapply Forall_impl; [apply spec_not_clauses_proper|].
    apply proper_clause_truthy.
Qed.

Lemma add_positive_rule_speaks m rule field_name :
  spec_speaks_for field_name rule = true ->
  spec_field_clauses (add_positive_rule m rule) field_name
  = spec_rule_clauses field_name rule.
Proof.
  unfold spec_speaks_for, add_positive_rule, spec_rule_clauses, spec_first_range,
    spec_field_clauses.
  destruct (field rule) as [f|].
  - intros ->%String.eqb_eq. now rewrite lookup_insert_eq.
  - destruct (date rule) as [date_logic|]; [|discriminate].
    destruct (default [] (ranges date_logic)) as [|r rs]; [discriminate|].
    cbn [head]. intros Hk. apply andb_true_iff in Hk as [_ <-%String.eqb_eq].
    now rewrite lookup_insert_eq.
Qed.

Lemma add_positive_rule_silent m rule field_name :
  spec_speaks_for field_name rule = false ->
  add_positive_rule m rule !! field_name = m !! field_name.
Proof.
  unfold spec_speaks_for, add_positive_rule, spec_first_range.
  destruct (field rule) as [f|].
  - intros Hne%String.eqb_neq. now rewrite lookup_insert_ne.
  - destruct (date rule) as [date_logic|]; [|reflexivity].
    destruct (default [] (ranges date_logic)) as [|r rs]; [reflexivity|].
    cbn [head]. rewrite bool_decide_eq_true_2 by now eexists.
    intros Hne%String.eqb_neq. now rewrite lookup_insert_ne.
Qed.

(** The map of lines 12-24 holds, for a field, what the last rule that
    speaks for it says. *)
Lemma positive_rules_last rules field_name :
  forall m,
    spec_field_clauses (fold_left add_positive_rule rules m) field_name
    = match last (List.filter (spec_speaks_for field_name) rules) with
      | Some rule => spec_rule_clauses field_name rule
      | None => spec_field_clauses m field_name
      end.
Proof.
  induction rules as [|rule rules IH]; intros m; [reflexivity|].
  cbn [fold_left List.filter]. rewrite IH.
  destruct (spec_speaks_for field_name rule) eqn:Hk.
  - rewrite last_cons.
    destruct (last (List.filter (spec_speaks_for field_name) rules)); [reflexivity|].
    now apply add_positive_rule_speaks.
  - destruct (last (List.filter (spec_speaks_for field_name) rules)); [reflexivity|].
    unfold spec_field_clauses. now rewrite add_positive_rule_silent.
Qed.

Lemma spec_field_clauses_of_config cfg field_name :
  spec_field_clauses (positive_rules_map cfg) field_name
  = spec_clauses_of_field cfg field_name.
Proof.
  unfold positive_rules_map, spec_clauses_of_field. rewrite positive_rules_last.
  destruct (last _); [reflexivity|].
  unfold spec_field_clauses. now rewrite lookup_empty.
Qed.

Lemma flat_map_pointwise {A B} (f g : A -> list B) l :
  (forall x, f x = g x) -> flat_map f l = flat_map g l.
Proof. intros H. induction l as [|x l IH]; simpl; [reflexivity|]. now rewrite H, IH. Qed.

Lemma spec_group_clauses_from_config cfg : spec_group_clauses cfg = spec_groups cfg.
Proof.
  unfold spec_group_clauses, spec_groups.
  induction (default [] (groups cfg)) as [|g gs IH]; [reflexivity|].
  cbn [omap list_omap]. rewrite IH.
  rewrite (flat_map_pointwise _ _ g (spec_field_clauses_of_config cfg)).
  unfold spec_group.
  destruct (flat_map (spec_clauses_of_field cfg) g) as [|c [|c' cs]]; reflexivity.
Qed.

(** C6: for every ruleset the builder returns the AND-join of the group
    clauses followed by the NOT clauses, both worded from the ruleset
    alone ([spec_groups], [spec_nots]): for each group, the keywords of the
    [and], [or] and [alone] lists of the rules that speak for its fields
    become one flat list of clauses; several clauses are OR-joined in
    parentheses, one clause is emitted bare, and a group without clauses
    is left out, so that no group clause is empty or a pair of empty
    parentheses. In particular a ruleset of one field rule and the group
    of that field gives the field's [and], [or] and [alone] keywords, in
    this order, as one OR-joined group. The empty ruleset gives the empty
    string. *)
Theorem build_groups_flattened_and_joined (cfg : Config) :
  build cfg = Ok (join " AND " (spec_groups cfg ++ spec_nots cfg))
  /\ Forall (fun clause => clause <> EmptyString /\ clause <> "()")
            (spec_groups cfg)
  /\ (forall field_name l,
        build (mkConfig (Some [field_rule field_name l]) (Some [[field_name]]) None)
        = Ok match map (fun kw => field_name +:+ ":" +:+ dquote +:+ kw +:+ dquote)
                       (default [] (l_and l) ++ default [] (l_or l)
                        ++ default [] (l_alone l)) with
             | [] => EmptyString
             | [clause] => clause
             | clauses => "(" +:+ join " OR " clauses +:+ ")"
             end)
  /\ build empty_ruleset = Ok EmptyString.
Proof.
  split.
  { rewrite build_spec. unfold spec_build.
    now rewrite spec_group_clauses_from_config. }
  split.
  { rewrite <- spec_group_clauses_from_config.
    eapply Forall_impl; [apply spec_group_clauses_proper|].
    intros c Hc. unfold proper_clause in Hc.
    split; intros ->; simpl in Hc; lia. }
  split; [|reflexivity].
  intros field_name l. rewrite build_spec. unfold spec_build.
  rewrite spec_group_clauses_from_config.
  unfold spec_groups, spec_not_clauses, spec_clauses_of_field, spec_speaks_for,
    spec_rule_clauses, spec_keywords.
  cbn [groups to_be not_to_be default from_option id field_rule field logic
       List.filter omap list_omap flat_map].
  rewrite String.eqb_refl. cbn [last app]. rewrite !app_nil_r.
  change (fun kw => field_name +:+ ":" +:+ dquote +:+ kw +:+ dquote)
    with (spec_clause field_name).
  destruct (map (spec_clause field_name) _) as [|c [|c' cs]]; reflexivity.
Qed.

(** Appending a negative rule with one [alone] keyword to a ruleset that
    already produces a clause extends the query by one [AND NOT] clause. *)
Lemma build_append_not_rule (cfg : Config) (field_name kw : string) :
  str_truthy field_name = true ->
  spec_group_clauses cfg ++ spec_not_clauses cfg <> [] ->
  build (append_not_rule cfg (field_rule field_name (one_keyword InAlone kw)))
  = Ok (spec_build cfg +:+ " AND NOT " +:+ quoted field_name kw).
Proof.
  intros Hf Hne. rewrite build_spec. unfold spec_build. f_equal.
  assert (Hg : spec_group_clauses
                 (append_not_rule cfg (field_rule field_name (one_keyword InAlone kw)))
               = spec_group_clauses cfg) by reflexivity.
  assert (Hn : spec_not_clauses
                 (append_not_rule cfg (field_rule field_name (one_keyword InAlone kw)))
               = spec_not_clauses cfg ++ ["NOT " +:+ quoted field_name kw]).
  { unfold spec_not_clauses, append_not_rule. simpl.
    rewrite flat_map_app. simpl. unfold spec_not_rule at 2. simpl.
    now rewrite Hf. }
  rewrite Hg, Hn, app_assoc, join_snoc by exact Hne.
  reflexivity.
Qed.

(** C5: building is a function of the ruleset alone and leaves the builder
    unchanged, so building twice gives the same string; the ruleset with
    group [creator] and the rule [alone: Doe] gives [creator:"Doe"]; a group
    of two fields with one value each (in any of the three keyword lists)
    gives [(field1:"a" OR field2:"b")]; and appending the [not_to_be] rule
    [alone: x] on [lang] to either ruleset gives the same string followed
    by [ AND NOT lang:"x"]. *)
Theorem build_deterministic_with_expected_output :
  (forall qb : QueryBuilder.t,
      snd (build_method qb) = qb
      /\ fst (build_method (snd (build_method qb))) = fst (build_method qb))
  /\ build creator_ruleset = Ok ("creator:" +:+ dquote +:+ "Doe" +:+ dquote)
  /\ (forall k1 k2 : keyword_list,
        build (two_field_ruleset k1 k2)
        = Ok ("(field1:" +:+ dquote +:+ "a" +:+ dquote
              +:+ " OR field2:" +:+ dquote +:+ "b" +:+ dquote +:+ ")"))
  /\ (forall k1 k2 : keyword_list,
        build (append_not_rule (two_field_ruleset k1 k2) lang_rule)
        = Ok ("(field1:" +:+ dquote +:+ "a" +:+ dquote
              +:+ " OR field2:" +:+ dquote +:+ "b" +:+ dquote +:+ ")"
              +:+ " AND NOT lang:" +:+ dquote +:+ "x" +:+ dquote))
  /\ build (append_not_rule creator_ruleset lang_rule)
     = Ok ("creator:" +:+ dquote +:+ "Doe" +:+ dquote
           +:+ " AND NOT lang:" +:+ dquote +:+ "x" +:+ dquote).
Proof.
  split; [intros qb; split; reflexivity|].
  split; [vm_compute; reflexivity|].
  split; [intros [] []; vm_compute; reflexivity|].
  split; [intros [] []; vm_compute; reflexivity|].
  vm_compute; reflexivity.
Qed.

End QueryBuilderFacts.

(** ** The pagination engine *)

Section SearchFacts.

Import AsyncSearch.

Lemma has_key_true k (m : gmap string pyval) v :
  m !! k = Some v -> has_key k m = true.
Proof. intros H. unfold has_key. apply bool_decide_eq_true. now exists v. Qed.

Lemma has_key_false k (m : gmap string pyval) :
  m !! k = None -> has_key k m = false.
Proof.
  intros H. unfold has_key. apply bool_decide_eq_false.
  rewrite H. intros [v Hv]. discriminate.
Qed.

(** The in-place changes of lines 36-46 keep every caller entry other than
    ["index"], and ["scope"] when ["index"] is given. *)
Lemma init_scope_page_keeps (o : SearchOptions) k v :
  params o !! k = Some v ->
  k <> "index" ->
  (k = "scope" -> params o !! "index" = None) ->
  init_scope (init_page o) !! k = Some v.
Proof.
  intros Hk Hindex Hscope.
  assert (Hpage : init_page o !! k = Some v).
  { unfold init_page.
    destruct (has_key "page" (params o)) eqn:Ep; simpl; [exact Hk|].
    destruct (has_key "rows" (params o)); [|exact Hk].
    rewrite lookup_insert. case_decide as Hd; [|exact Hk].
    subst k. unfold has_key in Ep. apply bool_decide_eq_false in Ep.
    exfalso. apply Ep. now exists v. }
  assert (Hidx : forall x, init_page o !! "index" = Some x ->
                           params o !! "index" = Some x).
  { intros x. unfold init_page.
    destruct (has_key "page" (params o)); simpl; [tauto|].
    destruct (has_key "rows" (params o)); [|tauto].
    rewrite lookup_insert_ne by discriminate. tauto. }
  unfold init_scope. destruct (init_page o !! "index") as [x|] eqn:Ex; [|exact Hpage].
  rewrite lookup_delete_ne by congruence.
  rewrite lookup_insert. case_decide as Hd; [|exact Hpage].
  subst k. rewrite (Hscope eq_refl) in Hidx. specialize (Hidx x eq_refl). discriminate.
Qed.

Lemma init_scope_page_absent (o : SearchOptions) k :
  params o !! k = None -> k <> "page" -> k <> "scope" ->
  init_scope (init_page o) !! k = None.
Proof.
  intros Hk Hpage Hscope.
  assert (H1 : init_page o !! k = None).
  { unfold init_page.
    destruct (has_key "page" (params o)); simpl; [exact Hk|].
    destruct (has_key "rows" (params o)); [|exact Hk].
    now rewrite lookup_insert_ne by congruence. }
  unfold init_scope. destruct (init_page o !! "index") as [x|]; [|exact H1].
  destruct (decide (k = "index")) as [->|Hne].
  - apply lookup_delete_eq.
  - rewrite lookup_delete_ne by congruence.
    now rewrite lookup_insert_ne by congruence.
Qed.

(** C10: caller-supplied parameters take precedence over the injected
    defaults. Every entry of the caller's [params] (other than the alias
    ["index"], which is renamed to ["scope"]) is in the final map with the
    caller's value; in particular a caller-supplied ["q"] replaces the
    query string of the options; and where the caller gives no value the
    injected defaults show: ["q"] is the (normalized) query, ["count"] is
    ["10000"] exactly when neither ["page"] nor ["rows"] is given, and
    ["output"] is ["json"] exactly when ["page"] is given. *)
Theorem init_caller_params_take_precedence (o : SearchOptions) :
  let final := params (search_options (init o)) in
  (forall k v, params o !! k = Some v ->
               k <> "index" ->
               (k = "scope" -> params o !! "index" = None) ->
               final !! k = Some v)
  /\ (forall v, params o !! "q" = Some v -> final !! "q" = Some v)
  /\ (params o !! "q" = None -> final !! "q" = Some (PStr (init_query o)))
  /\ (params o !! "count" = None ->
      final !! "count"
      = if has_key "page" (params o) || has_key "rows" (params o)
        then None else Some (PStr "10000"))
  /\ (params o !! "output" = None ->
      final !! "output"
      = if has_key "page" (params o) then Some (PStr "json") else None).
Proof.
  cbn zeta. change (params (search_options (init o))) with (init_final_params o).
  unfold init_final_params.
  assert (Hkeep : forall k v, params o !! k = Some v -> k <> "index" ->
                    (k = "scope" -> params o !! "index" = None) ->
                    (init_scope (init_page o) ∪ init_default_params o) !! k = Some v).
  { intros k v Hk Hi Hs. apply lookup_union_Some_l.
    now apply init_scope_page_keeps. }
  split; [exact Hkeep|].
  split; [intros v Hv; apply Hkeep; [exact Hv | discriminate | discriminate]|].
  split; [|split].
  - intros Hq. rewrite lookup_union_r
      by (apply init_scope_page_absent; [exact Hq | discriminate | discriminate]).
    unfold init_default_params.
    destruct (has_key "page" (params o)); simpl;
      [|destruct (has_key "rows" (params o))];
      rewrite ?lookup_insert_ne by discriminate; apply lookup_singleton_eq.
  - intros Hc. rewrite lookup_union_r
      by (apply init_scope_page_absent; [exact Hc | discriminate | discriminate]).
    unfold init_default_params.
    destruct (has_key "page" (params o)); simpl;
      [|destruct (has_key "rows" (params o))]; simpl.
    + rewrite lookup_insert_ne by discriminate. now rewrite lookup_singleton_ne.
    + now rewrite lookup_singleton_ne.
    + apply lookup_insert_eq.
  - intros Ho. rewrite lookup_union_r
      by (apply init_scope_page_absent; [exact Ho | discriminate | discriminate]).
    unfold init_default_params.
    destruct (has_key "page" (params o)); simpl;
      [|destruct (has_key "rows" (params o))]; simpl.
    + apply lookup_insert_eq.
    + now rewrite lookup_singleton_ne.
    + rewrite lookup_insert_ne by discriminate. now rewrite lookup_singleton_ne.
Qed.

(** The caller-supplied ["q"] of [q_override_options] replaces the query,
    and the defaults of ["count"], ["output"] and ["q"] show where the
    caller gives none. *)
Lemma init_caller_params_take_precedence_witness :
  params (search_options (init q_override_options)) !! "q" = Some (PStr "title:y")
  /\ params (search_options (init q_override_options)) !! "count"
     = Some (PStr "10000")
  /\ params (search_options (init q_override_options)) !! "output" = None
  /\ params (search_options (init (plain_options "title:x"))) !! "q"
     = Some (PStr "title:x").
Proof.
  pose proof (init_caller_params_take_precedence q_override_options)
    as (Hkeep & Hq & _ & Hcount & Houtput).
  pose proof (init_caller_params_take_precedence (plain_options "title:x"))
    as (_ & _ & Hquery & _).
  split; [apply Hq; reflexivity|].
  split; [apply Hcount; reflexivity|].
  split; [apply Houtput; reflexivity|].
  apply Hquery; reflexivity.
Defined.

(** *** Bulk scrape *)

Lemma scrape_body_response total items :
  scrape_body (scrape_response total items)
  = mkAttempt items (Some (PInt total)) None.
Proof. reflexivity. Qed.

(** As long as the transport answers with well-formed batches, empty or
    not, the loop of [_scrape] goes on: every unit of fuel is spent on one
    more request, and the run never finishes. *)
Lemma posts_app tr1 tr2 : posts (tr1 ++ tr2) = (posts tr1 + posts tr2)%nat.
Proof. unfold posts. now rewrite List.filter_app, length_app. Qed.

Lemma posts_cons_post u payload tr : posts (EvPost u payload :: tr) = S (posts tr).
Proof. reflexivity. Qed.

Lemma posts_yields items : posts (map EvYield items) = 0%nat.
Proof. induction items as [|i items IH]; [reflexivity | exact IH]. Qed.

Lemma scrape_loop_goes_on (client_post : Transport) :
  (forall n payload, exists total items,
      client_post n payload = Ok (scrape_response total items)) ->
  forall fuel n self,
    status (scrape_loop fuel client_post n self) = Running
    /\ posts (trace (scrape_loop fuel client_post n self)) = fuel.
Proof.
  intros Hanswers. induction fuel as [|fuel IH]; intros n self; simpl.
  - split; reflexivity.
  - destruct (Hanswers n (params (search_options self))) as (total & items & ->).
    rewrite scrape_body_response. cbn [num_found_set raised yielded status trace].
    destruct (IH (S n) (set_num_found self (PInt total))) as [Hs Hp].
    split; [exact Hs|].
    now rewrite posts_cons_post, posts_app, posts_yields, Hp.
Qed.

(** A run that has finished does not depend on the fuel left over. *)
Lemma scrape_loop_fuel (client_post : Transport) fuel :
  forall n self,
    status (scrape_loop fuel client_post n self) = Finished ->
    forall extra,
      scrape_loop (fuel + extra) client_post n self
      = scrape_loop fuel client_post n self.
Proof.
  induction fuel as [|fuel IH]; intros n self Hdone extra; [discriminate|].
  simpl in Hdone |- *.
  destruct (client_post n (params (search_options self))) as [j|e]; [|reflexivity].
  destruct (raised (scrape_body j)); [reflexivity|].
  simpl in Hdone. now rewrite IH.
Qed.

(** C2 (the code departs from the claim): on the transport that answers
    with two non-empty batches and then an empty one, the enumeration does
    not stop at the empty batch; it issues a fourth request, yields the
    items of its answer as well, and ends only when the fifth request
    fails. *)
Theorem scrape_continues_after_empty_batch :
  let r := _scrape 6 two_batches_then_empty (init (plain_options "collection:x")) in
  status r = Finished
  /\ yields (trace r) = [record "a"; record "b"; record "c"; record "d"]
  /\ posts (trace r) = 5%nat.
Proof. vm_compute. repeat split; reflexivity. Qed.

(** *** Full-text scroll *)

(** A response without hits ends the enumeration at once: the request that
    received it is the last event of the run. *)
Lemma fts_stops_on_no_hits (client_post : Transport) n data self json_response :
  client_post n data = Ok json_response ->
  no_hits json_response ->
  forall fuel,
    fts_loop (S fuel) client_post n data self
    = mkRun [EvPost FTS_URL data] self Finished.
Proof.
  intros Hpost [[kvs ->] (hits & Hhits & Hfalsy)] fuel.
  simpl. rewrite Hpost. unfold fts_body.
  unfold response_hits in Hhits. simpl in Hhits |- *.
  rewrite Hhits. now rewrite Hfalsy.
Qed.

Lemma fts_loop_fuel (client_post : Transport) fuel :
  forall n data self,
    status (fts_loop fuel client_post n data self) = Finished ->
    forall extra,
      fts_loop (fuel + extra) client_post n data self
      = fts_loop fuel client_post n data self.
Proof.
  induction fuel as [|fuel IH]; intros n data self Hdone extra; [discriminate|].
  simpl in Hdone |- *.
  destruct (client_post n data) as [j|e].
  - destruct (fts_body data j); try reflexivity; simpl in Hdone; now rewrite IH.
  - simpl in Hdone. now rewrite IH.
Qed.

(** The ["scroll"] entry of the payload is always a [str]: line 173 stores
    [str(False)], so the test [data["scroll"] is False] of line 202 never
    holds and the loop is never left through [break]. *)
Lemma fts_data_scroll (self : t) :
  fts_data self !! "scroll" = Some (PStr "true")
  \/ fts_data self !! "scroll" = Some (PStr "False").
Proof.
  unfold fts_data.
  destruct (params (search_options self) !! "size") as [v|];
    destruct (params (search_options self) !! "scope") as [w|];
    rewrite ?lookup_insert_ne by discriminate;
    rewrite lookup_insert_eq; auto.
Qed.

Lemma fts_body_never_breaks (data : gmap string pyval) json_response s :
  data !! "scroll" = Some (PStr s) ->
  forall hits, fts_body data json_response <> FtsBreak hits.
Proof.
  intros Hs hits. unfold fts_body. rewrite Hs.
  destruct (py_get json_response "error" PNone); [|discriminate].
  destruct (py_get json_response "_scroll_id" PNone); [|discriminate].
  destruct (bind _ _) as [h|]; [|discriminate].
  destruct (truthy h); simpl; discriminate.
Qed.

(** C4 (the code departs from the claim): with a fixed result size
    requested (["size"] among the parameters, scrolling disabled) and a
    transport that has two pages of hits, the loop does not stop after its
    first request; it issues three requests, until a response carries no
    hits. *)
Theorem fts_fixed_size_issues_further_requests :
  let self := init (sized_fts_options "chess") in
  let r := _full_text_search 10 three_pages self in
  fts_data self !! "scroll" = Some (PStr "False")
  /\ status r = Finished
  /\ posts (trace r) = 3%nat
  /\ yields (trace r) = [PList [record "a"]; PList [record "b"]].
Proof. vm_compute. repeat split; reflexivity. Qed.

End SearchFacts.

(** ** The transfer engine *)

Section DownloadFacts.

Import AsyncFile.

Variable client_get : Transport.

Lemma log_as_log_all w ev : log w ev = log_all w [ev].
Proof. reflexivity. Qed.

Lemma log_all_nil w : log_all w [] = w.
Proof. destruct w. unfold log_all. simpl. now rewrite app_nil_r. Qed.

Lemma log_all_app w evs1 evs2 :
  log_all (log_all w evs1) evs2 = log_all w (evs1 ++ evs2).
Proof. unfold log_all. simpl. now rewrite app_assoc. Qed.

Lemma set_retries_same o : set_retries o (retries o) = o.
Proof. now destruct o. Qed.

(** The headers of an attempt depend on the environment through the files
    only, and computing them twice changes nothing. *)
Lemma attempt_headers_fs self o file_path w1 w2 h :
  fs w1 = fs w2 ->
  attempt_headers self o file_path w1 h = attempt_headers self o file_path w2 h.
Proof.
  intros Hfs. unfold attempt_headers, path_exists, st_size. now rewrite Hfs.
Qed.

Lemma attempt_headers_idem self o file_path w h :
  attempt_headers self o file_path w (attempt_headers self o file_path w h)
  = attempt_headers self o file_path w h.
Proof.
  unfold attempt_headers.
  destruct (negb (return_responses o) && await (path_exists w file_path));
    [|reflexivity].
  now destruct (negb (st_size w file_path =? size self)
                && negb (checksum o || ledger_truthy (checksum_archive o))).
Qed.

(** *** Directories and files in each other's way *)

Lemma startswith_append p s : startswith p (p +:+ s) = true.
Proof.
  induction p as [|a p IH]; [reflexivity|].
  rewrite append_cons. cbn [startswith]. now rewrite Ascii.eqb_refl.
Qed.

Lemma startswith_split p s : startswith p s = true -> exists t, s = p +:+ t.
Proof.
  revert s. induction p as [|a p IH]; intros s H.
  - now exists s.
  - destruct s as [|b s]; [discriminate|]. cbn [startswith] in H.
    apply andb_true_iff in H as [Hab Hp]. apply Ascii.eqb_eq in Hab. subst b.
    destruct (IH s Hp) as [t ->]. exists t. now rewrite append_cons.
Qed.

Lemma startswith_trans a b c :
  startswith a b = true -> startswith b c = true -> startswith a c = true.
Proof.
  intros Hab Hbc. apply startswith_split in Hab as [t ->].
  apply startswith_split in Hbc as [u ->].
  rewrite append_assoc. apply startswith_append.
Qed.

(** No path lies beneath itself. *)
Lemma not_beneath_itself p : startswith (p +:+ "/") p = false.
Proof.
  destruct (startswith (p +:+ "/") p) eqn:E; [|reflexivity].
  apply startswith_split in E as [t Ht].
  apply (f_equal String.length) in Ht. rewrite !length_append in Ht.
  cbn [String.length] in Ht. lia.
Qed.

Lemma holds_files_true (fs : gmap string string) p :
  holds_files fs p = true
  <-> exists k v, fs !! k = Some v /\ startswith (p +:+ "/") k = true.
Proof.
  unfold holds_files. rewrite existsb_exists. split.
  - intros ([k v] & Hin & Hk). exists k, v. split; [|exact Hk].
    apply elem_of_map_to_list. now apply list_elem_of_In.
  - intros (k & v & Hk & Hp). exists (k, v). split; [|exact Hp].
    apply list_elem_of_In. now apply elem_of_map_to_list.
Qed.

Lemma makedirs_stop_none (fs : gmap string string) heads :
  makedirs_stop fs heads = None
  <-> forall p, In p heads -> in_the_way fs p = false.
Proof.
  induction heads as [|p rest IH]; cbn [makedirs_stop].
  - split; [intros _ p [] | reflexivity].
  - destruct (in_the_way fs p) eqn:E.
    + split; [discriminate|]. intros H. rewrite (H p) in E by now left.
      discriminate.
    + rewrite IH. split.
      * intros H q [<-|Hq]; [exact E | now apply H].
      * intros H q Hq. apply H. now right.
Qed.

(** Every path that [os.makedirs] may have to make for [name] is [name]
    or has [name] beneath it. *)
Lemma heads_from_beneath rest :
  forall seen p,
    In p (heads_from seen rest) ->
    p = seen +:+ rest \/ startswith (p +:+ "/") (seen +:+ rest) = true.
Proof.
  induction rest as [|c rest IH]; intros seen p Hin; cbn [heads_from] in Hin.
  - rewrite append_empty_r. destruct (is_head seen); [|destruct Hin].
    destruct Hin as [<-|[]]. now left.
  - apply in_app_or in Hin as [Hin|Hin].
    + destruct (Ascii.eqb c slash && is_head seen) eqn:E; [|destruct Hin].
      destruct Hin as [<-|[]]. apply andb_true_iff in E as [Hc _].
      apply Ascii.eqb_eq in Hc. subst c. right.
      change (String slash rest) with ("/" +:+ rest).
      rewrite <- append_assoc. apply startswith_append.
    + apply IH in Hin. rewrite append_assoc in Hin. exact Hin.
Qed.

Lemma heads_from_is_head rest :
  forall seen p, In p (heads_from seen rest) -> is_head p = true.
Proof.
  induction rest as [|c rest IH]; intros seen p Hin; cbn [heads_from] in Hin.
  - destruct (is_head seen) eqn:E; [|destruct Hin]. now destruct Hin as [<-|[]].
  - apply in_app_or in Hin as [Hin|Hin]; [|now apply IH in Hin].
    destruct (Ascii.eqb c slash && is_head seen) eqn:E; [|destruct Hin].
    destruct Hin as [<-|[]]. now apply andb_true_iff in E as [_ E].
Qed.

(** [dir_prefix] is a prefix that is empty or ends in a slash, and
    stripping the slashes at the end of such a string takes at least one
    off. *)
Lemma dir_prefix_startswith p : startswith (dir_prefix p) p = true.
Proof.
  induction p as [|c p IH]; [reflexivity|]. cbn [dir_prefix].
  destruct (dir_prefix p) as [|d r].
  - destruct (Ascii.eqb c slash) eqn:Ec; [|reflexivity].
    apply Ascii.eqb_eq in Ec. subst c. reflexivity.
  - cbn [startswith]. now rewrite Ascii.eqb_refl.
Qed.

Lemma dir_prefix_ends p :
  dir_prefix p = EmptyString \/ endswith_slash (dir_prefix p) = true.
Proof.
  induction p as [|c p IH]; [now left|]. cbn [dir_prefix].
  destruct (dir_prefix p) as [|d r] eqn:E.
  - destruct (Ascii.eqb c slash) eqn:Ec; [right | now left].
    cbn. exact Ec.
  - right. destruct IH as [IH|IH]; [discriminate|]. exact IH.
Qed.

Lemma rstrip_slash_beneath s :
  endswith_slash s = true ->
  rstrip slash s = EmptyString \/ startswith (rstrip slash s +:+ "/") s = true.
Proof.
  induction s as [|a s IH]; [discriminate|]. intros Hend. cbn [rstrip].
  destruct s as [|b s].
  - cbn in Hend. cbn [rstrip]. rewrite Hend. now left.
  - specialize (IH Hend). destruct (rstrip slash (String b s)) as [|x r] eqn:E.
    + destruct (Ascii.eqb a slash) eqn:Ea; [now left|]. right.
      rewrite append_cons, append_nil. cbn [startswith].
      rewrite Ascii.eqb_refl. cbn [andb].
      assert (Hb : Ascii.eqb b slash = true).
      { cbn [rstrip] in E. destruct (rstrip slash s); [|discriminate].
        destruct (Ascii.eqb b slash); [reflexivity | discriminate]. }
      apply Ascii.eqb_eq in Hb. subst b. cbn. reflexivity.
    + right. destruct IH as [IH|IH]; [discriminate|].
      rewrite append_cons. cbn [startswith]. rewrite Ascii.eqb_refl. exact IH.
Qed.

Lemma is_head_not_all_slashes p : is_head p = true -> all_slashes p = false.
Proof.
  unfold is_head. intros H. apply andb_true_iff in H as [Ht He].
  apply negb_true_iff in He.
  induction p as [|a p IH]; [discriminate|]. cbn [all_slashes].
  destruct (Ascii.eqb a slash) eqn:Ea; [|reflexivity]. cbn [andb].
  destruct p as [|b p]; [cbn in He; congruence|]. apply IH; [reflexivity|exact He].
Qed.

Lemma all_slashes_lstrip_empty s :
  lstrip slash s = EmptyString -> all_slashes s = true.
Proof.
  induction s as [|a s IH]; [reflexivity|]. cbn [lstrip all_slashes].
  destruct (Ascii.eqb a slash); [exact IH | discriminate].
Qed.

(** The destination lies beneath every path that [os.makedirs] may have to
    make for its parent directory. *)
Lemma dirname_heads_beneath file_path p :
  In p (makedirs_heads (dirname file_path)) ->
  startswith (p +:+ "/") file_path = true.
Proof.
  intros Hin. pose proof (heads_from_is_head _ _ _ Hin) as Hhead.
  apply heads_from_beneath in Hin. rewrite append_nil in Hin.
  pose proof (dir_prefix_startswith file_path) as Hpre.
  unfold dirname in Hin |- *.
  destruct (str_truthy (dir_prefix file_path)
            && str_truthy (lstrip slash (dir_prefix file_path))) eqn:E.
  - apply andb_true_iff in E as [Ht _].
    destruct (dir_prefix_ends file_path) as [He|He];
      [rewrite He in Ht; discriminate|].
    destruct (rstrip_slash_beneath _ He) as [Hr|Hr].
    + rewrite Hr in Hin. destruct Hin as [->|Hin]; [discriminate|].
      destruct p; discriminate.
    + destruct Hin as [->|Hin].
      * eapply startswith_trans; [exact Hr | exact Hpre].
      * eapply startswith_trans; [exact Hin|].
        eapply startswith_trans; [|exact Hpre].
        apply startswith_split in Hr as [t Ht']. rewrite Ht' at 2.
        rewrite append_assoc. apply startswith_append.
  - destruct Hin as [->|Hin].
    + apply is_head_not_all_slashes in Hhead.
      apply andb_false_iff in E as [E|E].
      * destruct (dir_prefix file_path); discriminate.
      * destruct (lstrip slash (dir_prefix file_path)) eqn:El; [|discriminate].
        apply all_slashes_lstrip_empty in El. congruence.
    + eapply startswith_trans; [exact Hin | exact Hpre].
Qed.

(** With the destination on disk, its parent directory is there and the
    destination can be opened. *)
Lemma makedirs_existing (fs : gmap string string) file_path content :
  fs !! file_path = Some content ->
  makedirs_error fs (dirname file_path) = None.
Proof.
  intros Hfs. apply makedirs_stop_none. intros p Hp.
  unfold in_the_way. apply andb_false_iff. right. apply negb_false_iff.
  apply holds_files_true. exists file_path, content. split; [exact Hfs|].
  now apply dirname_heads_beneath.
Qed.

Lemma open_error_existing (fs : gmap string string) file_path content :
  fs !! file_path = Some content -> open_error fs file_path = None.
Proof.
  intros Hfs. unfold open_error.
  rewrite bool_decide_eq_true_2; [reflexivity | now exists content].
Qed.

Lemma makedirs_error_empty (fs : gmap string string) :
  makedirs_error fs EmptyString = None.
Proof. reflexivity. Qed.

Lemma grows_at_refl path (fs : gmap string string) : grows_at path fs fs.
Proof. split; auto. Qed.

Lemma grows_at_trans path (fs1 fs2 fs3 : gmap string string) :
  grows_at path fs1 fs2 -> grows_at path fs2 fs3 -> grows_at path fs1 fs3.
Proof.
  intros [H1 H1'] [H2 H2']. split.
  - intros k Hk. now rewrite H2, H1.
  - auto.
Qed.

Lemma grows_at_insert path (fs : gmap string string) x :
  grows_at path fs (<[path := x]> fs).
Proof.
  split.
  - intros k Hk. now apply lookup_insert_ne.
  - intros _. rewrite lookup_insert_eq. now eexists.
Qed.

Lemma holds_files_grows file_path (fs fs' : gmap string string) p :
  grows_at file_path fs fs' ->
  holds_files fs p = true -> holds_files fs' p = true.
Proof.
  intros [Hother Hat] H. apply holds_files_true in H as (k & v & Hk & Hp).
  apply holds_files_true. destruct (decide (k = file_path)) as [->|Hne].
  - destruct (Hat (ex_intro _ v Hk)) as [v' Hv']. now exists file_path, v'.
  - exists k, v. split; [|exact Hp]. now rewrite Hother.
Qed.

(** What the call writes, it writes at the destination: the parent
    directory stays free, and so does the destination. *)
Lemma makedirs_error_grows file_path (fs fs' : gmap string string) :
  grows_at file_path fs fs' ->
  makedirs_error fs (dirname file_path) = None ->
  makedirs_error fs' (dirname file_path) = None.
Proof.
  intros Hgrows Hfree. unfold makedirs_error in *.
  rewrite makedirs_stop_none in Hfree |- *. intros p Hp.
  specialize (Hfree p Hp). pose proof (dirname_heads_beneath _ _ Hp) as Hbeneath.
  unfold in_the_way in *. apply andb_false_iff in Hfree as [Hfile|Hdir].
  - apply andb_false_iff. left.
    assert (Hne : p <> file_path).
    { intros ->. rewrite not_beneath_itself in Hbeneath. discriminate. }
    destruct Hgrows as [Hother _]. now rewrite (Hother p Hne).
  - apply andb_false_iff. right. apply negb_false_iff in Hdir.
    apply negb_false_iff. now apply (holds_files_grows file_path fs fs').
Qed.

Lemma open_error_grows file_path (fs fs' : gmap string string) :
  grows_at file_path fs fs' ->
  open_error fs file_path = None ->
  open_error fs' file_path = None.
Proof.
  intros [Hother Hat] Hfree. unfold open_error in *.
  destruct (bool_decide (is_Some (fs' !! file_path))) eqn:E'; [reflexivity|].
  apply bool_decide_eq_false in E'.
  destruct (bool_decide (is_Some (fs !! file_path))) eqn:E.
  { apply bool_decide_eq_true in E. now apply Hat in E. }
  destruct (negb (str_truthy file_path)); [discriminate|].
  destruct (names_directory file_path); [discriminate|]. cbn [orb] in *.
  destruct (holds_files fs file_path) eqn:Eh; [discriminate|].
  destruct (holds_files fs' file_path) eqn:Eh'; [|reflexivity].
  apply holds_files_true in Eh' as (k & v & Hk & Hp).
  assert (Hne : k <> file_path).
  { intros ->. rewrite not_beneath_itself in Hp. discriminate. }
  rewrite (Hother k Hne) in Hk.
  assert (holds_files fs file_path = true)
    by (apply holds_files_true; now exists k, v).
  congruence.
Qed.

Lemma parent_free_grows o file_path (fs fs' : gmap string string) :
  grows_at file_path fs fs' ->
  parent_free o fs (dirname file_path) -> parent_free o fs' (dirname file_path).
Proof.
  intros Hgrows [Hrr|Hfree]; [now left | right].
  now apply (makedirs_error_grows file_path fs fs').
Qed.

Lemma destination_free_grows o file_path (fs fs' : gmap string string) :
  grows_at file_path fs fs' ->
  destination_free o fs file_path -> destination_free o fs' file_path.
Proof.
  intros Hgrows [Hrr|[Hparent Hopen]]; [now left | right]. split.
  - now apply (makedirs_error_grows file_path fs fs').
  - destruct Hopen as [Hsink|Hopen]; [now left | right].
    now apply (open_error_grows file_path fs fs').
Qed.

Lemma destination_free_parent o (fs : gmap string string) file_path :
  destination_free o fs file_path -> parent_free o fs (dirname file_path).
Proof. intros [Hrr|[Hparent _]]; [now left | now right]. Qed.

Lemma existing_destination_free o (fs : gmap string string) file_path content :
  fs !! file_path = Some content -> destination_free o fs file_path.
Proof.
  intros Hfs. right. split.
  - now apply (makedirs_existing fs file_path content).
  - right. now apply (open_error_existing fs file_path content).
Qed.

(** *** One pass *)

Lemma with_parent_fs o parent_dir w : fs (with_parent o parent_dir w) = fs w.
Proof. unfold with_parent. now destruct (_ && _). Qed.

Lemma with_parent_bufs o parent_dir w :
  stdout_buf (with_parent o parent_dir w) = stdout_buf w
  /\ fileobj_buf (with_parent o parent_dir w) = fileobj_buf w.
Proof. unfold with_parent. now destruct (_ && _). Qed.

Lemma with_parent_events o parent_dir w req :
  events (with_parent o parent_dir w) ++ [EvGet req]
  = events w ++ pass_events o parent_dir req.
Proof.
  unfold with_parent, pass_events. destruct (_ && _); simpl; [|reflexivity].
  now rewrite <- app_assoc.
Qed.

(** A pass whose parent directory is free goes on to the transfer; a pass
    whose parent directory is not ends at [os.makedirs], with nothing
    done. *)
Lemma attempt_reaches self o file_path parent_dir n h w :
  parent_free o (fs w) parent_dir ->
  attempt client_get self o file_path parent_dir n h w
  = attempt_transfer client_get self o file_path n h (with_parent o parent_dir w).
Proof.
  intros Hfree. unfold attempt, with_parent, makedirs.
  destruct (str_truthy parent_dir && negb (return_responses o)) eqn:E;
    [|reflexivity].
  destruct Hfree as [Hrr|Hfree].
  - rewrite Hrr, andb_false_r in E. discriminate.
  - now rewrite Hfree.
Qed.

Lemma attempt_stopped self o file_path parent_dir n h w e :
  return_responses o = false ->
  makedirs_error (fs w) parent_dir = Some e ->
  attempt client_get self o file_path parent_dir n h w = (h, w, AExcept e).
Proof.
  intros Hrr Hstop. unfold attempt, makedirs. rewrite Hrr, Hstop.
  destruct parent_dir; [discriminate | reflexivity].
Qed.

Lemma gets_app evs1 evs2 : gets (evs1 ++ evs2) = (gets evs1 + gets evs2)%nat.
Proof. unfold gets. now rewrite List.filter_app, length_app. Qed.

Lemma sleeps_app evs1 evs2 : sleeps (evs1 ++ evs2) = (sleeps evs1 + sleeps evs2)%nat.
Proof. unfold sleeps. now rewrite List.filter_app, length_app. Qed.

Lemma requests_app evs1 evs2 : requests (evs1 ++ evs2) = requests evs1 ++ requests evs2.
Proof. unfold requests. apply flat_map_app. Qed.

Lemma pass_events_counts o parent_dir req :
  gets (pass_events o parent_dir req) = 1%nat
  /\ sleeps (pass_events o parent_dir req) = 0%nat.
Proof.
  unfold pass_events.
  now destruct (str_truthy parent_dir && negb (return_responses o)).
Qed.

Lemma requests_pass_events o parent_dir req :
  requests (pass_events o parent_dir req) = [req].
Proof.
  unfold pass_events.
  now destruct (str_truthy parent_dir && negb (return_responses o)).
Qed.

Lemma stream_to_events (write : world -> string -> world) resp w :
  (forall w chunk, events (write w chunk) = events w) ->
  events (stream_to write resp w) = events w.
Proof.
  intros Hwrite. unfold stream_to. revert w.
  induction (resp_chunks resp) as [|c cs IH]; intros w; simpl; [reflexivity|].
  now rewrite IH, Hwrite.
Qed.

Lemma stream_to_grows resp file_path w :
  grows_at file_path (fs w)
    (fs (stream_to (fun w chunk => append_file w file_path chunk) resp w)).
Proof.
  unfold stream_to. revert w.
  induction (resp_chunks resp) as [|c cs IH]; intros w; simpl.
  - apply grows_at_refl.
  - eapply grows_at_trans; [|apply IH]. apply grows_at_insert.
Qed.

Lemma stream_to_sink_fs resp w :
  fs (stream_to write_stdout resp w) = fs w
  /\ fs (stream_to write_fileobj resp w) = fs w.
Proof.
  unfold stream_to. revert w.
  induction (resp_chunks resp) as [|c cs IH]; intros w; simpl; [now split|].
  destruct (IH (write_stdout w c)) as [-> _].
  destruct (IH (write_fileobj w c)) as [_ ->]. now split.
Qed.

(** The transfer of a pass logs its request with the headers of lines
    167-176; what it logs after is neither a request nor a sleep; and what
    it writes, it writes at the destination. *)
Lemma attempt_transfer_events self o file_path n h w :
  let h' := attempt_headers self o file_path w h in
  let req := mkRequest (url self) (params o) h' in
  exists w' e post,
    attempt_transfer client_get self o file_path n h w = (h', w', e)
    /\ events w' = events w ++ EvGet req :: post
    /\ requests post = [] /\ gets post = 0%nat /\ sleeps post = 0%nat
    /\ grows_at file_path (fs w) (fs w').
Proof.
  intros h' req. unfold attempt_transfer. fold h'. fold req.
  set (w2 := log w (EvGet req)).
  assert (Hplain : events w2 = events w ++ [EvGet req]
                   /\ grows_at file_path (fs w) (fs w2))
    by (split; [reflexivity | apply grows_at_refl]).
  destruct Hplain as [Hev2 Hfs2].
  destruct (client_get n req) as [resp|exc].
  2:{ exists w2, (AExcept exc), []. repeat split; auto; apply Hfs2. }
  destruct (400 <=? resp_status resp).
  { eexists w2, _, []. repeat split; auto; apply Hfs2. }
  destruct (return_responses o).
  { eexists w2, _, []. repeat split; auto; apply Hfs2. }
  destruct (stdout o || fileobj o).
  { set (ws := if stdout o then stream_to write_stdout resp w2
               else stream_to write_fileobj resp w2).
    assert (Hev : events ws = events w2)
      by (unfold ws; destruct (stdout o); now apply stream_to_events).
    assert (Hfs : fs ws = fs w).
    { unfold ws. destruct (stream_to_sink_fs resp w2) as [H1 H2].
      destruct (stdout o); [exact H1 | exact H2]. }
    destruct (resp_stream_error resp);
      eexists ws, _, []; rewrite Hev, Hfs; repeat split; auto. }
  destruct (open_error (fs w2) file_path).
  { eexists w2, _, []. repeat split; auto; apply Hfs2. }
  set (w3 := if bool_decide (is_Some (h' !! "Range")) then w2
             else open_truncate w2 file_path).
  assert (Hw3 : events w3 = events w2 /\ grows_at file_path (fs w) (fs w3)).
  { unfold w3. destruct (bool_decide _); [now split|].
    split; [reflexivity | apply grows_at_insert]. }
  destruct Hw3 as [Hev3 Hfs3].
  set (ws := stream_to (fun w chunk => append_file w file_path chunk) resp w3).
  assert (Hev : events ws = events w2)
    by (unfold ws; rewrite <- Hev3; now apply stream_to_events).
  assert (Hfs : grows_at file_path (fs w) (fs ws)).
  { eapply grows_at_trans; [exact Hfs3 | apply stream_to_grows]. }
  destruct (resp_stream_error resp).
  { eexists ws, _, []. rewrite Hev. repeat split; auto; apply Hfs. }
  destruct (no_change_timestamp o); cbn [negb].
  - eexists ws, _, []. rewrite Hev. repeat split; auto; apply Hfs.
  - eexists _, _, [EvUtime file_path _]. split; [reflexivity|].
    cbn [events log fs]. rewrite Hev, Hev2, <- app_assoc.
    repeat split; auto; apply Hfs.
Qed.

Lemma attempt_events self o file_path parent_dir n h w :
  parent_free o (fs w) parent_dir ->
  let h' := attempt_headers self o file_path w h in
  let req := mkRequest (url self) (params o) h' in
  exists w' e post,
    attempt client_get self o file_path parent_dir n h w = (h', w', e)
    /\ events w' = events w ++ pass_events o parent_dir req ++ post
    /\ requests post = [] /\ gets post = 0%nat /\ sleeps post = 0%nat
    /\ grows_at file_path (fs w) (fs w').
Proof.
  intros Hfree h' req. rewrite (attempt_reaches _ _ _ _ _ _ _ Hfree).
  destruct (attempt_transfer_events self o file_path n h
              (with_parent o parent_dir w))
    as (w' & e & post & Hatt & Hev & Hreq & Hg & Hs & Hfs).
  rewrite (attempt_headers_fs self o file_path _ w h (with_parent_fs _ _ _))
    in Hatt, Hev.
  fold h' in Hatt, Hev. fold req in Hev.
  exists w', e, post. split; [exact Hatt|]. split.
  - rewrite Hev. change (EvGet req :: post) with ([EvGet req] ++ post).
    rewrite (app_assoc (events (with_parent o parent_dir w))).
    rewrite with_parent_events. symmetry. apply app_assoc.
  - rewrite with_parent_fs in Hfs.
    split; [exact Hreq|]. split; [exact Hg|]. split; [exact Hs | exact Hfs].
Qed.

(** *** The retry loop against a transport that always fails *)

(** A pass that fails at the transport level makes its one request and
    enters the [except] clause with the failure. *)
Lemma attempt_fails self o file_path n h w :
  let h' := attempt_headers self o file_path w h in
  let req := mkRequest (url self) (params o) h' in
  fails o (client_get n req) ->
  destination_free o (fs w) file_path ->
  exists w' pass,
    attempt client_get self o file_path (dirname file_path) n h w
    = (h', w', AExcept (failure_of (client_get n req)))
    /\ events w' = events w ++ pass
    /\ pass = pass_events o (dirname file_path) req
    /\ grows_at file_path (fs w) (fs w').
Proof.
  intros h' req Hfail Hfree.
  pose proof (destination_free_parent _ _ _ Hfree) as Hparent.
  rewrite (attempt_reaches _ _ _ _ _ _ _ Hparent).
  set (w1 := with_parent o (dirname file_path) w).
  assert (Hfs1 : fs w1 = fs w) by apply with_parent_fs.
  unfold attempt_transfer.
  rewrite (attempt_headers_fs self o file_path w1 w h Hfs1).
  fold h'. fold req.
  set (w2 := log w1 (EvGet req)).
  assert (Hev2 : events w2 = events w ++ pass_events o (dirname file_path) req)
    by apply with_parent_events.
  assert (Hfs2 : grows_at file_path (fs w) (fs w2)).
  { change (fs w2) with (fs w1). rewrite Hfs1. apply grows_at_refl. }
  unfold fails in Hfail. unfold failure_of.
  destruct (client_get n req) as [resp|exc].
  2:{ exists w2, (pass_events o (dirname file_path) req).
    split; [reflexivity|]. split; [exact Hev2|].
    split; [reflexivity | exact Hfs2]. }
  destruct (400 <=? resp_status resp) eqn:Estatus.
  { exists w2, (pass_events o (dirname file_path) req).
    split; [reflexivity|]. split; [exact Hev2|].
    split; [reflexivity | exact Hfs2]. }
  apply Z.leb_gt in Estatus.
  destruct Hfail as [Hfail|[Hrr Hstream]]; [lia|].
  rewrite Hrr.
  destruct (resp_stream_error resp) as [exc|] eqn:Eexc; [|congruence].
  cbn [default from_option id].
  destruct (stdout o || fileobj o) eqn:Esink.
  { set (ws := if stdout o then stream_to write_stdout resp w2
               else stream_to write_fileobj resp w2).
    assert (Hev : events ws = events w2)
      by (unfold ws; destruct (stdout o); now apply stream_to_events).
    assert (Hfs : fs ws = fs w).
    { unfold ws. destruct (stream_to_sink_fs resp w2) as [H1 H2].
      destruct (stdout o); [rewrite H1 | rewrite H2]; exact Hfs1. }
    exists ws, (pass_events o (dirname file_path) req).
    rewrite Hev, Hfs. split; [reflexivity|]. split; [exact Hev2|].
    split; [reflexivity | apply grows_at_refl]. }
  assert (Hopen : open_error (fs w2) file_path = None).
  { change (fs w2) with (fs w1). rewrite Hfs1.
    destruct Hfree as [Hfree|[_ [Hfree|Hfree]]]; [congruence | congruence | exact Hfree]. }
  rewrite Hopen.
  set (w3 := if bool_decide (is_Some (h' !! "Range")) then w2
             else open_truncate w2 file_path).
  assert (Hw3 : events w3 = events w2 /\ grows_at file_path (fs w) (fs w3)).
  { unfold w3. destruct (bool_decide _); [now split|].
    split; [reflexivity|].
    eapply grows_at_trans; [exact Hfs2 | apply grows_at_insert]. }
  destruct Hw3 as [Hev3 Hfs3].
  set (ws := stream_to (fun w chunk => append_file w file_path chunk) resp w3).
  exists ws, (pass_events o (dirname file_path) req).
  split; [reflexivity|]. split.
  - unfold ws. rewrite stream_to_events by reflexivity. now rewrite Hev3.
  - split; [reflexivity|].
    eapply grows_at_trans; [exact Hfs3 | apply stream_to_grows].
Qed.

Lemma with_sleeps_cons delay pass pass' rest :
  with_sleeps delay (pass :: pass' :: rest)
  = pass ++ [EvSleep delay] ++ with_sleeps delay (pass' :: rest).
Proof. reflexivity. Qed.

Lemma with_sleeps_counts o parent_dir delay passes :
  Forall (request_only o parent_dir) passes ->
  gets (with_sleeps delay passes) = length passes
  /\ sleeps (with_sleeps delay passes) = Nat.pred (length passes).
Proof.
  induction 1 as [|pass passes [req ->] Hrest [IHg IHs]]; [now split|].
  destruct (pass_events_counts o parent_dir req) as [Hg Hs].
  destruct passes as [|pass' rest].
  - cbn [with_sleeps length Nat.pred]. now split.
  - rewrite with_sleeps_cons, !gets_app, !sleeps_app, Hg, Hs, IHg, IHs.
    cbn [length Nat.pred]. split; reflexivity.
Qed.

(** With a transport that always fails, the loop makes one pass for each
    unit of the retry budget and one more, and ends with the failure of
    the last pass. *)
Lemma retry_loop_always_fails self file_path :
  forall k n h o w,
    always_fails o client_get ->
    retries o = Z.of_nat k ->
    destination_free o (fs w) file_path ->
    exists w' passes req,
      retry_loop client_get (S k) self file_path (dirname file_path) n h o w
      = Some (w', set_retries o 0,
              if ignore_errors o then Returned RFalse
              else Raised (failure_of (client_get (n + k)%nat req)))
      /\ events w' = events w ++ with_sleeps (retries_sleep o) passes
      /\ length passes = S k
      /\ Forall (request_only o (dirname file_path)) passes
      /\ last (requests (with_sleeps (retries_sleep o) passes)) = Some req.
Proof.
  induction k as [|k IH]; intros n h o w Hfails Hk Hfree.
  - destruct (attempt_fails self o file_path n h w (Hfails _ _) Hfree)
      as (w1 & pass & Hatt & Hev & Hpass & _).
    cbn [retry_loop]. rewrite Hatt.
    assert (Hnot : (0 <? retries o) = false) by (apply Z.ltb_ge; lia).
    assert (Ho : set_retries o 0 = o)
      by (rewrite <- (set_retries_same o) at 2; f_equal; lia).
    rewrite Hnot, Ho, Nat.add_0_r.
    exists w1, [pass]. eexists. split; [now destruct (ignore_errors o)|].
    split; [exact Hev|]. split; [reflexivity|].
    split; [repeat constructor; eexists; exact Hpass|].
    cbn [with_sleeps]. now rewrite Hpass, requests_pass_events.
  - destruct (attempt_fails self o file_path n h w (Hfails _ _) Hfree)
      as (w1 & pass & Hatt & Hev & Hpass & Hgrows).
    change (retry_loop client_get (S (S k)) self file_path (dirname file_path) n h o w)
      with (let '(headers, w', e) :=
              attempt client_get self o file_path (dirname file_path) n h w in
            match e with
            | AReturn v => Some (w', o, Returned v)
            | ABreak => Some (w', o, Returned RTrue)
            | AExcept exc =>
                if 0 <? retries o then
                  retry_loop client_get (S k) self file_path (dirname file_path)
                    (S n) headers
                    (set_retries o (retries o - 1))
                    (log w' (EvSleep (retries_sleep (set_retries o (retries o - 1)))))
                else if ignore_errors o then Some (w', o, Returned RFalse)
                else Some (w', o, Raised exc)
            end).
    rewrite Hatt. cbv beta iota zeta.
    assert (Hpos : (0 <? retries o) = true) by (apply Z.ltb_lt; lia).
    rewrite Hpos.
    set (o1 := set_retries o (retries o - 1)).
    set (w2 := log w1 (EvSleep (retries_sleep o1))).
    destruct (IH (S n) (attempt_headers self o file_path w h) o1 w2)
      as (w' & passes & req & Hrun & Hev' & Hlen & Hall & Hlast).
    + exact Hfails.
    + unfold o1. cbn [retries set_retries]. lia.
    + change (fs w2) with (fs w1).
      apply (destination_free_grows o file_path (fs w) (fs w1) Hgrows Hfree).
    + exists w', (pass :: passes), req.
      replace (n + S k)%nat with (S n + k)%nat by lia.
      split; [exact Hrun|].
      destruct passes as [|pass' rest]; [discriminate|].
      rewrite with_sleeps_cons. split.
      * rewrite Hev'. cbn [events w2 log]. rewrite Hev, <- !app_assoc. reflexivity.
      * split; [change (S (length (pass' :: rest)) = S (S k)); now rewrite Hlen|].
        split; [constructor; [eexists; exact Hpass | exact Hall]|].
        rewrite !requests_app, !last_app.
        change (retries_sleep o1) with (retries_sleep o) in Hlast.
        now rewrite Hlast.
Qed.

(** The checks before the loop never change the environment when they let
    the call go on. *)
Lemma ledger_check_proceeds o file_path w w' :
  ledger_check o file_path w = Proceed w' -> w' = w.
Proof.
  unfold ledger_check. destruct (ledger_truthy (checksum_archive o)).
  - simpl. destruct (fs w !! CHECKSUM_ARCHIVE_FILENAME) as [text|]; [|discriminate].
    destruct (negb (utf8_valid text)); [discriminate|].
    destruct (str_in _ _); [discriminate|]. now intros [= <-].
  - now intros [= <-].
Qed.

Lemma existing_check_proceeds self o file_path w w' :
  existing_check self o file_path w = Proceed w' -> w' = w.
Proof.
  unfold existing_check. destruct (ignore_existing o); [discriminate|].
  destruct (checksum o || ledger_truthy (checksum_archive o)).
  - destruct (fs w !! file_path); [|discriminate]. simpl. now intros [= <-].
  - now intros [= <-].
Qed.

Lemma skip_checks_proceeds self o file_path w w' :
  skip_checks self o file_path w = Proceed w' -> w' = w.
Proof.
  unfold skip_checks.
  destruct (negb (return_responses o) && _); [|now intros [= <-]].
  destruct (ledger_check o file_path w) as [|w1] eqn:E; [discriminate|].
  apply ledger_check_proceeds in E. subst w1. apply existing_check_proceeds.
Qed.

(** C1: when the call reaches the transfer loop, nothing on disk is in
    the way of the parent directory or of the destination, and every
    attempt fails at the transport level (the request raises, the status
    is 400 or more, or the body stream breaks off), a retry budget of [N]
    gives exactly [N] retries: the events are [N + 1] passes, each of them
    one request (after the creation of the parent directory, where there is
    one), with the configured sleep after every pass but the last;
    the budget ends at 0; and the call then returns [False] (the Failed
    outcome) when [ignore_errors] is set and raises the error of the last
    attempt otherwise. *)
Theorem download_exhausts_retry_budget self o w file_path w0 :
  always_fails o client_get ->
  0 <= retries o ->
  resolve_path w self o = Ok file_path ->
  skip_checks self o file_path w = Proceed w0 ->
  destination_free o (fs w) file_path ->
  let N := Z.to_nat (retries o) in
  exists w' passes req,
    download client_get self o w
    = Some (w', set_retries o 0,
            if ignore_errors o then Returned RFalse
            else Raised (failure_of (client_get N req)))
    /\ events w' = events w ++ with_sleeps (retries_sleep o) passes
    /\ length passes = S N
    /\ Forall (request_only o (dirname file_path)) passes
    /\ last (requests (with_sleeps (retries_sleep o) passes)) = Some req
    /\ gets (with_sleeps (retries_sleep o) passes) = S N
    /\ sleeps (with_sleeps (retries_sleep o) passes) = N.
Proof.
  intros Hfails Hpos Hpath Hskip Hfree N.
  pose proof (skip_checks_proceeds _ _ _ _ _ Hskip) as ->.
  destruct (retry_loop_always_fails self file_path N 0%nat ∅ o w Hfails)
    as (w' & passes & req & Hrun & Hev & Hlen & Hall & Hlast).
  { symmetry. apply Z2Nat.id. exact Hpos. }
  { exact Hfree. }
  exists w', passes, req. unfold download. rewrite Hpath, Hskip.
  split; [exact Hrun|]. split; [exact Hev|]. split; [exact Hlen|].
  split; [exact Hall|]. split; [exact Hlast|].
  destruct (with_sleeps_counts o (dirname file_path) (retries_sleep o) passes Hall)
    as [Hg Hs].
  rewrite Hg, Hs, Hlen. now split.
Qed.

(** *** The first request and the resumed transfer *)

Lemma concat_chunks_from acc chunks :
  fold_left (fun acc chunk => acc +:+ chunk) chunks acc
  = acc +:+ concat_chunks chunks.
Proof.
  unfold concat_chunks. revert acc.
  induction chunks as [|c cs IH]; intros acc; simpl.
  - now rewrite append_empty_r.
  - rewrite append_nil, IH, (IH c). now rewrite append_assoc.
Qed.

(** Appending the chunks of a body one by one appends the body. *)
Lemma stream_to_file resp file_path w old :
  fs w !! file_path = Some old ->
  fs (stream_to (fun w chunk => append_file w file_path chunk) resp w)
  = <[file_path := old +:+ concat_chunks (resp_chunks resp)]> (fs w).
Proof.
  unfold stream_to. revert w old.
  induction (resp_chunks resp) as [|c cs IH]; intros w old Hold; simpl.
  - unfold concat_chunks. simpl. rewrite append_empty_r.
    symmetry. now apply insert_id.
  - rewrite (IH _ (old +:+ c)).
    + unfold append_file, set_fs. simpl. rewrite Hold. simpl.
      rewrite insert_insert_eq. f_equal.
      unfold concat_chunks. simpl. rewrite append_nil, (concat_chunks_from c cs).
      now rewrite append_assoc.
    + unfold append_file, set_fs. simpl. rewrite Hold. simpl.
      apply lookup_insert_eq.
Qed.

(** The loop always ends within [retries + 1] passes. *)
Lemma retry_loop_total self file_path parent_dir :
  forall fuel n h o w,
    (Z.to_nat (retries o) < fuel)%nat ->
    exists w' o' out,
      retry_loop client_get fuel self file_path parent_dir n h o w
      = Some (w', o', out).
Proof.
  induction fuel as [|fuel IH]; intros n h o w Hfuel; [lia|].
  cbn [retry_loop].
  destruct (attempt client_get self o file_path parent_dir n h w) as [[h' w1] e].
  destruct e as [v| |exc]; [now eexists _, _, _ | now eexists _, _, _ |].
  destruct (0 <? retries o) eqn:Hpos.
  - apply Z.ltb_lt in Hpos. apply IH. cbn [retries set_retries]. lia.
  - destruct (ignore_errors o); now eexists _, _, _.
Qed.

(** When the parent directory is free, the first request that the loop
    makes is the one of its first pass. *)
Lemma retry_loop_first_request self file_path :
  forall fuel n h o w,
    (Z.to_nat (retries o) < fuel)%nat ->
    parent_free o (fs w) (dirname file_path) ->
    exists w' o' out tail,
      retry_loop client_get fuel self file_path (dirname file_path) n h o w
      = Some (w', o', out)
      /\ requests (events w')
         = requests (events w)
           ++ mkRequest (url self) (params o) (attempt_headers self o file_path w h)
           :: tail.
Proof.
  induction fuel as [|fuel IH]; intros n h o w Hfuel Hfree; [lia|].
  destruct (attempt_events self o file_path (dirname file_path) n h w Hfree)
    as (w1 & e & post & Hatt & Hev & Hpost & _ & _ & Hgrows).
  assert (Hreq : requests (events w1)
                 = requests (events w)
                   ++ [mkRequest (url self) (params o)
                                 (attempt_headers self o file_path w h)]).
  { now rewrite Hev, !requests_app, requests_pass_events, Hpost, app_nil_r. }
  cbn [retry_loop]. rewrite Hatt.
  destruct e as [v| |exc].
  - eexists _, _, _, []. split; [reflexivity | exact Hreq].
  - eexists _, _, _, []. split; [reflexivity | exact Hreq].
  - destruct (0 <? retries o) eqn:Hpos.
    + apply Z.ltb_lt in Hpos.
      edestruct (IH (S n) (attempt_headers self o file_path w h)
                    (set_retries o (retries o - 1))
                    (log w1 (EvSleep (retries_sleep (set_retries o (retries o - 1))))))
        as (w' & o' & out & tail & Hrun & Htail).
      { cbn [retries set_retries]. lia. }
      { change (parent_free o (fs w1) (dirname file_path)).
        now apply (parent_free_grows o file_path (fs w)). }
      eexists _, _, _, _. split; [exact Hrun|].
      rewrite Htail. simpl events. rewrite requests_app, Hreq. simpl.
      rewrite app_nil_r, <- app_assoc. reflexivity.
    + destruct (ignore_errors o);
        eexists _, _, _, []; (split; [reflexivity | exact Hreq]).
Qed.

(** The model of [download] never runs out of fuel. *)
Lemma download_total self o w :
  exists w' o' out, download client_get self o w = Some (w', o', out).
Proof.
  unfold download.
  destruct (resolve_path w self o) as [file_path|e]; [|now eexists _, _, _].
  destruct (skip_checks self o file_path w) as [w1 out|w1]; [now eexists _, _, _|].
  apply retry_loop_total. lia.
Qed.

(** Every pass, not only the first, that finds the destination with a size
    other than the remote one (verification and capture being off) asks
    for the bytes from the local size on. *)
Lemma every_pass_resumes self o file_path w content h :
  fs w !! file_path = Some content ->
  return_responses o = false ->
  checksum o = false ->
  ledger_truthy (checksum_archive o) = false ->
  Z.of_nat (String.length content) <> size self ->
  attempt_headers self o file_path w h
  = range_headers (Z.of_nat (String.length content)).
Proof.
  intros Hfs Hrr Hc Hl Hsize. unfold attempt_headers, path_exists, st_size.
  rewrite Hfs, Hrr, Hc, Hl. simpl.
  now rewrite (proj2 (Z.eqb_neq _ _) Hsize).
Qed.

Lemma first_headers self o file_path w content :
  fs w !! file_path = Some content ->
  let local := Z.of_nat (String.length content) in
  attempt_headers self o file_path w ∅
  = if negb (return_responses o) && negb (local =? size self)
       && negb (checksum o || ledger_truthy (checksum_archive o))
    then range_headers local else ∅.
Proof.
  intros Hfs local. unfold attempt_headers, path_exists, st_size.
  rewrite Hfs. simpl. fold local. destruct (return_responses o); simpl; [reflexivity|].
  now destruct (negb (local =? size self)
                && negb (checksum o || ledger_truthy (checksum_archive o))).
Qed.

(** A pass that resumes and succeeds, with the file system as the sink. *)
Lemma attempt_resume_success self o file_path n h w content resp :
  fs w !! file_path = Some content ->
  let local := Z.of_nat (String.length content) in
  let req := mkRequest (url self) (params o) (range_headers local) in
  attempt_headers self o file_path w h = range_headers local ->
  return_responses o = false -> stdout o = false -> fileobj o = false ->
  client_get n req = Ok resp ->
  resp_status resp < 400 ->
  resp_stream_error resp = None ->
  exists w',
    attempt client_get self o file_path (dirname file_path) n h w
    = (range_headers local, w', AReturn RTrue)
    /\ fs w' = <[file_path := content +:+ concat_chunks (resp_chunks resp)]> (fs w)
    /\ requests (events w') = requests (events w) ++ [req].
Proof.
  intros Hfs local req Hh Hrr Hout Hobj Hget Hstatus Hstream.
  rewrite attempt_reaches
    by (right; now apply (makedirs_existing (fs w) file_path content)).
  set (w1 := with_parent o (dirname file_path) w).
  assert (Hw1 : fs w1 = fs w) by apply with_parent_fs.
  assert (Hr1 : requests (events w1 ++ [EvGet req]) = requests (events w) ++ [req]).
  { unfold w1. now rewrite with_parent_events, requests_app, requests_pass_events. }
  unfold attempt_transfer.
  rewrite (attempt_headers_fs self o file_path w1 w h Hw1), Hh.
  fold req. rewrite Hget.
  assert (Hok : (400 <=? resp_status resp) = false) by (apply Z.leb_gt; lia).
  rewrite Hok, Hrr, Hout, Hobj, Hstream. cbn [orb].
  assert (Hopen : open_error (fs (log w1 (EvGet req))) file_path = None).
  { apply (open_error_existing _ file_path content). cbn [fs log]. now rewrite Hw1. }
  rewrite Hopen.
  assert (Hrange : bool_decide (is_Some (range_headers local !! "Range")) = true).
  { apply bool_decide_eq_true_2. unfold range_headers.
    rewrite lookup_singleton_eq. now eexists. }
  rewrite Hrange.
  set (ws := stream_to (fun w chunk => append_file w file_path chunk) resp
                       (log w1 (EvGet req))).
  assert (Hfs' : fs ws = <[file_path := content +:+ concat_chunks (resp_chunks resp)]> (fs w)).
  { unfold ws. rewrite (stream_to_file resp file_path _ content).
    - simpl. now rewrite Hw1.
    - simpl. now rewrite Hw1. }
  assert (Hev : events ws = events w1 ++ [EvGet req]).
  { unfold ws. now rewrite stream_to_events. }
  eexists. split; [reflexivity|].
  destruct (no_change_timestamp o); simpl.
  - split; [exact Hfs'|]. rewrite Hev. exact Hr1.
  - split; [exact Hfs'|].
    rewrite requests_app, Hev, Hr1. simpl. now rewrite app_nil_r.
Qed.

(** C7 (amended): whenever the call reaches the transfer loop with the
    destination file present, the first request carries
    [Range: bytes=<local-size>-] exactly when the local size differs from
    the remote size, no checksum verification ([checksum] or ledger) is
    active and the raw response is not asked for; otherwise it carries no
    [Range] header. When that range request succeeds with the file system
    as the sink, the body is appended to the local file, whose size is
    then the remote size provided the body has the
    [remote size - local size] missing bytes. *)
Theorem download_first_request_resumes self o w file_path content w0 :
  resolve_path w self o = Ok file_path ->
  fs w !! file_path = Some content ->
  skip_checks self o file_path w = Proceed w0 ->
  let local := Z.of_nat (String.length content) in
  let resume :=
    negb (return_responses o) && negb (local =? size self)
    && negb (checksum o || ledger_truthy (checksum_archive o)) in
  let req := mkRequest (url self) (params o)
                       (if resume then range_headers local else ∅) in
  req_headers req !! "Range"
  = (if resume then Some ("bytes=" +:+ pretty local +:+ "-") else None)
  /\ (exists w' o' out tail,
         download client_get self o w = Some (w', o', out)
         /\ requests (events w') = requests (events w) ++ req :: tail)
  /\ (resume = true -> stdout o = false -> fileobj o = false ->
      forall resp,
        client_get 0%nat req = Ok resp ->
        resp_status resp < 400 ->
        resp_stream_error resp = None ->
        exists w',
          download client_get self o w = Some (w', o, Returned RTrue)
          /\ requests (events w') = requests (events w) ++ [req]
          /\ fs w' !! file_path
             = Some (content +:+ concat_chunks (resp_chunks resp))
          /\ (Z.of_nat (String.length (concat_chunks (resp_chunks resp)))
              = size self - local ->
              st_size w' file_path = size self)).
Proof.
  intros Hpath Hfs Hskip local resume req.
  pose proof (skip_checks_proceeds _ _ _ _ _ Hskip) as ->.
  pose proof (first_headers self o file_path w content Hfs) as Hh.
  cbv zeta in Hh. fold local in Hh. fold resume in Hh.
  split; [|split].
  - unfold req. simpl. destruct resume.
    + unfold range_headers. apply lookup_singleton_eq.
    + apply lookup_empty.
  - unfold download. rewrite Hpath, Hskip.
    destruct (retry_loop_first_request self file_path
                (S (Z.to_nat (retries o))) 0%nat ∅ o w)
      as (w' & o' & out & tail & Hrun & Hreq);
      [lia | right; now apply (makedirs_existing (fs w) file_path content) |].
    exists w', o', out, tail. split; [exact Hrun|].
    rewrite Hreq, Hh. reflexivity.
  - intros Hresume Hout Hobj resp Hget Hstatus Hstream.
    unfold req in Hget. rewrite Hresume in Hget, Hh.
    assert (Hrr : return_responses o = false).
    { unfold resume in Hresume.
      apply andb_true_iff in Hresume as [Hresume _].
      apply andb_true_iff in Hresume as [Hresume _].
      now apply negb_true_iff. }
    destruct (attempt_resume_success self o file_path
                0%nat ∅ w content resp Hfs Hh Hrr Hout Hobj Hget Hstatus Hstream)
      as (w' & Hatt & Hfs' & Hreq).
    exists w'. unfold download. rewrite Hpath, Hskip. simpl. rewrite Hatt.
    split; [reflexivity|]. split; [unfold req; now rewrite Hresume|].
    assert (Hlook : fs w' !! file_path
                    = Some (content +:+ concat_chunks (resp_chunks resp)))
      by (rewrite Hfs'; apply lookup_insert_eq).
    split; [exact Hlook|].
    intros Hlen. unfold st_size. rewrite Hlook. simpl.
    rewrite length_append, Nat2Z.inj_add, Hlen. fold local. lia.
Qed.

(** Unless [ignore_existing] is set, the check of lines 138-159 never ends
    the call with a skip: the comparison of line 147 is between a coroutine
    object and the remote md5. *)
Lemma existing_check_never_skips self o file_path w :
  ignore_existing o = false ->
  existing_check self o file_path w = Proceed w
  \/ existing_check self o file_path w = Done w (Raised (FileNotFoundError file_path)).
Proof.
  intros Hi. unfold existing_check. rewrite Hi.
  destruct (checksum o || ledger_truthy (checksum_archive o)); [|now left].
  destruct (fs w !! file_path); [now left | now right].
Qed.

(** With the destination present and no ledger, the call always reaches
    the transfer loop and issues a request, whatever the digest of the
    destination is: checksum verification never saves a download. *)
Lemma checksum_mode_always_requests self o w file_path content :
  resolve_path w self o = Ok file_path ->
  fs w !! file_path = Some content ->
  return_responses o = false ->
  ignore_existing o = false ->
  ledger_truthy (checksum_archive o) = false ->
  exists w' o' out req tail,
    download client_get self o w = Some (w', o', out)
    /\ requests (events w') = requests (events w) ++ req :: tail.
Proof.
  intros Hpath Hfs Hrr Hi Hl.
  assert (Hskip : skip_checks self o file_path w = Proceed w).
  { unfold skip_checks, ledger_check, existing_check.
    rewrite Hrr, Hl, Hi, Hfs. simpl. now destruct (checksum o). }
  unfold download. rewrite Hpath, Hskip.
  destruct (retry_loop_first_request self file_path
              (S (Z.to_nat (retries o))) 0%nat ∅ o w)
    as (w' & o' & out & tail & Hrun & Hreq);
    [lia | right; now apply (makedirs_existing (fs w) file_path content) |].
  exists w', o', out. eexists _, tail. split; [exact Hrun | exact Hreq].
Qed.

(** *** The lines of the ledger *)

Lemma endswith_LF_snoc cur : endswith_LF (cur +:+ String LF EmptyString) = true.
Proof.
  induction cur as [|c cur IH]; [reflexivity|].
  rewrite append_cons. simpl.
  destruct (cur +:+ String LF EmptyString) eqn:E; [|exact IH].
  destruct cur; discriminate.
Qed.

(** Every line that [readlines] gives for a text ending in a line feed
    ends in a line feed itself. *)
Lemma readlines_from_terminated n :
  forall s cur,
    (String.length s < n)%nat ->
    Forall (fun line => endswith_LF line = true)
           (readlines_from cur (s +:+ LINE_END)).
Proof.
  induction n as [|n IH]; intros s cur Hlen; [lia|].
  destruct s as [|c rest].
  - rewrite append_nil. unfold LINE_END. simpl.
    constructor; [apply endswith_LF_snoc | constructor].
  - rewrite append_cons. simpl in Hlen. cbn [readlines_from].
    destruct (Ascii.eqb c LF).
    { constructor; [apply endswith_LF_snoc | apply IH; lia]. }
    destruct (Ascii.eqb c CR); [|apply IH; lia].
    destruct rest as [|c2 rest'].
    + rewrite append_nil. unfold LINE_END. simpl.
      constructor; [apply endswith_LF_snoc | constructor].
    + rewrite append_cons. simpl in Hlen.
      destruct (Ascii.eqb c2 LF).
      * constructor; [apply endswith_LF_snoc | apply IH; lia].
      * constructor; [apply endswith_LF_snoc|].
        rewrite <- append_cons. apply IH. simpl. lia.
Qed.

(** So a path that does not end in a line feed is never found in a ledger
    whose last line is complete, as every ledger written through
    line 158 is. *)
Lemma ledger_lines_never_match text file_path :
  endswith_LF file_path = false ->
  str_in file_path (readlines (text +:+ LINE_END)) = false.
Proof.
  intros Hpath. unfold readlines, str_in.
  pose proof (readlines_from_terminated (S (String.length text)) text EmptyString
                (Nat.lt_succ_diag_r _)) as Hall.
  induction Hall as [|line lines Hline _ IH]; simpl; [reflexivity|].
  rewrite IH, orb_false_r.
  destruct (String.eqb_spec file_path line) as [->|]; [congruence | reflexivity].
Qed.

(** The ledger file is never created: when it is absent and a ledger is
    requested, the call raises before any request. *)
Lemma missing_ledger_raises self o w file_path :
  return_responses o = false ->
  ledger_truthy (checksum_archive o) = true ->
  fs w !! CHECKSUM_ARCHIVE_FILENAME = None ->
  resolve_path w self o = Ok file_path ->
  download client_get self o w
  = Some (w, o, Raised (FileNotFoundError CHECKSUM_ARCHIVE_FILENAME)).
Proof.
  intros Hr Hl Hfs Hpath. unfold download. rewrite Hpath.
  unfold skip_checks, ledger_check. rewrite Hr, Hl. simpl. now rewrite Hfs.
Qed.

End DownloadFacts.

(** ** Remote file names *)

Section BaseFileFacts.

Import AsyncBaseFile.

Lemma rstrip_cons c a s :
  rstrip c (String a s) = EmptyString \/ exists r, rstrip c (String a s) = String a r.
Proof.
  simpl. destruct (rstrip c s) as [|b r].
  - destruct (Ascii.eqb a c); [now left | right; now eexists].
  - right. now eexists.
Qed.

Lemma lstrip_no_leading_slash s : startswith_slash (lstrip slash s) = false.
Proof.
  induction s as [|a s IH]; simpl; [reflexivity|].
  destruct (Ascii.eqb a slash) eqn:E; [exact IH|]. simpl. exact E.
Qed.

Lemma rstrip_keeps_start s :
  startswith_slash s = false -> startswith_slash (rstrip slash s) = false.
Proof.
  destruct s as [|a s]; intros H; [reflexivity|].
  destruct (rstrip_cons slash a s) as [->|[r ->]]; [reflexivity | exact H].
Qed.

Lemma rstrip_no_trailing_slash s : endswith_slash (rstrip slash s) = false.
Proof.
  induction s as [|a s IH]; simpl; [reflexivity|].
  destruct (rstrip slash s) as [|b r].
  - destruct (Ascii.eqb a slash) eqn:E; simpl; [reflexivity | exact E].
  - exact IH.
Qed.

Lemma rstrip_empty s : rstrip slash s = EmptyString <-> all_slashes s = true.
Proof.
  induction s as [|a s IH]; simpl; [tauto|].
  destruct (rstrip slash s) as [|b r].
  - destruct (Ascii.eqb a slash); simpl.
    + split; intros _; [now apply IH | reflexivity].
    + split; discriminate.
  - split; [discriminate|].
    intros H. apply andb_true_iff in H as [_ H]. apply IH in H. discriminate.
Qed.

Lemma all_slashes_lstrip s : all_slashes (lstrip slash s) = all_slashes s.
Proof.
  induction s as [|a s IH]; simpl; [reflexivity|].
  destruct (Ascii.eqb a slash) eqn:E; simpl; [exact IH | now rewrite E].
Qed.

Lemma normalize_name_strip name : normalize_name name = strip slash name.
Proof. unfold normalize_name. now destruct name. Qed.

(** [setattr] over the items of a dict leaves each attribute with the
    value the dict has for it. *)
Lemma setattr_lookup (kvs : list (string * pyval)) (self : attrs) k :
  fold_left (fun (self : attrs) kv => <[fst kv := snd kv]> self) kvs self !! k
  = match assoc k kvs with
    | Some v => Some v
    | None => self !! k
    end.
Proof.
  revert self. induction kvs as [|[k' v] kvs IH]; intros self; simpl; [reflexivity|].
  rewrite IH. destruct (assoc k kvs); [reflexivity|].
  cbn [fst snd]. unfold attrs in *. rewrite lookup_insert.
  destruct (String.eqb_spec k k') as [->|Hne].
  - now rewrite decide_True.
  - now rewrite decide_False by congruence.
Qed.

Lemma find_file_name name files kvs :
  find_file name files = Ok kvs ->
  kvs = [] \/ assoc "name" kvs = Some (PStr name).
Proof.
  induction files as [|f files IH]; simpl; [intros [= <-]; now left|].
  unfold name_matches.
  destruct f as [ | ? | ? | ? ? | ? | ? | fkvs ]; simpl; try discriminate.
  destruct (assoc "name" fkvs) as [[ | ? | ? | ? ? | s | ? | ? ]|] eqn:E;
    simpl; try exact IH.
  destruct (String.eqb_spec s name) as [->|Hne]; [|exact IH].
  intros [= <-]. now right.
Qed.

(** C9 (amended): the stored name is the name that the file metadata passed
    to the constructor gives, if any, and otherwise the input without its
    leading and trailing slashes. That stripped name starts and ends with
    no slash; it is empty exactly when the input is empty or made of
    slashes only. *)
Theorem init_name_is_stripped item_metadata name file_metadata stored :
  init_name item_metadata name file_metadata = Ok stored ->
  stored
  = Some (default (PStr (strip slash name))
                  (assoc "name" (default [] file_metadata)))
  /\ startswith_slash (strip slash name) = false
  /\ endswith_slash (strip slash name) = false
  /\ (strip slash name = EmptyString <-> all_slashes name = true).
Proof.
  unfold init_name. intros Hname.
  destruct (init item_metadata name file_metadata) as [self|e] eqn:Hinit;
    [|discriminate].
  simpl in Hname. injection Hname as <-.
  split; [|split; [|split]].
  - unfold init in Hinit. rewrite normalize_name_strip in Hinit.
    set (stripped := strip slash name) in *.
    destruct (match default [] file_metadata with
              | [] => _
              | _ :: _ => _
              end) as [meta|e] eqn:Emeta; [|discriminate].
    simpl in Hinit.
    destruct (bind (py_get item_metadata "metadata" (PDict [])) _)
      as [ident|e]; [|discriminate].
    simpl in Hinit. injection Hinit as <-.
    unfold name_of, attrs. rewrite lookup_insert_ne by discriminate.
    rewrite setattr_lookup. unfold attrs.
    rewrite !(lookup_insert_ne _ _ "name") by discriminate.
    rewrite lookup_insert_eq.
    destruct (default [] file_metadata) as [|kv kvs] eqn:Efm.
    + simpl.
      destruct (py_get item_metadata "files" (PList [])) as [files|]; [|discriminate].
      simpl in Emeta. destruct (py_iter files) as [fl|]; [|discriminate].
      simpl in Emeta. apply find_file_name in Emeta as [-> | ->]; reflexivity.
    + injection Emeta as <-. now destruct (assoc "name" (kv :: kvs)).
  - unfold strip. apply rstrip_keeps_start, lstrip_no_leading_slash.
  - unfold strip. apply rstrip_no_trailing_slash.
  - unfold strip. rewrite rstrip_empty. now rewrite all_slashes_lstrip.
Qed.

(** The name [/docs/readme.txt/] is stored without its outer slashes. *)
Lemma init_name_is_stripped_witness :
  init_name (PDict []) "/docs/readme.txt/" None = Ok (Some (PStr "docs/readme.txt"))
  /\ Some (PStr "docs/readme.txt")
     = Some (default (PStr (strip slash "/docs/readme.txt/")) (assoc "name" []))
  /\ startswith_slash (strip slash "/docs/readme.txt/") = false
  /\ endswith_slash (strip slash "/docs/readme.txt/") = false
  /\ (strip slash "/docs/readme.txt/" = EmptyString
      <-> all_slashes "/docs/readme.txt/" = true).
Proof.
  split; [vm_compute; reflexivity|].
  apply (init_name_is_stripped (PDict []) "/docs/readme.txt/" None
                               (Some (PStr "docs/readme.txt"))).
  vm_compute. reflexivity.
Defined.

(** C9 (as stated, refuted): the name ["/"] is stored as the empty name. *)
Lemma init_name_can_be_empty :
  init_name (PDict []) "/" None = Ok (Some (PStr EmptyString)).
Proof. vm_compute. reflexivity. Qed.

End BaseFileFacts.

Section DownloadExamples.

Import AsyncFile.

(** A budget of two retries against a server whose every answer breaks
    off while the body streams: three passes with one request each, a
    sleep of three seconds after the first two, then the error of the
    third. *)
Lemma download_exhausts_retry_budget_witness :
  let self := remote_file 5 None in
  let o := options false false false (LedgerFlag false) 2 in
  let w := world_with [] in
  exists w' passes req,
    download always_drops self o w
    = Some (w', set_retries o 0, Raised (ClientError "connection reset"))
    /\ events w' = events w ++ with_sleeps 3 passes
    /\ length passes = 3%nat
    /\ Forall (request_only o EmptyString) passes
    /\ last (requests (with_sleeps 3 passes)) = Some req
    /\ gets (with_sleeps 3 passes) = 3%nat
    /\ sleeps (with_sleeps 3 passes) = 2%nat.
Proof.
  intros self o w.
  apply (download_exhausts_retry_budget always_drops self o w "a.txt" w).
  - intros n req. right. split; [reflexivity | discriminate].
  - vm_compute. discriminate.
  - reflexivity.
  - reflexivity.
  - right. split; [reflexivity | right; reflexivity].
Defined.

(** The same call run: the second and the third pass find the bytes of
    the pass before and ask for the rest, which the server answers with
    the same two bytes. *)
Lemma always_drops_run :
  let self := remote_file 5 None in
  let o := options false false false (LedgerFlag false) 2 in
  let get := fun h => EvGet (mkRequest "https://archive.org/item/a.txt" None h) in
  download always_drops self o (world_with [])
  = Some (log_all (world_with [("a.txt", "hehehe")])
            [get ∅; EvSleep 3; get {[ "Range" := "bytes=2-" ]}; EvSleep 3;
             get {[ "Range" := "bytes=4-" ]}],
          set_retries o 0,
          Raised (ClientError "connection reset")).
Proof. vm_compute. reflexivity. Qed.

(** The server being down gives the same schedule. *)
Lemma unreachable_run :
  let self := remote_file 5 None in
  let o := options false false false (LedgerFlag false) 2 in
  let get := EvGet (mkRequest "https://archive.org/item/a.txt" None ∅) in
  download unreachable self o (world_with [])
  = Some (log_all (world_with []) [get; EvSleep 3; get; EvSleep 3; get],
          set_retries o 0,
          Raised (ClientError "cannot connect")).
Proof. vm_compute. reflexivity. Qed.

(** [get_md5], when awaited, gives the MD5 digest of the file. *)
Lemma get_md5_hello :
  await (Utils.get_md5 (Utils.mkFileObject "hello" 0%nat))
  = ("5d41402abc4b2a76b9719d911017c592", Utils.mkFileObject "hello" 0%nat).
Proof. vm_compute. reflexivity. Qed.

(** C3 (the code departs from the claim): with checksum verification
    active and a destination file whose MD5 equals the remote md5, the
    call does not return a skip: it requests the whole file again (no
    [Range] header), rewrites the destination and returns [True]. *)
Theorem checksum_match_downloads_again :
  let self := remote_file 5 (Some "5d41402abc4b2a76b9719d911017c592") in
  let o := options false true false (LedgerFlag false) 2 in
  let w := world_with [("a.txt", "hello")] in
  Some (Hashlib.md5_hexdigest "hello") = md5 self
  /\ download (serves "hello") self o w
     = Some (log_all w [EvGet (mkRequest "https://archive.org/item/a.txt" None ∅);
                        EvUtime "a.txt" 0],
             o, Returned RTrue).
Proof. vm_compute. split; reflexivity. Qed.

(** C8 (the code departs from the claim): with the ledger requested and
    the destination path recorded in the ledger file, the call does not
    return a skip. [readlines] keeps the line ends, so the path is not
    among the lines read; the call goes on and requests the file. *)
Theorem ledger_entry_downloads_again :
  let self := remote_file 5 (Some "5d41402abc4b2a76b9719d911017c592") in
  let o := options false false false (LedgerPath CHECKSUM_ARCHIVE_FILENAME) 2 in
  let w := world_with [(CHECKSUM_ARCHIVE_FILENAME, "a.txt" +:+ LINE_END);
                       ("a.txt", "hello")] in
  readlines ("a.txt" +:+ LINE_END) = ["a.txt" +:+ LINE_END]
  /\ str_in "a.txt" (readlines ("a.txt" +:+ LINE_END)) = false
  /\ download (serves "hello") self o w
     = Some (log_all w [EvGet (mkRequest "https://archive.org/item/a.txt" None ∅);
                        EvUtime "a.txt" 0],
             o, Returned RTrue).
Proof. vm_compute. repeat split; reflexivity. Qed.

(** A destination holding the first two of five bytes: the request asks
    for the bytes from 2 on, and the three bytes of the answer complete the
    file. *)
Lemma download_first_request_resumes_witness :
  let self := remote_file 5 None in
  let o := options false false false (LedgerFlag false) 2 in
  let w := world_with [("a.txt", "he")] in
  exists w',
    download (serves "llo") self o w = Some (w', o, Returned RTrue)
    /\ requests (events w')
       = [mkRequest "https://archive.org/item/a.txt" None
                    {[ "Range" := "bytes=2-" ]}]
    /\ fs w' !! "a.txt" = Some "hello"
    /\ st_size w' "a.txt" = 5.
Proof.
  intros self o w.
  destruct (download_first_request_resumes (serves "llo") self o w "a.txt" "he" w)
    as (_ & _ & H); [reflexivity | reflexivity | reflexivity |].
  destruct (H eq_refl eq_refl eq_refl (mkResponse 200 None ["llo"] None))
    as (w' & Hd & Hr & Hf & Hs); [reflexivity | simpl; lia | reflexivity |].
  exists w'. split; [exact Hd|]. split; [exact Hr|]. split; [exact Hf|].
  apply Hs. reflexivity.
Defined.

(** C7 (as stated, refuted): with the raw response asked for
    ([return_responses]), a destination file of another size than the
    remote file and no checksum verification, the request carries no
    [Range] header. *)
Lemma capture_mode_request_has_no_range :
  let self := remote_file 5 None in
  let o := options false false true (LedgerFlag false) 2 in
  let w := world_with [("a.txt", "he")] in
  fs w !! "a.txt" = Some "he"
  /\ st_size w "a.txt" <> size self
  /\ checksum o = false
  /\ ledger_truthy (checksum_archive o) = false
  /\ download (serves "llo") self o w
     = Some (log_all w [EvGet (mkRequest "https://archive.org/item/a.txt" None ∅)],
             o, Returned (RResponse (mkResponse 200 None ["llo"] None))).
Proof.
  vm_compute. repeat split; try reflexivity. discriminate.
Qed.

(** The variable [headers] is not reset between passes. When a resumed pass
    fails after the whole body has been appended, the next pass finds the
    sizes equal, keeps the [Range] header of the pass before, and appends
    the same bytes once more. *)
Lemma stale_range_header_after_retry :
  let self := remote_file 5 None in
  let o := options false false false (LedgerFlag false) 2 in
  let w := world_with [("a.txt", "he")] in
  exists w',
    download (drops_then_serves "llo") self o w
    = Some (w', set_retries o 1, Returned RTrue)
    /\ requests (events w')
       = [mkRequest "https://archive.org/item/a.txt" None {[ "Range" := "bytes=2-" ]};
          mkRequest "https://archive.org/item/a.txt" None {[ "Range" := "bytes=2-" ]}]
    /\ fs w' !! "a.txt" = Some "hellollo".
Proof. eexists. vm_compute. repeat split; reflexivity. Qed.

End DownloadExamples.

(** ** The transfer engine: further behaviour *)

Section DownloadBehaviour.

Import AsyncFile.

Variable client_get : Transport.

Lemma gets_requests evs : gets evs = length (requests evs).
Proof.
  unfold gets, requests.
  induction evs as [|[] evs IH]; simpl; auto.
Qed.

Lemma set_retries_twice o a b : set_retries (set_retries o a) b = set_retries o b.
Proof. reflexivity. Qed.

(** What a pass whose parent directory is free adds to the events: its
    request, with the directory creation before it and the time stamp
    after it when they happen. *)
Lemma attempt_adds self o file_path n h w :
  parent_free o (fs w) (dirname file_path) ->
  exists h' w' e new,
    attempt client_get self o file_path (dirname file_path) n h w = (h', w', e)
    /\ events w' = events w ++ new
    /\ gets new = 1%nat
    /\ sleeps new = 0%nat
    /\ grows_at file_path (fs w) (fs w').
Proof.
  intros Hfree.
  destruct (attempt_events client_get self o file_path (dirname file_path) n h w Hfree)
    as (w' & e & post & Hatt & Hev & _ & Hg & Hs & Hgrows).
  eexists _, w', e, _. split; [exact Hatt|]. split; [exact Hev|].
  rewrite gets_app, sleeps_app, Hg, Hs.
  destruct (pass_events_counts o (dirname file_path)
              (mkRequest (url self) (params o) (attempt_headers self o file_path w h)))
    as [-> ->].
  split; [reflexivity|]. split; [reflexivity | exact Hgrows].
Qed.

(** With the parent directory free, every pass makes its request. *)
Lemma retry_loop_accounting self file_path :
  forall fuel n h o w,
    (Z.to_nat (retries o) < fuel)%nat ->
    parent_free o (fs w) (dirname file_path) ->
    exists w' r out new,
      retry_loop client_get fuel self file_path (dirname file_path) n h o w
      = Some (w', set_retries o r, out)
      /\ events w' = events w ++ new
      /\ r <= retries o
      /\ (0 <= retries o -> 0 <= r)
      /\ Z.of_nat (sleeps new) = retries o - r
      /\ gets new = S (sleeps new).
Proof.
  induction fuel as [|fuel IH]; intros n h o w Hfuel Hfree; [lia|].
  destruct (attempt_adds self o file_path n h w Hfree)
    as (h' & w1 & e & new1 & Hatt & Hev & Hg & Hs & Hgrows).
  cbn [retry_loop]. rewrite Hatt.
  assert (Hstop : forall out : outcome,
             exists w' r out' new,
               Some (w1, o, out) = Some (w', set_retries o r, out')
               /\ events w' = events w ++ new
               /\ r <= retries o /\ (0 <= retries o -> 0 <= r)
               /\ Z.of_nat (sleeps new) = retries o - r
               /\ gets new = S (sleeps new)).
  { intros out. exists w1, (retries o), out, new1.
    rewrite set_retries_same, Hg, Hs. repeat split; try lia. exact Hev. }
  destruct e as [v| |exc]; [apply Hstop | apply Hstop |].
  destruct (0 <? retries o) eqn:Hpos.
  - apply Z.ltb_lt in Hpos.
    edestruct (IH (S n) h' (set_retries o (retries o - 1))
                  (log w1 (EvSleep (retries_sleep o))))
      as (w' & r & out & new & Hrun & Hev' & Hle & Hnn & Hsl & Hgt).
    { cbn [retries set_retries]. lia. }
    { change (parent_free o (fs w1) (dirname file_path)).
      now apply (parent_free_grows o file_path (fs w)). }
    cbn [retries set_retries] in Hle, Hnn, Hsl.
    exists w', r, out, (new1 ++ EvSleep (retries_sleep o) :: new).
    change (retries_sleep (set_retries o (retries o - 1))) with (retries_sleep o).
    rewrite Hrun, set_retries_twice. split; [reflexivity|].
    split. { rewrite Hev'. simpl. rewrite Hev, <- !app_assoc. reflexivity. }
    split; [lia|]. split; [lia|].
    change (EvSleep (retries_sleep o) :: new) with ([EvSleep (retries_sleep o)] ++ new).
    rewrite !gets_app, !sleeps_app, Hg, Hs, Hgt.
    change (gets [EvSleep (retries_sleep o)]) with 0%nat.
    change (sleeps [EvSleep (retries_sleep o)]) with 1%nat.
    split; lia.
  - destruct (ignore_errors o); apply Hstop.
Qed.

Lemma gets_sleeps_only delay k :
  gets (repeat (EvSleep delay) k) = 0%nat
  /\ sleeps (repeat (EvSleep delay) k) = k.
Proof.
  induction k as [|k [IHg IHs]]; [now split|].
  change (repeat (EvSleep delay) (S k))
    with ([EvSleep delay] ++ repeat (EvSleep delay) k).
  rewrite gets_app, sleeps_app, IHg, IHs. now split.
Qed.

(** With a regular file in the way of the parent directory, no pass gets
    as far as its request: the loop sleeps the budget away and ends with
    the error of [os.makedirs]. *)
Lemma retry_loop_blocked self file_path e :
  forall fuel n h o w,
    (Z.to_nat (retries o) < fuel)%nat ->
    return_responses o = false ->
    makedirs_error (fs w) (dirname file_path) = Some e ->
    exists w',
      retry_loop client_get fuel self file_path (dirname file_path) n h o w
      = Some (w', set_retries o (Z.min 0 (retries o)),
              if ignore_errors o then Returned RFalse else Raised e)
      /\ events w'
         = events w ++ repeat (EvSleep (retries_sleep o)) (Z.to_nat (retries o))
      /\ fs w' = fs w.
Proof.
  induction fuel as [|fuel IH]; intros n h o w Hfuel Hrr Hstop; [lia|].
  cbn [retry_loop].
  rewrite (attempt_stopped client_get self o file_path (dirname file_path) n h w e Hrr Hstop).
  destruct (0 <? retries o) eqn:Hpos.
  - apply Z.ltb_lt in Hpos.
    destruct (IH (S n) h (set_retries o (retries o - 1))
                 (log w (EvSleep (retries_sleep o))))
      as (w' & Hrun & Hev & Hfs).
    { cbn [retries set_retries]. lia. }
    { exact Hrr. }
    { exact Hstop. }
    cbn [retries set_retries] in Hrun, Hev.
    change (retries_sleep (set_retries o (retries o - 1))) with (retries_sleep o) in *.
    change (ignore_errors (set_retries o (retries o - 1))) with (ignore_errors o) in Hrun.
    exists w'. rewrite Hrun, set_retries_twice.
    replace (Z.min 0 (retries o - 1)) with (Z.min 0 (retries o)) by lia.
    split; [reflexivity|]. split; [|exact Hfs].
    rewrite Hev. cbn [events log]. rewrite <- app_assoc.
    replace (Z.to_nat (retries o)) with (S (Z.to_nat (retries o - 1))) by lia.
    reflexivity.
  - apply Z.ltb_ge in Hpos. exists w.
    replace (Z.min 0 (retries o)) with (retries o) by lia.
    rewrite set_retries_same.
    replace (Z.to_nat (retries o)) with 0%nat by lia.
    cbn [repeat]. rewrite app_nil_r.
    split; [now destruct (ignore_errors o)|]. now split.
Qed.

Lemma skip_checks_done self o file_path w w' out :
  skip_checks self o file_path w = Done w' out -> w' = w.
Proof.
  unfold skip_checks, ledger_check, existing_check.
  destruct (negb (return_responses o) && _); [|discriminate].
  destruct (ledger_truthy (checksum_archive o)); simpl.
  - destruct (fs w !! CHECKSUM_ARCHIVE_FILENAME) as [text|]; simpl;
      [|(intros H; now injection H)].
    destruct (negb (utf8_valid text)); simpl; [(intros H; now injection H)|].
    destruct (str_in _ _); simpl; [(intros H; now injection H)|].
    destruct (ignore_existing o); simpl; [(intros H; now injection H)|].
    rewrite orb_true_r.
    destruct (fs w !! file_path); simpl; [discriminate | (intros H; now injection H)].
  - destruct (ignore_existing o); simpl; [(intros H; now injection H)|].
    destruct (checksum o); simpl; [|discriminate].
    destruct (fs w !! file_path); simpl; [discriminate | (intros H; now injection H)].
Qed.

(** X1: every call of [download] ends; it changes nothing in the options
    but [retries], which it never raises and never takes below zero from a
    non-negative budget; and it sleeps once for every unit it takes off the
    budget. As to requests, one of three: it adds no event at all (a skip
    or an error before the loop); or it makes one request more than it
    sleeps; or a regular file is in the way of the parent directory of the
    destination, and then [os.makedirs] raises in every pass, the call
    makes no request, uses up the budget and ends with the error of
    [os.makedirs] ([False] under [ignore_errors]). *)
Theorem download_retry_accounting self o w :
  exists w' r out new,
    download client_get self o w = Some (w', set_retries o r, out)
    /\ events w' = events w ++ new
    /\ r <= retries o
    /\ (0 <= retries o -> 0 <= r)
    /\ Z.of_nat (sleeps new) = retries o - r
    /\ (new = []
        \/ gets new = S (sleeps new)
        \/ (gets new = 0%nat
            /\ r = Z.min 0 (retries o)
            /\ exists file_path e,
                 resolve_path w self o = Ok file_path
                 /\ return_responses o = false
                 /\ makedirs_error (fs w) (dirname file_path) = Some e
                 /\ out = if ignore_errors o then Returned RFalse else Raised e)).
Proof.
  unfold download.
  assert (Hnone : forall out : outcome,
             exists w' r out' new,
               Some (w, o, out) = Some (w', set_retries o r, out')
               /\ events w' = events w ++ new
               /\ r <= retries o /\ (0 <= retries o -> 0 <= r)
               /\ Z.of_nat (sleeps new) = retries o - r
               /\ (new = []
                   \/ gets new = S (sleeps new)
                   \/ (gets new = 0%nat
                       /\ r = Z.min 0 (retries o)
                       /\ exists file_path e,
                            resolve_path w self o = Ok file_path
                            /\ return_responses o = false
                            /\ makedirs_error (fs w) (dirname file_path) = Some e
                            /\ out' = if ignore_errors o then Returned RFalse
                                      else Raised e))).
  { intros out. exists w, (retries o), out, [].
    rewrite set_retries_same, app_nil_r. simpl.
    split; [reflexivity|]. split; [reflexivity|]. split; [lia|].
    split; [tauto|]. split; [|now left].
    change (sleeps []) with 0%nat. lia. }
  destruct (resolve_path w self o) as [file_path|e] eqn:Hpath; [|apply Hnone].
  destruct (skip_checks self o file_path w) as [w1 out|w1] eqn:Hskip.
  { apply skip_checks_done in Hskip as ->. apply Hnone. }
  apply skip_checks_proceeds in Hskip as ->. clear Hnone.
  assert (Hcases : parent_free o (fs w) (dirname file_path)
                   \/ exists e, return_responses o = false
                                /\ makedirs_error (fs w) (dirname file_path) = Some e).
  { unfold parent_free. destruct (return_responses o); [now left; left|].
    destruct (makedirs_error (fs w) (dirname file_path)) as [e|];
      [right; now exists e | left; now right]. }
  destruct Hcases as [Hfree|(e & Hrr & Hstop)].
  - destruct (retry_loop_accounting self file_path
                (S (Z.to_nat (retries o))) 0%nat ∅ o w)
      as (w' & r & out & new & Hrun & Hev & Hle & Hnn & Hsl & Hgt); [lia | exact Hfree |].
    exists w', r, out, new.
    split; [exact Hrun|]. split; [exact Hev|]. split; [exact Hle|].
    split; [exact Hnn|]. split; [exact Hsl | right; now left].
  - destruct (retry_loop_blocked self file_path e
                (S (Z.to_nat (retries o))) 0%nat ∅ o w)
      as (w' & Hrun & Hev & _); [lia | exact Hrr | exact Hstop |].
    destruct (gets_sleeps_only (retries_sleep o) (Z.to_nat (retries o))) as [Hg Hs].
    eexists w', _, _, _. split; [exact Hrun|]. split; [exact Hev|].
    split; [lia|]. split; [lia|]. split; [rewrite Hs; lia|].
    right; right. split; [exact Hg|]. split; [reflexivity|].
    exists file_path, e. now repeat split.
Qed.

(** X2: the checks before the transfer do not look whether the
    destination exists. With [ignore_existing] set (and no ledger) the call
    returns [None] without a request, also for a destination that is not
    there; with [checksum] set and the destination absent it raises
    [FileNotFoundError] for the destination, again without a request. *)
Theorem prechecks_ignore_absence self o w file_path :
  resolve_path w self o = Ok file_path ->
  return_responses o = false ->
  ledger_truthy (checksum_archive o) = false ->
  (ignore_existing o = true ->
   download client_get self o w = Some (w, o, Returned RNone))
  /\ (ignore_existing o = false -> checksum o = true ->
      fs w !! file_path = None ->
      download client_get self o w
      = Some (w, o, Raised (FileNotFoundError file_path))).
Proof.
  intros Hpath Hrr Hl. unfold download, skip_checks, ledger_check, existing_check.
  rewrite Hpath, Hrr, Hl. simpl. split.
  - now intros ->.
  - intros -> -> ->. reflexivity.
Qed.

(** X3: with a ledger requested, the ledger file [_checksum_archive.txt]
    is read but never created: when it is absent the call raises
    [FileNotFoundError] for it before any request, whatever the state of
    the destination. *)
Theorem absent_ledger_raises self o w file_path :
  resolve_path w self o = Ok file_path ->
  return_responses o = false ->
  ledger_truthy (checksum_archive o) = true ->
  fs w !! CHECKSUM_ARCHIVE_FILENAME = None ->
  download client_get self o w
  = Some (w, o, Raised (FileNotFoundError CHECKSUM_ARCHIVE_FILENAME)).
Proof.
  intros Hpath Hrr Hl Hfs. unfold download, skip_checks, ledger_check.
  rewrite Hpath, Hrr, Hl. simpl. now rewrite Hfs.
Qed.

(** X4: a destination directory that is a regular file is reported at
    once: the call raises [OSError] without a request, a sleep or a change
    to the retry budget. *)
Theorem destdir_that_is_a_file_raises self o w d :
  destdir o = Some d ->
  str_truthy d = true ->
  is_Some (fs w !! d) ->
  download client_get self o w
  = Some (w, o, Raised (OSError (d +:+ " is not a directory!"))).
Proof.
  intros Hd Ht Hfile. unfold download, resolve_path, path_isfile.
  rewrite Hd, Ht. simpl. now rewrite bool_decide_eq_true_2.
Qed.

(** The request and the time stamp of a pass that transfers the whole
    file. *)
Lemma attempt_full_success self o file_path parent_dir n h w resp :
  makedirs_error (fs w) parent_dir = None ->
  open_error (fs w) file_path = None ->
  attempt_headers self o file_path w h = ∅ ->
  return_responses o = false -> stdout o = false -> fileobj o = false ->
  let req := mkRequest (url self) (params o) ∅ in
  client_get n req = Ok resp ->
  resp_status resp < 400 ->
  resp_stream_error resp = None ->
  exists w',
    attempt client_get self o file_path parent_dir n h w = (∅, w', AReturn RTrue)
    /\ fs w' = <[file_path := concat_chunks (resp_chunks resp)]> (fs w)
    /\ stdout_buf w' = stdout_buf w
    /\ fileobj_buf w' = fileobj_buf w
    /\ events w'
       = events w ++ pass_events o parent_dir req
         ++ (if no_change_timestamp o then []
             else [EvUtime file_path (default (mtime self) (resp_last_modified resp))]).
Proof.
  intros Hdirs Hopen Hh Hrr Hout Hobj req Hget Hstatus Hstream.
  rewrite attempt_reaches by now right.
  set (w1 := with_parent o parent_dir w).
  assert (Hfs1 : fs w1 = fs w) by apply with_parent_fs.
  destruct (with_parent_bufs o parent_dir w) as [Hso1 Hfo1]. fold w1 in Hso1, Hfo1.
  assert (Hev1 : events (log w1 (EvGet req)) = events w ++ pass_events o parent_dir req)
    by apply with_parent_events.
  unfold attempt_transfer.
  rewrite (attempt_headers_fs self o file_path w1 w h Hfs1), Hh.
  fold req. rewrite Hget.
  assert (Hok : (400 <=? resp_status resp) = false) by (apply Z.leb_gt; lia).
  rewrite Hok, Hrr, Hout, Hobj, Hstream. cbn [orb].
  change (fs (log w1 (EvGet req))) with (fs w1). rewrite Hfs1, Hopen.
  assert (Hno : bool_decide (is_Some ((∅ : gmap string string) !! "Range")) = false).
  { apply bool_decide_eq_false_2. rewrite lookup_empty. intros [x Hx]. discriminate. }
  rewrite Hno.
  set (w2 := open_truncate (log w1 (EvGet req)) file_path).
  set (ws := stream_to (fun w chunk => append_file w file_path chunk) resp w2).
  assert (Hfs' : fs ws = <[file_path := concat_chunks (resp_chunks resp)]> (fs w)).
  { unfold ws. rewrite (stream_to_file resp file_path w2 EmptyString).
    - rewrite append_nil. unfold w2. simpl. rewrite insert_insert_eq. now rewrite Hfs1.
    - unfold w2. simpl. apply lookup_insert_eq. }
  assert (Hev : events ws = events w ++ pass_events o parent_dir req).
  { unfold ws. rewrite stream_to_events by reflexivity. exact Hev1. }
  assert (Hbuf : forall chunks w0,
             stdout_buf (fold_left (fun w chunk => append_file w file_path chunk)
                                   chunks w0) = stdout_buf w0
             /\ fileobj_buf (fold_left (fun w chunk => append_file w file_path chunk)
                                       chunks w0) = fileobj_buf w0).
  { induction chunks as [|c cs IH]; intros w0; simpl; [now split|].
    destruct (IH (append_file w0 file_path c)) as [-> ->]. now split. }
  assert (Hso : stdout_buf ws = stdout_buf w)
    by (unfold ws, stream_to; rewrite (proj1 (Hbuf _ _)); exact Hso1).
  assert (Hfo : fileobj_buf ws = fileobj_buf w)
    by (unfold ws, stream_to; rewrite (proj2 (Hbuf _ _)); exact Hfo1).
  clearbody ws.
  eexists. split; [reflexivity|].
  destruct (no_change_timestamp o); simpl.
  - rewrite app_nil_r. now repeat split.
  - rewrite Hev, <- app_assoc. now repeat split.
Qed.

(** X5: when no regular file is in the way of the parent directory and
    the destination can be opened for writing, a transfer that does not
    resume (the destination is absent, or has the remote size, or checksum
    verification is on) and succeeds at its first request leaves the
    destination with exactly the body of the response, whatever it held
    before, and leaves [stdout] and the provided sink untouched; it
    returns [True], keeps the retry budget, and, unless
    [no_change_timestamp] is set, stamps the file with the [Last-Modified]
    time of the response or else the known [mtime]. *)
Theorem full_transfer_replaces_destination self o w file_path w0 resp :
  resolve_path w self o = Ok file_path ->
  skip_checks self o file_path w = Proceed w0 ->
  makedirs_error (fs w) (dirname file_path) = None ->
  open_error (fs w) file_path = None ->
  return_responses o = false -> stdout o = false -> fileobj o = false ->
  (forall content, fs w !! file_path = Some content ->
     Z.of_nat (String.length content) = size self
     \/ checksum o || ledger_truthy (checksum_archive o) = true) ->
  let req := mkRequest (url self) (params o) ∅ in
  client_get 0%nat req = Ok resp ->
  resp_status resp < 400 ->
  resp_stream_error resp = None ->
  exists w',
    download client_get self o w = Some (w', o, Returned RTrue)
    /\ fs w' = <[file_path := concat_chunks (resp_chunks resp)]> (fs w)
    /\ stdout_buf w' = stdout_buf w
    /\ fileobj_buf w' = fileobj_buf w
    /\ events w'
       = events w ++ pass_events o (dirname file_path) req
         ++ (if no_change_timestamp o then []
             else [EvUtime file_path (default (mtime self) (resp_last_modified resp))]).
Proof.
  intros Hpath Hskip Hdirs Hopen Hrr Hout Hobj Hfull req Hget Hstatus Hstream.
  pose proof (skip_checks_proceeds _ _ _ _ _ Hskip) as ->.
  assert (Hh : attempt_headers self o file_path w ∅ = ∅).
  { unfold attempt_headers, path_exists, st_size. rewrite Hrr. simpl.
    destruct (fs w !! file_path) as [content|] eqn:E; simpl; [|reflexivity].
    destruct (Hfull content eq_refl) as [->| ->].
    - now rewrite Z.eqb_refl.
    - now rewrite andb_false_r. }
  destruct (attempt_full_success self o file_path (dirname file_path) 0%nat ∅ w resp
              Hdirs Hopen Hh Hrr Hout Hobj Hget Hstatus Hstream)
    as (w' & Hatt & Hfs & Hso & Hfo & Hev).
  exists w'. unfold download. rewrite Hpath, Hskip. cbn [retry_loop]. rewrite Hatt.
  split; [reflexivity|]. split; [exact Hfs|]. split; [exact Hso|].
  split; [exact Hfo | exact Hev].
Qed.

(** X6: when the raw response is asked for ([return_responses]), the call
    makes one request without a [Range] header and hands back the first
    successful response as it is: no directory is created, nothing is
    written, and the existing destination is neither looked at nor
    changed. *)
Theorem capture_mode_returns_response self o w file_path resp :
  resolve_path w self o = Ok file_path ->
  return_responses o = true ->
  let req := mkRequest (url self) (params o) ∅ in
  client_get 0%nat req = Ok resp ->
  resp_status resp < 400 ->
  download client_get self o w
  = Some (log w (EvGet req), o, Returned (RResponse resp)).
Proof.
  intros Hpath Hrr req Hget Hstatus.
  unfold download, skip_checks. rewrite Hpath, Hrr. simpl.
  unfold attempt, attempt_transfer, attempt_headers. rewrite Hrr, andb_false_r. simpl.
  fold req. rewrite Hget.
  assert (Hok : (400 <=? resp_status resp) = false) by (apply Z.leb_gt; lia).
  now rewrite Hok.
Qed.

Lemma stream_to_stdout resp w :
  let w' := stream_to write_stdout resp w in
  fs w' = fs w /\ events w' = events w /\ fileobj_buf w' = fileobj_buf w
  /\ stdout_buf w' = stdout_buf w +:+ concat_chunks (resp_chunks resp).
Proof.
  unfold stream_to. revert w.
  induction (resp_chunks resp) as [|c cs IH]; intros w; simpl.
  - unfold concat_chunks. simpl. now rewrite append_empty_r.
  - destruct (IH (write_stdout w c)) as (-> & -> & -> & ->). simpl.
    unfold concat_chunks. simpl. rewrite append_nil, (concat_chunks_from c cs).
    now rewrite append_assoc.
Qed.

Lemma stream_to_fileobj resp w :
  let w' := stream_to write_fileobj resp w in
  fs w' = fs w /\ events w' = events w /\ stdout_buf w' = stdout_buf w
  /\ fileobj_buf w' = fileobj_buf w +:+ concat_chunks (resp_chunks resp).
Proof.
  unfold stream_to. revert w.
  induction (resp_chunks resp) as [|c cs IH]; intros w; simpl.
  - unfold concat_chunks. simpl. now rewrite append_empty_r.
  - destruct (IH (write_fileobj w c)) as (-> & -> & -> & ->). simpl.
    unfold concat_chunks. simpl. rewrite append_nil, (concat_chunks_from c cs).
    now rewrite append_assoc.
Qed.

(** X7: with [stdout] or a provided sink as the target, no regular file
    in the way of the parent directory of the destination (which line 165
    creates for a sink too) and a destination path that does not name a
    directory, a transfer that succeeds at its first request writes the
    body, in order, to that sink ([stdout] first when both are given) and
    to nothing else: no file is created or changed and no time stamp is
    set. The request still carries the [Range] header that an existing
    destination of another size causes. *)
Theorem sink_transfer_leaves_files_alone self o w file_path w0 resp :
  resolve_path w self o = Ok file_path ->
  skip_checks self o file_path w = Proceed w0 ->
  makedirs_error (fs w) (dirname file_path) = None ->
  open_error (fs w) file_path = None ->
  return_responses o = false ->
  stdout o || fileobj o = true ->
  let req := mkRequest (url self) (params o)
                       (attempt_headers self o file_path w ∅) in
  client_get 0%nat req = Ok resp ->
  resp_status resp < 400 ->
  resp_stream_error resp = None ->
  exists w',
    download client_get self o w = Some (w', o, Returned RTrue)
    /\ fs w' = fs w
    /\ events w' = events w ++ pass_events o (dirname file_path) req
    /\ stdout_buf w'
       = (if stdout o then stdout_buf w +:+ concat_chunks (resp_chunks resp)
          else stdout_buf w)
    /\ fileobj_buf w'
       = (if stdout o then fileobj_buf w
          else fileobj_buf w +:+ concat_chunks (resp_chunks resp)).
Proof.
  intros Hpath Hskip Hdirs _ Hrr Hsink req Hget Hstatus Hstream.
  pose proof (skip_checks_proceeds _ _ _ _ _ Hskip) as ->.
  unfold download. rewrite Hpath, Hskip. cbn [retry_loop].
  rewrite attempt_reaches by now right.
  set (w1 := with_parent o (dirname file_path) w).
  assert (Hfs1 : fs w1 = fs w) by apply with_parent_fs.
  destruct (with_parent_bufs o (dirname file_path) w) as [Hso1 Hfo1].
  fold w1 in Hso1, Hfo1.
  assert (Hev1 : events (log w1 (EvGet req))
                 = events w ++ pass_events o (dirname file_path) req)
    by apply with_parent_events.
  unfold attempt_transfer.
  rewrite (attempt_headers_fs self o file_path w1 w ∅ Hfs1).
  fold req. rewrite Hget.
  assert (Hok : (400 <=? resp_status resp) = false) by (apply Z.leb_gt; lia).
  rewrite Hok, Hrr, Hsink, Hstream.
  destruct (stdout o).
  - destruct (stream_to_stdout resp (log w1 (EvGet req))) as (Hf & He & Hfo & Hso).
    eexists. split; [reflexivity|].
    rewrite Hf, He, Hfo, Hso. simpl. now rewrite Hso1.
  - destruct (stream_to_fileobj resp (log w1 (EvGet req))) as (Hf & He & Hso & Hfo).
    eexists. split; [reflexivity|].
    rewrite Hf, He, Hfo, Hso. simpl. now rewrite Hfo1.
Qed.

(** A pass that appends to the destination: its headers carry [Range]. *)
Lemma attempt_append self o file_path n h w content resp :
  fs w !! file_path = Some content ->
  is_Some (attempt_headers self o file_path w h !! "Range") ->
  return_responses o = false -> stdout o = false -> fileobj o = false ->
  let req := mkRequest (url self) (params o) (attempt_headers self o file_path w h) in
  client_get n req = Ok resp ->
  resp_status resp < 400 ->
  exists w',
    attempt client_get self o file_path (dirname file_path) n h w
    = (attempt_headers self o file_path w h, w',
       match resp_stream_error resp with
       | Some e => AExcept e
       | None => AReturn RTrue
       end)
    /\ fs w' = <[file_path := content +:+ concat_chunks (resp_chunks resp)]> (fs w)
    /\ requests (events w') = requests (events w) ++ [req].
Proof.
  intros Hfs Hrange Hrr Hout Hobj req Hget Hstatus.
  rewrite attempt_reaches
    by (right; now apply (makedirs_existing (fs w) file_path content)).
  set (w1 := with_parent o (dirname file_path) w).
  assert (Hw1 : fs w1 = fs w) by apply with_parent_fs.
  assert (Hr1 : requests (events w1 ++ [EvGet req]) = requests (events w) ++ [req]).
  { unfold w1. now rewrite with_parent_events, requests_app, requests_pass_events. }
  unfold attempt_transfer.
  rewrite (attempt_headers_fs self o file_path w1 w h Hw1).
  fold req. rewrite Hget.
  assert (Hok : (400 <=? resp_status resp) = false) by (apply Z.leb_gt; lia).
  rewrite Hok, Hrr, Hout, Hobj. cbn [orb].
  assert (Hopen : open_error (fs (log w1 (EvGet req))) file_path = None).
  { apply (open_error_existing _ file_path content). cbn [fs log]. now rewrite Hw1. }
  rewrite Hopen.
  rewrite (bool_decide_eq_true_2 _ Hrange).
  set (ws := stream_to (fun w chunk => append_file w file_path chunk) resp
                       (log w1 (EvGet req))).
  assert (Hfs' : fs ws = <[file_path := content +:+ concat_chunks (resp_chunks resp)]> (fs w)).
  { unfold ws. rewrite (stream_to_file resp file_path _ content); simpl; now rewrite Hw1. }
  assert (Hev : events ws = events w1 ++ [EvGet req]).
  { unfold ws. now rewrite stream_to_events. }
  clearbody ws.
  destruct (resp_stream_error resp).
  - eexists. split; [reflexivity|]. split; [exact Hfs'|].
    now rewrite Hev.
  - eexists. split; [reflexivity|]. split.
    + now destruct (no_change_timestamp o).
    + destruct (no_change_timestamp o); simpl;
        rewrite ?requests_app, Hev, ?Hr1; simpl; now rewrite ?app_nil_r.
Qed.

(** X8: the request headers are kept from one pass to the next. When a
    resumed pass receives the missing bytes and then fails, the retry finds
    the destination with the remote size, sends the [Range] header of the
    pass before once more and appends the answer: the destination ends up
    longer than the remote file, and the call returns [True]. *)
Theorem retry_after_complete_body_appends_again self o w file_path w0 content
    resp1 resp2 e :
  resolve_path w self o = Ok file_path ->
  skip_checks self o file_path w = Proceed w0 ->
  fs w !! file_path = Some content ->
  return_responses o = false -> stdout o = false -> fileobj o = false ->
  checksum o = false -> ledger_truthy (checksum_archive o) = false ->
  0 < retries o ->
  let local := Z.of_nat (String.length content) in
  let req := mkRequest (url self) (params o) (range_headers local) in
  local <> size self ->
  client_get 0%nat req = Ok resp1 ->
  resp_status resp1 < 400 ->
  resp_stream_error resp1 = Some e ->
  local + Z.of_nat (String.length (concat_chunks (resp_chunks resp1))) = size self ->
  client_get 1%nat req = Ok resp2 ->
  resp_status resp2 < 400 ->
  resp_stream_error resp2 = None ->
  exists w',
    download client_get self o w
    = Some (w', set_retries o (retries o - 1), Returned RTrue)
    /\ requests (events w') = requests (events w) ++ [req; req]
    /\ fs w' !! file_path
       = Some (content +:+ concat_chunks (resp_chunks resp1)
                       +:+ concat_chunks (resp_chunks resp2)).
Proof.
  intros Hpath Hskip Hfs Hrr Hout Hobj Hc Hl Hpos local req Hsize
         Hget1 Hst1 Herr1 Hlen Hget2 Hst2 Herr2.
  pose proof (skip_checks_proceeds _ _ _ _ _ Hskip) as ->.
  pose proof (every_pass_resumes self o file_path w content ∅ Hfs Hrr Hc Hl Hsize)
    as Hh1. fold local in Hh1.
  assert (Hrange : is_Some (range_headers local !! "Range")).
  { unfold range_headers. rewrite lookup_singleton_eq. now eexists. }
  destruct (attempt_append self o file_path 0%nat ∅ w content resp1)
    as (w1 & Hatt1 & Hfs1 & Hreq1); auto;
    try (rewrite Hh1; assumption).
  rewrite Hh1, Herr1 in Hatt1. rewrite Hh1 in Hreq1. fold req in Hreq1.
  set (o1 := set_retries o (retries o - 1)).
  set (w2 := log w1 (EvSleep (retries_sleep o))).
  set (content1 := content +:+ concat_chunks (resp_chunks resp1)) in *.
  assert (Hfs2 : fs w2 !! file_path = Some content1).
  { unfold w2. simpl. rewrite Hfs1. apply lookup_insert_eq. }
  assert (Hh2 : attempt_headers self o1 file_path w2 (range_headers local)
                = range_headers local).
  { unfold attempt_headers, path_exists, st_size. rewrite Hfs2. simpl.
    rewrite Hrr. simpl. unfold content1. rewrite length_append, Nat2Z.inj_add.
    fold local. rewrite Hlen, Z.eqb_refl. reflexivity. }
  destruct (attempt_append self o1 file_path 1%nat
              (range_headers local) w2 content1 resp2)
    as (w3 & Hatt2 & Hfs3 & Hreq3); auto;
    try (rewrite Hh2; assumption).
  rewrite Hh2, Herr2 in Hatt2. rewrite Hh2 in Hreq3.
  exists w3. unfold download. rewrite Hpath, Hskip.
  destruct (Z.to_nat (retries o)) as [|k] eqn:Hk; [lia|].
  assert (Hp : (0 <? retries o) = true) by (apply Z.ltb_lt; lia).
  cbn [retry_loop]. rewrite Hatt1, Hp. fold o1. change (retries_sleep o1) with (retries_sleep o).
  fold w2. rewrite Hatt2.
  split; [reflexivity|]. split.
  - rewrite Hreq3. unfold w2. simpl. rewrite requests_app, Hreq1. simpl.
    rewrite app_nil_r, <- app_assoc. reflexivity.
  - rewrite Hfs3, lookup_insert_eq. unfold content1. now rewrite append_assoc.
Qed.

End DownloadBehaviour.

Section DownloadBehaviourExamples.

Import AsyncFile AsyncFileFixtures.

(** With nothing on disk: [ignore_existing] gives a skip, [checksum] an
    error. *)
Lemma prechecks_ignore_absence_witness :
  download unreachable (remote_file 5 None)
           (set_ignore_existing default_options true) (world_with [])
  = Some (world_with [], set_ignore_existing default_options true, Returned RNone)
  /\ download unreachable (remote_file 5 None)
              (options false true false (LedgerFlag false) 2) (world_with [])
     = Some (world_with [], options false true false (LedgerFlag false) 2,
             Raised (FileNotFoundError "a.txt")).
Proof.
  split.
  - apply (prechecks_ignore_absence unreachable (remote_file 5 None)
             (set_ignore_existing default_options true) (world_with []) "a.txt");
      reflexivity.
  - apply (prechecks_ignore_absence unreachable (remote_file 5 None)
             (options false true false (LedgerFlag false) 2) (world_with []) "a.txt");
      reflexivity.
Defined.

Lemma absent_ledger_raises_witness :
  download (serves "hello") (remote_file 5 None)
           (options false false false (LedgerFlag true) 2)
           (world_with [("a.txt", "hello")])
  = Some (world_with [("a.txt", "hello")],
          options false false false (LedgerFlag true) 2,
          Raised (FileNotFoundError "_checksum_archive.txt")).
Proof.
  apply (absent_ledger_raises (serves "hello") (remote_file 5 None)
           (options false false false (LedgerFlag true) 2)
           (world_with [("a.txt", "hello")]) "a.txt"); reflexivity.
Defined.

Lemma destdir_that_is_a_file_raises_witness :
  download (serves "hello") (remote_file 5 None)
           (set_destdir default_options (Some "out"))
           (world_with [("out", "not a directory")])
  = Some (world_with [("out", "not a directory")],
          set_destdir default_options (Some "out"),
          Raised (OSError "out is not a directory!")).
Proof.
  apply (destdir_that_is_a_file_raises (serves "hello") (remote_file 5 None)
           (set_destdir default_options (Some "out"))
           (world_with [("out", "not a directory")]) "out");
    [reflexivity | reflexivity | now eexists].
Defined.

(** A destination in a directory of its own, holding other bytes of the
    remote size. *)
Lemma full_transfer_replaces_destination_witness :
  let o := set_destdir default_options (Some "out") in
  let w := world_with [("out/a.txt", "HELLO")] in
  exists w',
    download (serves "hello") (remote_file 5 None) o w = Some (w', o, Returned RTrue)
    /\ fs w' = <["out/a.txt" := "hello"]> (fs w)
    /\ stdout_buf w' = EmptyString
    /\ fileobj_buf w' = EmptyString
    /\ events w'
       = [EvMakedirs "out";
          EvGet (mkRequest "https://archive.org/item/a.txt" None ∅);
          EvUtime "out/a.txt" 0].
Proof.
  intros o w.
  apply (full_transfer_replaces_destination (serves "hello") (remote_file 5 None)
           o w "out/a.txt" w (mkResponse 200 None ["hello"] None));
    try reflexivity.
  - intros content Hc. left. vm_compute in Hc. injection Hc as <-. reflexivity.
Defined.

Lemma capture_mode_returns_response_witness :
  download (serves "hello") (remote_file 5 None)
           (options false false true (LedgerFlag false) 2)
           (world_with [("a.txt", "he")])
  = Some (log (world_with [("a.txt", "he")])
              (EvGet (mkRequest "https://archive.org/item/a.txt" None ∅)),
          options false false true (LedgerFlag false) 2,
          Returned (RResponse (mkResponse 200 None ["hello"] None))).
Proof.
  apply (capture_mode_returns_response (serves "hello") (remote_file 5 None)
           (options false false true (LedgerFlag false) 2)
           (world_with [("a.txt", "he")]) "a.txt" (mkResponse 200 None ["hello"] None));
    reflexivity.
Defined.

Lemma sink_transfer_leaves_files_alone_witness :
  let o := set_stdout (set_destdir default_options (Some "out")) true in
  exists w',
    download (serves "hello") (remote_file 5 None) o (world_with [])
    = Some (w', o, Returned RTrue)
    /\ fs w' = fs (world_with [])
    /\ events w' = [EvMakedirs "out";
                    EvGet (mkRequest "https://archive.org/item/a.txt" None ∅)]
    /\ stdout_buf w' = "hello"
    /\ fileobj_buf w' = EmptyString.
Proof.
  intros o.
  apply (sink_transfer_leaves_files_alone (serves "hello") (remote_file 5 None)
           o (world_with []) "out/a.txt" (world_with [])
           (mkResponse 200 None ["hello"] None)); reflexivity.
Defined.

Lemma retry_after_complete_body_appends_again_witness :
  exists w',
    download (drops_then_serves "llo") (remote_file 5 None) default_options
             (world_with [("a.txt", "he")])
    = Some (w', set_retries default_options 1, Returned RTrue)
    /\ requests (events w')
       = [mkRequest "https://archive.org/item/a.txt" None {[ "Range" := "bytes=2-" ]};
          mkRequest "https://archive.org/item/a.txt" None {[ "Range" := "bytes=2-" ]}]
    /\ fs w' !! "a.txt" = Some "hellollo".
Proof.
  apply (retry_after_complete_body_appends_again (drops_then_serves "llo")
           (remote_file 5 None) default_options (world_with [("a.txt", "he")]) "a.txt"
           (world_with [("a.txt", "he")]) "he"
           (mkResponse 206 None ["llo"] (Some (ClientError "connection reset")))
           (mkResponse 206 None ["llo"] None) (ClientError "connection reset"));
    try reflexivity.
  intros H. discriminate H.
Defined.

(** A regular file [a] where the directory of [a/b.txt] should be:
    [os.makedirs] raises in every pass, so the call sleeps twice, makes no
    request and raises [FileExistsError]; the same with [stdout] as the
    target. *)
Lemma blocked_parent_run :
  let w := world_with [("a", "not a directory")] in
  download (serves "hello") nested_file default_options w
  = Some (log_all w [EvSleep 3; EvSleep 3], set_retries default_options 0,
          Raised (FileExistsError "a"))
  /\ download (serves "hello") nested_file (set_stdout default_options true) w
     = Some (log_all w [EvSleep 3; EvSleep 3],
             set_retries (set_stdout default_options true) 0,
             Raised (FileExistsError "a")).
Proof. vm_compute. split; reflexivity. Qed.

End DownloadBehaviourExamples.

(** ** Protocol selection, offset paging and aggregations *)

Section SearchModeFacts.

Import AsyncSearch AsyncSearchModes.

Lemma append_inj_r (t s1 s2 : string) : s1 +:+ t = s2 +:+ t -> s1 = s2.
Proof.
  revert s2. induction s1 as [|c s1 IH]; intros [|d s2] H.
  - reflexivity.
  - apply (f_equal String.length) in H.
    rewrite append_nil, append_cons in H. cbn [String.length] in H.
    rewrite length_append in H. lia.
  - apply (f_equal String.length) in H.
    rewrite append_nil, append_cons in H. cbn [String.length] in H.
    rewrite length_append in H. lia.
  - rewrite !append_cons in H. injection H as -> H. f_equal. now apply IH.
Qed.

Lemma fl_key_inj i j : fl_key i = fl_key j -> i = j.
Proof.
  unfold fl_key. rewrite !append_cons, !append_nil. intros H.
  injection H as H. apply append_inj_r in H. now apply pretty_nat_inj in H.
Qed.

Lemma sort_key_inj i j : sort_key i = sort_key j -> i = j.
Proof.
  unfold sort_key. rewrite !append_cons, !append_nil. intros H.
  injection H as H. apply append_inj_r in H. now apply pretty_nat_inj in H.
Qed.

Lemma fl_key_not_sort_key i j : fl_key i <> sort_key j.
Proof. unfold fl_key, sort_key. rewrite !append_cons. discriminate. Qed.

Lemma fl_key_not_output i : fl_key i <> "output".
Proof. unfold fl_key. rewrite !append_cons. discriminate. Qed.

Lemma sort_key_not_output i : sort_key i <> "output".
Proof. unfold sort_key. rewrite !append_cons. discriminate. Qed.

(** What the indexed insertion leaves in the map. *)
Lemma set_indexed_miss (key : nat -> string) xs :
  forall i0 p k,
    (forall j, (j < length xs)%nat -> key (i0 + j)%nat <> k) ->
    set_indexed key i0 xs p !! k = p !! k.
Proof.
  induction xs as [|x xs IH]; intros i0 p k Hk; [reflexivity|].
  cbn [set_indexed]. rewrite IH.
  - apply lookup_insert_ne. specialize (Hk 0%nat). rewrite Nat.add_0_r in Hk.
    apply Hk. cbn [length]. lia.
  - intros j Hj. replace (S i0 + j)%nat with (i0 + S j)%nat by lia.
    apply Hk. cbn [length]. lia.
Qed.

Lemma set_indexed_hit (key : nat -> string) xs :
  (forall i j, key i = key j -> i = j) ->
  forall i0 p j x,
    xs !! j = Some x ->
    set_indexed key i0 xs p !! key (i0 + j)%nat = Some (PStr x).
Proof.
  intros Hinj. induction xs as [|y xs IH]; intros i0 p j x Hj; [discriminate|].
  cbn [set_indexed]. destruct j as [|j].
  - injection Hj as ->. rewrite Nat.add_0_r.
    rewrite set_indexed_miss; [apply lookup_insert_eq|].
    intros j _ Heq. apply Hinj in Heq. lia.
  - replace (i0 + S j)%nat with (S i0 + j)%nat by lia. now apply IH.
Qed.

Lemma advanced_fields_identifier fs : In "identifier" (advanced_fields fs).
Proof.
  unfold advanced_fields, str_in.
  destruct (existsb (String.eqb "identifier") fs) eqn:E.
  - apply existsb_exists in E as (x & Hin & Heq).
    apply String.eqb_eq in Heq. now subst x.
  - apply in_or_app. right. now left.
Qed.

Lemma str_in_In x xs : str_in x xs = true <-> In x xs.
Proof.
  unfold str_in. rewrite existsb_exists. split.
  - intros (y & Hin & Heq). apply String.eqb_eq in Heq. now subst y.
  - intros Hin. exists x. split; [exact Hin | apply String.eqb_refl].
Qed.

Lemma advanced_fields_present fs :
  In "identifier" fs -> advanced_fields fs = fs.
Proof.
  intros Hin. unfold advanced_fields.
  now rewrite (proj2 (str_in_In "identifier" fs) Hin).
Qed.

Lemma advanced_fields_absent fs :
  ~ In "identifier" fs -> advanced_fields fs = fs ++ ["identifier"].
Proof.
  intros Hout. unfold advanced_fields.
  destruct (str_in "identifier" fs) eqn:E; [|reflexivity].
  now apply str_in_In in E.
Qed.

(** X9: whatever the transport answers, the offset-paged enumeration issues
    exactly one request and never lets an exception out. The fields asked
    for are the caller's, in the caller's order, with ["identifier"]
    appended when it is not among them. The request carries the caller's
    parameters and, over them, these fields as [fl[0]], [fl[1]], ..., the
    sort list as [sort[0]], ..., and [output=json]. *)
Theorem advanced_search_request (int : pyval -> result Z) (client_get : Transport)
    (self : t) :
  let o := search_options self in
  let r := _advanced_search int client_get self in
  let sent := params (search_options (g_final r)) in
  let requested := fields (search_options (g_final r)) in
  g_end r = Exhausted
  /\ get_requests (g_trace r) = [sent]
  /\ In "identifier" requested
  /\ (In "identifier" (fields o) -> requested = fields o)
  /\ (~ In "identifier" (fields o) -> requested = fields o ++ ["identifier"])
  /\ (forall i f, requested !! i = Some f -> sent !! fl_key i = Some (PStr f))
  /\ (forall i s, sorts o !! i = Some s -> sent !! sort_key i = Some (PStr s))
  /\ sent !! "output" = Some (PStr "json")
  /\ (forall k, (forall i, k <> fl_key i) -> (forall i, k <> sort_key i) ->
                k <> "output" -> sent !! k = params o !! k).
Proof.
  cbn zeta.
  set (p := params (search_options (advanced_prepare self))).
  assert (Hrun :
    g_end (_advanced_search int client_get self) = Exhausted
    /\ get_requests (g_trace (_advanced_search int client_get self)) = [p]
    /\ search_options (g_final (_advanced_search int client_get self))
       = search_options (advanced_prepare self)).
  { unfold _advanced_search. fold p.
    destruct (client_get 0%nat p) as [resp|e]; [|now repeat split].
    destruct (bind (response_field resp "numFound" (PInt 0)) int) as [n|e];
      [|now repeat split].
    assert (Hopts : search_options
              (if num_found_unset (advanced_prepare self)
               then set_num_found (advanced_prepare self) (PInt n)
               else advanced_prepare self)
            = search_options (advanced_prepare self))
      by now destruct (num_found_unset (advanced_prepare self)).
    destruct (bind (response_field resp "docs" (PList [])) py_iter) as [docs|e];
      cbn [g_end g_trace g_final]; [|now repeat split].
    repeat split; [|exact Hopts].
    cbn [get_requests flat_map app]. f_equal.
    induction docs as [|d docs IH]; [reflexivity | exact IH]. }
  destruct Hrun as (Hend & Hreq & Hopts). rewrite Hopts. fold p.
  split; [exact Hend|]. split; [exact Hreq|].
  split; [apply advanced_fields_identifier|].
  unfold p, advanced_prepare. cbn [params fields search_options].
  split; [now apply advanced_fields_present|].
  split; [now apply advanced_fields_absent|].
  split; [|split; [|split]].
  - intros i f Hi. rewrite lookup_insert_ne by (intros H; symmetry in H; now apply fl_key_not_output in H).
    rewrite set_indexed_miss
      by (intros j _ H; symmetry in H; now apply fl_key_not_sort_key in H).
    apply (set_indexed_hit fl_key _ fl_key_inj 0%nat). exact Hi.
  - intros i s Hi. rewrite lookup_insert_ne by (intros H; symmetry in H; now apply sort_key_not_output in H).
    apply (set_indexed_hit sort_key _ sort_key_inj 0%nat). exact Hi.
  - apply lookup_insert_eq.
  - intros k Hfl Hsort Hout. rewrite lookup_insert_ne by congruence.
    rewrite set_indexed_miss by (intros j _ H; now apply (Hsort (0 + j)%nat)).
    apply set_indexed_miss. intros j _ H. now apply (Hfl (0 + j)%nat).
Qed.

Lemma records_map_EvRecord docs : records (map EvRecord docs) = docs.
Proof. induction docs as [|d docs IH]; [reflexivity|]. cbn. now f_equal. Qed.

(** X10: when the request succeeds and the answer decodes, the documents of
    the answer are yielded in their order, and the count of the answer is
    kept only if the object has no count (or a zero count) yet. *)
Theorem advanced_search_records (int : pyval -> result Z) (client_get : Transport)
    (self : t) (response_json count : pyval) (num_found : Z) (docs : list pyval) :
  client_get 0%nat (params (search_options (advanced_prepare self)))
  = Ok response_json ->
  response_field response_json "numFound" (PInt 0) = Ok count ->
  int count = Ok num_found ->
  response_field response_json "docs" (PList []) = Ok (PList docs) ->
  let r := _advanced_search int client_get self in
  records (g_trace r) = docs
  /\ _num_found (g_final r)
     = match _num_found self with
       | Some v => if truthy v then Some v else Some (PInt num_found)
       | None => Some (PInt num_found)
       end.
Proof.
  intros Hget Hcount Hint Hdocs. cbn zeta. unfold _advanced_search.
  rewrite Hget, Hcount. cbn [bind]. rewrite Hint, Hdocs. cbn [bind py_iter].
  cbn [g_trace g_final]. split.
  - cbn [records flat_map app]. apply records_map_EvRecord.
  - unfold num_found_unset.
    change (_num_found (advanced_prepare self)) with (_num_found self).
    destruct (_num_found self) as [v|] eqn:E; [|reflexivity].
    destruct (truthy v); cbn [negb]; [exact E | reflexivity].
Qed.

Lemma has_key_spec k (m : gmap string pyval) :
  has_key k m = match m !! k with Some _ => true | None => false end.
Proof.
  destruct (m !! k) as [v|] eqn:E;
    [now apply (has_key_true k m v) | now apply has_key_false].
Qed.

Lemma init_final_has_key (o : SearchOptions) k :
  k <> "index" -> k <> "scope" -> k <> "page" ->
  k <> "q" -> k <> "count" -> k <> "output" ->
  has_key k (init_final_params o) = has_key k (params o).
Proof.
  intros Hi Hs Hp Hq Hc Ho. rewrite !has_key_spec. unfold init_final_params.
  destruct (params o !! k) as [v|] eqn:E.
  - erewrite lookup_union_Some_l; [reflexivity|].
    apply init_scope_page_keeps; [exact E | exact Hi | congruence].
  - rewrite lookup_union_r by now apply init_scope_page_absent.
    unfold init_default_params.
    destruct (negb _); [destruct (has_key "rows" _)|];
      rewrite ?lookup_insert_ne by congruence;
      now rewrite lookup_singleton_ne by congruence.
Qed.

Lemma init_final_page (o : SearchOptions) :
  init_final_params o !! "page"
  = match params o !! "page" with
    | Some v => Some v
    | None => if has_key "rows" (params o) then Some (PInt 1) else None
    end.
Proof.
  unfold init_final_params.
  assert (Hdef : init_default_params o !! "page" = None).
  { unfold init_default_params.
    destruct (negb _); [destruct (has_key "rows" _)|];
      rewrite ?lookup_insert_ne by discriminate;
      now rewrite lookup_singleton_ne by discriminate. }
  assert (Hscope : forall p : gmap string pyval, init_scope p !! "page" = p !! "page").
  { intros p. unfold init_scope. destruct (p !! "index"); [|reflexivity].
    rewrite lookup_delete_ne by discriminate.
    now rewrite lookup_insert_ne by discriminate. }
  rewrite lookup_union, Hscope, Hdef.
  unfold init_page. rewrite has_key_spec.
  destruct (params o !! "page") as [v|] eqn:E; cbn [negb].
  - now rewrite E.
  - destruct (has_key "rows" (params o)).
    + now rewrite lookup_insert_eq.
    + now rewrite E.
Qed.

Lemma select_mode_init (o : SearchOptions) :
  select_mode (init o)
  = (if fts o || dsl_fts o then FullTextScroll
     else if has_key "user_aggs" (params o) then UserAggs
     else if has_key "page" (params o) || has_key "rows" (params o) then OffsetPaged
     else BulkScrape).
Proof.
  unfold select_mode. cbn [init search_options fts params].
  unfold init_fts, init_dsl_fts.
  destruct (fts o), (dsl_fts o); cbn [negb orb]; try reflexivity.
  rewrite init_final_has_key by discriminate.
  destruct (has_key "user_aggs" (params o)); [reflexivity|].
  rewrite (has_key_spec "page" (init_final_params o)), init_final_page.
  rewrite (has_key_spec "page" (params o)).
  destruct (params o !! "page"); [reflexivity|].
  now destruct (has_key "rows" (params o)).
Qed.

(** X11: the protocol that a freshly constructed search uses. Either
    full-text flag selects the full-text scroll; otherwise a ["user_aggs"]
    parameter selects the aggregations; otherwise ["page"] or ["rows"]
    selects offset paging, where ["rows"] alone makes the constructor add
    [page = 1]; otherwise the bulk scrape runs. *)
Theorem mode_after_init (o : SearchOptions) :
  select_mode (init o)
  = (if fts o || dsl_fts o then FullTextScroll
     else if has_key "user_aggs" (params o) then UserAggs
     else if has_key "page" (params o) || has_key "rows" (params o) then OffsetPaged
     else BulkScrape)
  /\ (has_key "page" (params o) = false -> has_key "rows" (params o) = true ->
      params (search_options (init o)) !! "page" = Some (PInt 1)).
Proof.
  split; [apply select_mode_init|].
  - intros Hp Hr. cbn [init search_options params].
    rewrite init_final_page. rewrite has_key_spec in Hp.
    destruct (params o !! "page"); [discriminate|]. now rewrite Hr.
Qed.


(** X13: aggregations asked for together with ["rows"] or ["page"] fail
    before any request is made: the constructor adds the ["count"] default
    only when neither is given, and the enumeration begins by deleting
    that entry. *)
Theorem user_aggs_with_rows_raises (client_get : Transport) (o : SearchOptions) :
  fts o = false -> dsl_fts o = false ->
  has_key "user_aggs" (params o) = true ->
  has_key "page" (params o) || has_key "rows" (params o) = true ->
  params o !! "count" = None ->
  select_mode (init o) = UserAggs
  /\ _user_aggs client_get (init o)
     = mkGetRun [] (init o) (Propagated (KeyError "count")).
Proof.
  intros Hfts Hdsl Haggs Hpaged Hcount. split.
  - rewrite select_mode_init, Hfts, Hdsl, Haggs. reflexivity.
  - unfold _user_aggs. cbn [init search_options params].
    assert (Hnone : init_final_params o !! "count" = None).
    { unfold init_final_params.
      rewrite lookup_union_r
        by (apply init_scope_page_absent; [exact Hcount | discriminate | discriminate]).
      unfold init_default_params.
      destruct (has_key "page" (params o)); cbn [negb].
      - rewrite lookup_insert_ne by discriminate.
        now rewrite lookup_singleton_ne by discriminate.
      - cbn [orb] in Hpaged. rewrite Hpaged.
        now rewrite lookup_singleton_ne by discriminate. }
    now rewrite Hnone.
Qed.

(** *** The two scrolling loops *)

Lemma yields_app tr1 tr2 : yields (tr1 ++ tr2) = yields tr1 ++ yields tr2.
Proof. unfold yields. apply flat_map_app. Qed.

Lemma yields_map_EvYield vs : yields (map EvYield vs) = vs.
Proof. induction vs as [|v vs IH]; [reflexivity|]. cbn. now f_equal. Qed.

Lemma post_payloads_app tr1 tr2 :
  post_payloads (tr1 ++ tr2) = post_payloads tr1 ++ post_payloads tr2.
Proof. unfold post_payloads. apply flat_map_app. Qed.

Lemma post_payloads_map_EvYield vs : post_payloads (map EvYield vs) = [].
Proof. induction vs as [|v vs IH]; [reflexivity | exact IH]. Qed.

Lemma scrape_step_params (self : t) (a : attempt) :
  params (search_options
            match num_found_set a with
            | Some total => set_num_found self total
            | None => self
            end)
  = params (search_options self).
Proof. now destruct (num_found_set a). Qed.

Lemma scrape_loop_payloads (client_post : Transport) fuel :
  forall n self,
    let r := scrape_loop fuel client_post n self in
    post_payloads (trace r)
    = repeat (params (search_options self)) (posts (trace r))
    /\ params (search_options (final r)) = params (search_options self).
Proof.
  induction fuel as [|fuel IH]; intros n self; cbn zeta; [now split|].
  cbn [scrape_loop].
  destruct (client_post n (params (search_options self))) as [j|e]; [|now split].
  set (self' := match num_found_set (scrape_body j) with
                | Some total => set_num_found self total
                | None => self
                end).
  assert (Hp : params (search_options self') = params (search_options self))
    by apply scrape_step_params.
  destruct (raised (scrape_body j)); cbn [trace final].
  - split; [|exact Hp].
    rewrite posts_cons_post, posts_yields. cbn [post_payloads flat_map app repeat].
    f_equal. apply post_payloads_map_EvYield.
  - destruct (IH (S n) self') as [Hpay Hfin]. cbn zeta in Hpay, Hfin.
    split; [|now rewrite Hfin].
    rewrite <- app_comm_cons, posts_cons_post, posts_app, posts_yields.
    cbn [post_payloads flat_map app repeat Nat.add]. f_equal.
    fold (post_payloads (map EvYield (yielded (scrape_body j))
                         ++ trace (scrape_loop fuel client_post (S n) self'))).
    rewrite post_payloads_app, post_payloads_map_EvYield, Hpay, Hp. reflexivity.
Qed.

(** X14: the bulk scrape never moves on. However long it runs and whatever
    the service answers (a cursor included), every request is sent to the
    scrape address with the parameters of the first one. *)
Theorem scrape_repeats_its_first_request (client_post : Transport) (fuel : nat)
    (self : t) :
  let r := _scrape fuel client_post self in
  let first := params (search_options (scrape_prepare self)) in
  post_payloads (trace r) = repeat first (posts (trace r))
  /\ params (search_options (final r)) = first
  /\ first !! "cursor" = params (search_options self) !! "cursor".
Proof.
  cbn zeta. unfold _scrape.
  destruct (scrape_loop_payloads client_post fuel 0%nat (scrape_prepare self))
    as [Hpay Hfin].
  split; [exact Hpay|]. split; [exact Hfin|].
  unfold scrape_prepare. cbn [set_params search_options params].
  destruct (sorts (search_options self)), (fields (search_options self));
    now rewrite ?lookup_insert_ne by discriminate.
Qed.

Lemma scrape_loop_S (client_post : Transport) fuel n self :
  scrape_loop (S fuel) client_post n self
  = let payload := params (search_options self) in
    let request := EvPost SCRAPE_URL payload in
    match client_post n payload with
    | Raise _ => mkRun [request] self Finished
    | Ok json_response =>
        let a := scrape_body json_response in
        let self' :=
          match num_found_set a with
          | Some total => set_num_found self total
          | None => self
          end in
        let evs := request :: map EvYield (yielded a) in
        match raised a with
        | Some _ => mkRun evs self' Finished
        | None =>
            let r := scrape_loop fuel client_post (S n) self' in
            mkRun (evs ++ trace r) (final r) (status r)
        end
    end.
Proof. reflexivity. Qed.

Lemma fts_loop_S (client_post : Transport) fuel n data self :
  fts_loop (S fuel) client_post n data self
  = let request := EvPost FTS_URL data in
    let again (evs : list event) (data' : gmap string pyval) :=
      let r := fts_loop fuel client_post (S n) data' self in
      mkRun (evs ++ trace r) (final r) (status r) in
    match client_post n data with
    | Raise _ => again [request] data
    | Ok json_response =>
        match fts_body data json_response with
        | FtsReturn => mkRun [request] self Finished
        | FtsBreak hits => mkRun [request; EvYield hits] self Finished
        | FtsNext hits data' => again [request; EvYield hits] data'
        | FtsExcept _ => again [request] data
        end
    end.
Proof. reflexivity. Qed.

(** What [stop], the outcome of the last request, adds to the run. *)
Lemma scrape_loop_script (client_post : Transport) (stop : result pyval) extra :
  forall resps n self,
    (forall i resp, resps !! i = Some resp ->
       client_post (n + i)%nat (params (search_options self)) = Ok resp) ->
    Forall handled resps ->
    client_post (n + length resps)%nat (params (search_options self)) = stop ->
    match stop with Ok resp => ~ handled resp | Raise _ => True end ->
    let r := scrape_loop (S (length resps) + extra) client_post n self in
    status r = Finished
    /\ posts (trace r) = S (length resps)
    /\ yields (trace r)
       = concat (map (fun resp => yielded (scrape_body resp)) resps)
         ++ match stop with Ok resp => yielded (scrape_body resp) | Raise _ => [] end
    /\ _num_found (final r)
       = last_total (resps ++ match stop with Ok resp => [resp] | Raise _ => [] end)
           (_num_found self).
Proof.
  induction resps as [|resp resps IH]; intros n self Hanswers Hok Hstop Hbad.
  - cbn [length] in Hstop. rewrite Nat.add_0_r in Hstop.
    cbn zeta. cbn [length Nat.add scrape_loop]. rewrite Hstop.
    destruct stop as [resp|e]; [|now repeat split].
    unfold handled in Hbad.
    destruct (raised (scrape_body resp)) as [e|]; [|now contradiction Hbad].
    cbn [status trace final]. split; [reflexivity|].
    split; [now rewrite posts_cons_post, posts_yields|].
    split.
    + cbn [map concat app yields flat_map].
      apply (yields_map_EvYield (yielded (scrape_body resp))).
    + cbn [app last_total fold_left].
      now destruct (num_found_set (scrape_body resp)).
  - cbn zeta. cbn [length Nat.add]. rewrite scrape_loop_S. cbn zeta.
    pose proof (Hanswers 0%nat resp eq_refl) as H0. rewrite Nat.add_0_r in H0.
    rewrite H0. apply Forall_cons in Hok as [Hresp Hrest].
    unfold handled in Hresp. rewrite Hresp.
    set (self' := match num_found_set (scrape_body resp) with
                  | Some total => set_num_found self total
                  | None => self
                  end).
    assert (Hp : params (search_options self') = params (search_options self))
      by apply scrape_step_params.
    destruct (IH (S n) self') as (Hs & Hposts & Hy & Hn).
    + intros i r Hi. rewrite Hp.
      replace (S n + i)%nat with (n + S i)%nat by lia. now apply Hanswers.
    + exact Hrest.
    + rewrite Hp. replace (S n + length resps)%nat with (n + length (resp :: resps))%nat
        by (cbn [length]; lia). exact Hstop.
    + exact Hbad.
    + cbn zeta in Hs, Hposts, Hy, Hn. cbn [Nat.add] in Hs, Hposts, Hy, Hn.
      cbn [status trace final]. split; [exact Hs|].
      split; [now rewrite <- app_comm_cons, posts_cons_post, posts_app, posts_yields, Hposts|].
      split.
      * rewrite <- app_comm_cons. cbn [yields flat_map app].
        fold (yields (map EvYield (yielded (scrape_body resp))
                      ++ trace (scrape_loop (S (length resps + extra)) client_post (S n) self'))).
        rewrite yields_app, yields_map_EvYield, Hy.
        cbn [map concat]. now rewrite app_assoc.
      * rewrite Hn. rewrite <- app_comm_cons. cbn [last_total fold_left].
        unfold last_total. f_equal. unfold self'.
        now destruct (num_found_set (scrape_body resp)).
Qed.

(** X15: the complete enumeration of the bulk scrape. While the service
    answers with responses that the loop handles, their records are
    yielded in order, empty batches included; the run ends at the first
    request that raises, or whose answer cannot be handled, and then yields
    what that answer had given up to the exception. The count is the total
    of the last answer that had one. *)
Theorem scrape_enumeration (client_post : Transport) (self : t)
    (resps : list pyval) (stop : result pyval) (extra : nat) :
  (forall i resp, resps !! i = Some resp ->
     client_post i (params (search_options (scrape_prepare self))) = Ok resp) ->
  Forall handled resps ->
  client_post (length resps) (params (search_options (scrape_prepare self))) = stop ->
  match stop with Ok resp => ~ handled resp | Raise _ => True end ->
  let r := _scrape (S (length resps) + extra) client_post self in
  status r = Finished
  /\ posts (trace r) = S (length resps)
  /\ yields (trace r)
     = concat (map (fun resp => yielded (scrape_body resp)) resps)
       ++ match stop with Ok resp => yielded (scrape_body resp) | Raise _ => [] end
  /\ _num_found (final r)
     = last_total (resps ++ match stop with Ok resp => [resp] | Raise _ => [] end)
         (_num_found self).
Proof.
  intros Hanswers Hok Hstop Hbad. unfold _scrape.
  apply (scrape_loop_script client_post stop extra resps 0%nat (scrape_prepare self));
    assumption.
Qed.

(** X16: an answer that reports an error is handed to the consumer as if it
    were a record. When it has no ["items"], as the error answers of the
    service have, the enumeration ends there, and the count is the
    ["total"] of the answer or 0. *)
Theorem scrape_error_answer_is_yielded (client_post : Transport) (self : t)
    (kvs : list (string * pyval)) (err : pyval) (fuel : nat) :
  client_post 0%nat (params (search_options (scrape_prepare self))) = Ok (PDict kvs) ->
  assoc "error" kvs = Some err ->
  truthy err = true ->
  assoc "items" kvs = None ->
  let r := _scrape (S fuel) client_post self in
  status r = Finished
  /\ posts (trace r) = 1%nat
  /\ yields (trace r) = [PDict kvs]
  /\ _num_found (final r) = Some (default (PInt 0) (assoc "total" kvs)).
Proof.
  intros Hpost Herr Htruthy Hitems. cbn zeta. unfold _scrape.
  cbn [scrape_loop]. rewrite Hpost.
  unfold scrape_body. cbn [py_get py_getitem bind].
  rewrite Herr, Hitems. change (default PNone (Some err)) with err. rewrite Htruthy.
  cbn [bind raised yielded num_found_set status trace final map].
  repeat split.
Qed.

Lemma has_hits_step (data : gmap string pyval) s page :
  data !! "scroll" = Some (PStr s) ->
  has_hits page ->
  fts_body data page
  = FtsNext (hits_of page) (<["scroll_id" := scroll_id_of page]> data).
Proof.
  intros Hs [[kvs ->] (hits & Hhits & Htruthy)].
  unfold fts_body, hits_of, scroll_id_of. rewrite Hhits.
  unfold response_hits in Hhits. cbn [py_get] in Hhits |- *.
  rewrite Hhits, Htruthy, Hs. reflexivity.
Qed.

Lemma fts_loop_script (client_post : Transport) (last : pyval) extra (self : t) :
  no_hits last ->
  forall pages n data s,
    data !! "scroll" = Some (PStr s) ->
    (forall i page d, pages !! i = Some page -> client_post (n + i)%nat d = Ok page) ->
    (forall d, client_post (n + length pages)%nat d = Ok last) ->
    Forall has_hits pages ->
    let r := fts_loop (S (length pages) + extra) client_post n data self in
    status r = Finished
    /\ yields (trace r) = map hits_of pages
    /\ post_payloads (trace r) = scroll_payloads data pages.
Proof.
  intros Hlast. induction pages as [|page pages IH];
    intros n data s Hs Hanswers Hend Hhits.
  - cbn zeta. cbn [length Nat.add].
    rewrite (fts_stops_on_no_hits client_post n data self last).
    + now repeat split.
    + specialize (Hend data). cbn [length] in Hend. now rewrite Nat.add_0_r in Hend.
    + exact Hlast.
  - cbn zeta. cbn [length Nat.add]. rewrite fts_loop_S. cbn zeta.
    pose proof (Hanswers 0%nat page data eq_refl) as H0. rewrite Nat.add_0_r in H0.
    rewrite H0. apply Forall_cons in Hhits as [Hpage Hrest].
    rewrite (has_hits_step data s page Hs Hpage).
    destruct (IH (S n) (<["scroll_id" := scroll_id_of page]> data) s)
      as (Hst & Hy & Hpay).
    + now rewrite lookup_insert_ne by discriminate.
    + intros i p d Hi. replace (S n + i)%nat with (n + S i)%nat by lia.
      now apply Hanswers.
    + intros d. replace (S n + length pages)%nat with (n + length (page :: pages))%nat
        by (cbn [length]; lia). apply Hend.
    + exact Hrest.
    + cbn zeta in Hst, Hy, Hpay. cbn [Nat.add] in Hst, Hy, Hpay.
      cbn [status trace]. split; [exact Hst|]. split.
      * cbn [app yields flat_map map]. f_equal. exact Hy.
      * cbn [app post_payloads flat_map scroll_payloads]. f_equal. exact Hpay.
Qed.

(** X17: the complete enumeration of the full-text scroll. While the
    service answers with pages that carry hits, the hit lists are yielded
    page by page, each request after the first carries the [_scroll_id] of
    the page before it, and the first page without hits ends the run. *)
Theorem fts_scroll_enumeration (client_post : Transport) (self : t)
    (pages : list pyval) (last : pyval) (extra : nat) :
  (forall i page d, pages !! i = Some page -> client_post i d = Ok page) ->
  (forall d, client_post (length pages) d = Ok last) ->
  Forall has_hits pages ->
  no_hits last ->
  let r := _full_text_search (S (length pages) + extra) client_post self in
  status r = Finished
  /\ yields (trace r) = map hits_of pages
  /\ post_payloads (trace r) = scroll_payloads (fts_data self) pages.
Proof.
  intros Hanswers Hend Hhits Hlast. unfold _full_text_search.
  destruct (fts_data_scroll self) as [Hs|Hs];
    eapply (fts_loop_script client_post last extra self Hlast pages 0%nat); eauto.
Qed.

Lemma fts_loop_all_fail (client_post : Transport) :
  (forall n d, exists e, client_post n d = Raise e) ->
  forall fuel n data self,
    let r := fts_loop fuel client_post n data self in
    status r = Running
    /\ yields (trace r) = []
    /\ post_payloads (trace r) = repeat data fuel.
Proof.
  intros Hfail. induction fuel as [|fuel IH]; intros n data self; cbn zeta.
  - now repeat split.
  - cbn [fts_loop]. destruct (Hfail n data) as [e ->].
    destruct (IH (S n) data self) as (Hs & Hy & Hp). cbn zeta in Hs, Hy, Hp.
    cbn [status trace final app]. split; [exact Hs|]. split.
    + exact Hy.
    + cbn [post_payloads flat_map app repeat]. f_equal. exact Hp.
Qed.

(** X18: the full-text scroll has no retry budget and no pause. When every
    request fails, it sends the same request again at once, for as long as
    it is driven; it never yields and never ends. *)
Theorem fts_retries_without_end (client_post : Transport) (self : t) :
  (forall n d, exists e, client_post n d = Raise e) ->
  forall fuel,
    let r := _full_text_search fuel client_post self in
    status r = Running
    /\ yields (trace r) = []
    /\ post_payloads (trace r) = repeat (fts_data self) fuel.
Proof.
  intros Hfail fuel. apply (fts_loop_all_fail client_post Hfail).
Qed.

(** X19: the constructor changes the options object it is given. Options
    used for a second full-text search carry the literal-match marker
    twice in [query], which is what the full-text request sends, while the
    ["q"] parameter keeps the single marker of the first construction. *)
Theorem reused_options_are_marked_twice (o : SearchOptions) :
  fts o = true -> dsl_fts o = false -> params o !! "q" = None ->
  let second := init (search_options (init o)) in
  fts_data second !! "q" = Some (PStr ("!L " +:+ "!L " +:+ query o))
  /\ params (search_options second) !! "q" = Some (PStr ("!L " +:+ query o)).
Proof.
  intros Hfts Hdsl Hq. cbn zeta.
  assert (Hq1 : init_query o = "!L " +:+ query o).
  { unfold init_query, init_fts, init_dsl_fts. now rewrite Hfts, Hdsl. }
  assert (Hfirst : init_final_params o !! "q" = Some (PStr ("!L " +:+ query o))).
  { unfold init_final_params.
    rewrite lookup_union_r
      by (apply init_scope_page_absent; [exact Hq | discriminate | discriminate]).
    unfold init_default_params. rewrite Hq1.
    destruct (negb _); [destruct (has_key "rows" _)|];
      rewrite ?lookup_insert_ne by discriminate; apply lookup_singleton_eq. }
  set (o2 := search_options (init o)).
  assert (Hq2 : init_query o2 = "!L " +:+ "!L " +:+ query o).
  { unfold init_query, init_fts, init_dsl_fts, o2.
    cbn [init search_options query fts dsl_fts].
    unfold init_fts, init_dsl_fts. rewrite Hfts, Hdsl. cbn [negb orb andb].
    now rewrite Hq1. }
  split.
  - unfold fts_data. cbn [init search_options query params]. rewrite Hq2.
    destruct (init_final_params o2 !! "size"), (init_final_params o2 !! "scope");
      rewrite ?lookup_insert_ne by discriminate; apply lookup_singleton_eq.
  - cbn [init search_options params]. unfold init_final_params.
    apply lookup_union_Some_l. apply init_scope_page_keeps.
    + exact Hfirst.
    + discriminate.
    + discriminate.
Qed.

End SearchModeFacts.

Section SearchModeExamples.

Import AsyncSearch AsyncSearchModes.

(** On the transport of two batches, an empty batch, one more batch and a
    failure, the four answers are handled and the fifth request ends the
    run. *)
Lemma scrape_enumeration_witness :
  yields (trace (_scrape 7 two_batches_then_empty (init (plain_options "collection:x"))))
  = [record "a"; record "b"; record "c"; record "d"].
Proof.
  pose proof (scrape_enumeration two_batches_then_empty
                (init (plain_options "collection:x"))
                [scrape_response 4 [record "a"; record "b"];
                 scrape_response 4 [record "c"];
                 scrape_response 4 [];
                 scrape_response 4 [record "d"]]
                (Raise (ClientError "connection reset")) 2) as H.
  cbn zeta in H.
  destruct H as (_ & _ & Hy & _).
  - intros [|[|[|[|i]]]] resp Hi; try discriminate; injection Hi as <-; reflexivity.
  - repeat constructor.
  - reflexivity.
  - exact I.
  - exact Hy.
Defined.

Lemma advanced_search_records_witness :
  records (g_trace (_advanced_search int_of_json one_page (init paged_options)))
  = [record "c"; record "d"]
  /\ _num_found (g_final (_advanced_search int_of_json one_page (init paged_options)))
     = Some (PInt 4).
Proof.
  apply (advanced_search_records int_of_json one_page (init paged_options)
           (advanced_response 4 [record "c"; record "d"]) (PInt 4) 4
           [record "c"; record "d"]); reflexivity.
Defined.

Lemma user_aggs_with_rows_raises_witness :
  select_mode (init aggs_options) = UserAggs
  /\ _user_aggs down (init aggs_options)
     = mkGetRun [] (init aggs_options) (Propagated (KeyError "count")).
Proof. apply (user_aggs_with_rows_raises down aggs_options); reflexivity. Defined.

Lemma scrape_error_answer_is_yielded_witness :
  yields (trace (_scrape 3 answers_error (init (plain_options "collection:x"))))
  = [scrape_error "bad query"].
Proof.
  apply (scrape_error_answer_is_yielded answers_error
           (init (plain_options "collection:x")) [("error", PStr "bad query")]
           (PStr "bad query") 2); reflexivity.
Defined.

Lemma fts_scroll_enumeration_witness :
  yields (trace (_full_text_search 5 three_pages (init (fts_options "chess"))))
  = [PList [record "a"]; PList [record "b"]].
Proof.
  pose proof (fts_scroll_enumeration three_pages (init (fts_options "chess"))
                [fts_response "s1" [record "a"]; fts_response "s2" [record "b"]]
                (fts_response "s3" []) 2) as H.
  cbn zeta in H. destruct H as (_ & Hy & _).
  - intros [|[|i]] page d Hi; try discriminate; injection Hi as <-; reflexivity.
  - reflexivity.
  - repeat constructor; eexists; reflexivity || (split; reflexivity).
  - split; [eexists; reflexivity | eexists; split; reflexivity].
  - exact Hy.
Defined.

Lemma fts_retries_without_end_witness :
  status (_full_text_search 5 down (init (fts_options "chess"))) = Running
  /\ posts (trace (_full_text_search 5 down (init (fts_options "chess")))) = 5%nat.
Proof.
  pose proof (fts_retries_without_end down (init (fts_options "chess"))) as H.
  split.
  - apply H. intros n d. eexists. reflexivity.
  - reflexivity.
Defined.

Lemma reused_options_are_marked_twice_witness :
  fts_data (init (search_options (init (fts_options "chess")))) !! "q"
  = Some (PStr "!L !L chess").
Proof.
  apply (reused_options_are_marked_twice (fts_options "chess")); reflexivity.
Defined.

End SearchModeExamples.

(** ** Edits of a ruleset *)

Section QueryBuilderEditFacts.

Import QueryBuilder QueryBuilderEdits.

Lemma add_positive_rule_other m rule k :
  rule_key rule <> Some k ->
  add_positive_rule m rule !! k = m !! k.
Proof.
  unfold rule_key, add_positive_rule. intros Hk.
  destruct (field rule) as [f|].
  - apply lookup_insert_ne. congruence.
  - destruct (date rule) as [dl|]; [|reflexivity].
    destruct (default [] (ranges dl)) as [|r rs]; [reflexivity|].
    apply lookup_insert_ne. congruence.
Qed.

Lemma add_positive_rule_key m m' rule k :
  rule_key rule = Some k ->
  add_positive_rule m rule !! k = add_positive_rule m' rule !! k.
Proof.
  unfold rule_key, add_positive_rule. intros Hk.
  destruct (field rule) as [f|].
  - injection Hk as ->. now rewrite !lookup_insert_eq.
  - destruct (date rule) as [dl|]; [|discriminate].
    destruct (default [] (ranges dl)) as [|r rs]; [discriminate|].
    injection Hk as <-. now rewrite !lookup_insert_eq.
Qed.

(** Two maps that agree at a key still agree there after the same rules. *)
Lemma fold_rules_agree rules k :
  forall m m' : gmap string RuleLogic,
    m !! k = m' !! k ->
    fold_left add_positive_rule rules m !! k
    = fold_left add_positive_rule rules m' !! k.
Proof.
  induction rules as [|r rules IH]; intros m m' H; [exact H|].
  cbn [fold_left]. apply IH.
  destruct (decide (rule_key r = Some k)) as [Hk|Hk].
  - now apply add_positive_rule_key.
  - now rewrite !add_positive_rule_other.
Qed.

(** A later rule with the same key makes the maps agree whatever they
    were. *)
Lemma fold_rules_overwritten rules k :
  Exists (fun r => rule_key r = Some k) rules ->
  forall m m' : gmap string RuleLogic,
    fold_left add_positive_rule rules m !! k
    = fold_left add_positive_rule rules m' !! k.
Proof.
  induction 1 as [r rules Hr|r rules _ IH]; intros m m'; cbn [fold_left].
  - apply fold_rules_agree. now apply add_positive_rule_key.
  - apply IH.
Qed.

Lemma fold_rules_app rules1 rules2 (m : gmap string RuleLogic) :
  fold_left add_positive_rule (rules1 ++ rules2) m
  = fold_left add_positive_rule rules2 (fold_left add_positive_rule rules1 m).
Proof. apply fold_left_app. Qed.

(** [build] reads the rule map at the fields of the groups only. *)
Lemma build_reads_grouped_fields cfg cfg' :
  groups cfg' = groups cfg ->
  not_to_be cfg' = not_to_be cfg ->
  (forall f, grouped cfg f ->
             positive_rules_map cfg' !! f = positive_rules_map cfg !! f) ->
  build cfg' = build cfg.
Proof.
  intros Hg Hn Hm. rewrite !build_spec. f_equal. unfold spec_build. f_equal.
  f_equal; [|unfold spec_not_clauses; now rewrite Hn].
  unfold spec_group_clauses. rewrite Hg.
  assert (Hall : forall group, In group (default [] (groups cfg)) ->
            flat_map (spec_field_clauses (positive_rules_map cfg')) group
            = flat_map (spec_field_clauses (positive_rules_map cfg)) group).
  { intros group Hin.
    assert (Hsub : forall fs, (forall f, In f fs -> In f group) ->
              flat_map (spec_field_clauses (positive_rules_map cfg')) fs
              = flat_map (spec_field_clauses (positive_rules_map cfg)) fs).
    { induction fs as [|f fs IHfs]; intros Hfs; [reflexivity|].
      cbn [flat_map]. rewrite IHfs by (intros f' Hf'; apply Hfs; now right).
      f_equal. unfold spec_field_clauses. rewrite Hm; [reflexivity|].
      exists group. split; [exact Hin | apply Hfs; now left]. }
    apply Hsub. auto. }
  induction (default [] (groups cfg)) as [|g gs IH]; [reflexivity|].
  cbn [omap list_omap]. rewrite Hall by now left.
  rewrite IH; [reflexivity|]. intros group Hin. apply Hall. now right.
Qed.

(** X20: a ["to_be"] rule takes effect through the groups only. A rule for
    a field (or a date rule, when ["date"] is the field) that no group
    lists can be removed from anywhere in the list without changing the
    query. *)
Theorem rule_outside_groups_has_no_effect (cfg : Config)
    (before after : list Rule) (rule : Rule) :
  to_be cfg = Some (before ++ rule :: after) ->
  (forall k, rule_key rule = Some k -> ~ grouped cfg k) ->
  build cfg = build (with_to_be cfg (before ++ after)).
Proof.
  intros Hrules Hout. symmetry. apply build_reads_grouped_fields; try reflexivity.
  intros f Hf. unfold positive_rules_map, with_to_be. cbn [to_be].
  rewrite Hrules. cbn [default from_option id].
  rewrite !fold_rules_app. cbn [fold_left].
  apply fold_rules_agree. symmetry. apply add_positive_rule_other.
  intros Hk. now apply (Hout f Hk).
Qed.

(** X21: rules for the same field are not merged: the last one counts. A
    rule that is followed by another rule with its key can be removed
    without changing the query. *)
Theorem later_rule_replaces_earlier (cfg : Config)
    (before after : list Rule) (rule : Rule) :
  to_be cfg = Some (before ++ rule :: after) ->
  Exists (fun r => rule_key r = rule_key rule) after ->
  build cfg = build (with_to_be cfg (before ++ after)).
Proof.
  intros Hrules Hlater. symmetry. apply build_reads_grouped_fields; try reflexivity.
  intros f _. unfold positive_rules_map, with_to_be. cbn [to_be].
  rewrite Hrules. cbn [default from_option id].
  rewrite !fold_rules_app. cbn [fold_left].
  destruct (decide (rule_key rule = Some f)) as [Hk|Hk].
  - apply fold_rules_overwritten. eapply Exists_impl; [exact Hlater|].
    cbn beta. intros r Hr. congruence.
  - apply fold_rules_agree. symmetry. now apply add_positive_rule_other.
Qed.

Lemma same_negation_spec r r' : same_negation r r' -> spec_not_rule r = spec_not_rule r'.
Proof. intros [Hf Ha]. unfold spec_not_rule. now rewrite Hf, Ha. Qed.

(** X22: of a ["not_to_be"] rule the builder reads the field and the [alone]
    keywords and nothing else: negative rules that agree on these give the
    same query, whatever their [and] and [or] keywords and date entries
    are. *)
Theorem negation_reads_alone_only (cfg : Config) (rules rules' : list Rule) :
  Forall2 same_negation rules rules' ->
  build (with_not_to_be cfg rules) = build (with_not_to_be cfg rules').
Proof.
  intros Hsame. rewrite !build_spec. f_equal. unfold spec_build. f_equal.
  f_equal. unfold spec_not_clauses, with_not_to_be. cbn [not_to_be default from_option id].
  induction Hsame as [|r r' rules rules' Hr _ IH]; [reflexivity|].
  cbn [flat_map]. now rewrite IH, (same_negation_spec r r' Hr).
Qed.

End QueryBuilderEditFacts.

Section QueryBuilderEditExamples.

Import QueryBuilder QueryBuilderEdits.

Lemma rule_outside_groups_has_no_effect_witness :
  build (mkConfig (Some [field_rule "creator" (one_keyword InAlone "Doe");
                         field_rule "title" (one_keyword InAnd "x")])
                  (Some [["creator"]]) None)
  = build creator_ruleset.
Proof.
  apply (rule_outside_groups_has_no_effect
           (mkConfig (Some [field_rule "creator" (one_keyword InAlone "Doe");
                            field_rule "title" (one_keyword InAnd "x")])
                     (Some [["creator"]]) None)
           [field_rule "creator" (one_keyword InAlone "Doe")] []
           (field_rule "title" (one_keyword InAnd "x"))).
  - reflexivity.
  - intros k Hk (group & [<-|[]] & [<-|[]]). discriminate.
Defined.

Lemma later_rule_replaces_earlier_witness :
  build twice_creator_ruleset
  = build (with_to_be twice_creator_ruleset
             [field_rule "creator" (one_keyword InAlone "Roe")]).
Proof.
  apply (later_rule_replaces_earlier twice_creator_ruleset []
           [field_rule "creator" (one_keyword InAlone "Roe")]
           (field_rule "creator" (one_keyword InAlone "Doe"))).
  - reflexivity.
  - constructor. reflexivity.
Defined.

Lemma negation_reads_alone_only_witness :
  build (with_not_to_be creator_ruleset [lang_rule_with_or])
  = build (with_not_to_be creator_ruleset [lang_rule]).
Proof.
  apply (negation_reads_alone_only creator_ruleset [lang_rule_with_or] [lang_rule]).
  repeat constructor.
Defined.

End QueryBuilderEditExamples.

(** ** Cookie strings and nested updates *)

Section Md5PositionFacts.

Import Utils.

(** X23: the digest covers the bytes from the read position of the file to
    its end, whatever the position and however many reads this takes, and
    the file is left at position 0, not at the position it had. *)
Theorem get_md5_from_position (content : string) (pos : nat) :
  await (get_md5 (mkFileObject content pos))
  = (Hashlib.md5_hexdigest (str_drop pos content), mkFileObject content 0%nat).
Proof.
  unfold get_md5, await. cbn [fo_content].
  destruct (md5_loop_reads_rest content (S (String.length content))
              EmptyString pos) as [Hm Hc].
  { rewrite length_drop. lia. }
  destruct (md5_loop (S (String.length content)) EmptyString
                     (mkFileObject content pos)) as [m fp'].
  cbn [fst snd] in Hm, Hc. subst m. rewrite append_nil. now rewrite Hc.
Qed.

End Md5PositionFacts.

Section CookieFacts.

Import UtilsDicts.

Lemma contains_append c a b : contains c (a +:+ b) = contains c a || contains c b.
Proof.
  induction a as [|x a IH]; [reflexivity|].
  rewrite append_cons. cbn [contains]. rewrite IH. now rewrite orb_assoc.
Qed.

Lemma split_nonempty c s : split c s <> [].
Proof.
  destruct s as [|a s]; [discriminate|]. cbn [split].
  destruct (Ascii.eqb a c); [discriminate|]. now destruct (split c s).
Qed.

(** A piece without the separator, followed by the separator. *)
Lemma split_append c a b :
  contains c a = false ->
  split c (a +:+ String c b) = a :: split c b.
Proof.
  induction a as [|x a IH]; intros Hc.
  - rewrite append_nil. cbn [split]. now rewrite Ascii.eqb_refl.
  - cbn [contains] in Hc. apply orb_false_elim in Hc as [Hx Ha].
    rewrite append_cons. cbn [split]. rewrite Hx. now rewrite IH.
Qed.

Lemma split_none c a : contains c a = false -> split c a = [a].
Proof.
  induction a as [|x a IH]; intros Hc; [reflexivity|].
  cbn [contains] in Hc. apply orb_false_elim in Hc as [Hx Ha].
  cbn [split]. rewrite Hx. now rewrite IH.
Qed.

Lemma split_once_append c a b :
  contains c a = false ->
  split_once c (a +:+ String c b) = (a, b).
Proof.
  induction a as [|x a IH]; intros Hc.
  - rewrite append_nil. cbn [split_once]. now rewrite Ascii.eqb_refl.
  - cbn [contains] in Hc. apply orb_false_elim in Hc as [Hx Ha].
    rewrite append_cons. cbn [split_once]. rewrite Hx. now rewrite IH.
Qed.

Lemma lstrip_ws_id s : starts_with_space s = false -> lstrip_ws s = s.
Proof. destruct s as [|a s]; [reflexivity|]. cbn. now intros ->. Qed.

Lemma rstrip_ws_id s : ends_with_space s = false -> rstrip_ws s = s.
Proof.
  induction s as [|a s IH]; [reflexivity|]. intros H.
  cbn [rstrip_ws]. destruct s as [|b s].
  - cbn in H |- *. now rewrite H.
  - rewrite IH by exact H. reflexivity.
Qed.

Lemma ends_with_space_append a b :
  b <> EmptyString -> ends_with_space (a +:+ b) = ends_with_space b.
Proof.
  intros Hb. induction a as [|x a IH]; [reflexivity|].
  rewrite append_cons. cbn [ends_with_space].
  destruct (a +:+ b) eqn:E; [|exact IH].
  destruct a; [now rewrite append_nil in E | now rewrite append_cons in E].
Qed.

(** The item of a plain pair, with or without the blank that follows the
    separator, is stored under its name. *)
Lemma add_cookie_item_pair (m : gmap string (option string)) kv (blank : bool) :
  plain_pair kv ->
  add_cookie_item m (blank_of blank +:+ cookie_pair kv)
  = <[fst kv := Some (snd kv)]> m.
Proof.
  intros (Hsemi & Heq & Hvsemi & Hstart & Hend).
  destruct kv as [name value]. cbn [fst snd] in *.
  unfold add_cookie_item, cookie_pair, raw_cookie_str, blank_of. cbn [fst snd].
  assert (Hstrip : strip_ws ((if blank then " " else EmptyString)
                             +:+ name +:+ "=" +:+ value)
                   = name +:+ "=" +:+ value).
  { unfold strip_ws.
    assert (Hl : lstrip_ws ((if blank then " " else EmptyString)
                            +:+ name +:+ "=" +:+ value)
                 = name +:+ "=" +:+ value).
    { assert (H0 : lstrip_ws (name +:+ "=" +:+ value) = name +:+ "=" +:+ value).
      { apply lstrip_ws_id. destruct name as [|a name]; [reflexivity|].
        rewrite append_cons. exact Hstart. }
      destruct blank; [|now rewrite append_nil].
      rewrite append_cons, append_nil. cbn [lstrip_ws].
      change (isspace " ") with true. exact H0. }
    rewrite Hl. apply rstrip_ws_id.
    rewrite ends_with_space_append by (rewrite append_cons; discriminate).
    rewrite append_cons, append_nil. cbn [ends_with_space].
    destruct value as [|b value]; [reflexivity | exact Hend]. }
  rewrite Hstrip.
  assert (Htruthy : str_truthy (name +:+ "=" +:+ value) = true).
  { destruct name; [reflexivity | now rewrite append_cons]. }
  rewrite Htruthy. cbn [negb].
  rewrite contains_append, Heq. cbn [orb].
  rewrite append_cons, append_nil. cbn [contains].
  change (Ascii.eqb "=" "=") with true. cbn [orb negb].
  now rewrite (split_once_append "=" name value Heq).
Qed.

Lemma cookie_pair_no_semicolon kv :
  plain_pair kv -> contains ";" (cookie_pair kv) = false.
Proof.
  intros (Hsemi & _ & Hvsemi & _). unfold cookie_pair, raw_cookie_str.
  rewrite !contains_append, Hsemi, Hvsemi. reflexivity.
Qed.

(** The items of a cookie string: the first pair, and the pairs after it,
    each with the blank that follows its separator. *)
Lemma fold_cookie_items pairs :
  Forall plain_pair pairs ->
  forall (m : gmap string (option string)) kv blank,
    plain_pair kv ->
    fold_left add_cookie_item
      (split ";" (blank_of blank +:+ join "; " (map cookie_pair (kv :: pairs))))
      m
    = fold_left (fun m kv => <[fst kv := Some (snd kv)]> m) (kv :: pairs) m.
Proof.
  induction 1 as [|kv' pairs Hkv' Hpairs IH]; intros m kv blank Hkv.
  - cbn [map join].
    rewrite split_none.
    + cbn [fold_left]. apply (add_cookie_item_pair m kv blank Hkv).
    + rewrite contains_append, (cookie_pair_no_semicolon kv Hkv).
      now destruct blank.
  - change (join "; " (map cookie_pair (kv :: kv' :: pairs)))
      with (cookie_pair kv +:+ "; " +:+ join "; " (map cookie_pair (kv' :: pairs))).
    rewrite <- append_assoc.
    change ("; " +:+ join "; " (map cookie_pair (kv' :: pairs)))
      with (String ";" (blank_of true +:+ join "; " (map cookie_pair (kv' :: pairs)))).
    rewrite split_append.
    + cbn [fold_left]. rewrite (IH _ kv' true Hkv').
      cbn [fold_left]. f_equal. f_equal.
      apply (add_cookie_item_pair m kv blank Hkv).
    + rewrite contains_append, (cookie_pair_no_semicolon kv Hkv).
      now destruct blank.
Qed.

Lemma cookie_items_given pairs :
  Forall plain_pair pairs ->
  cookie_items (cookie_string pairs) = given_cookies pairs.
Proof.
  intros Hall. unfold cookie_items, cookie_string, given_cookies.
  destruct Hall as [|kv pairs Hkv Hpairs]; [reflexivity|].
  rewrite <- (fold_cookie_items pairs Hpairs ∅ kv false Hkv).
  reflexivity.
Qed.

(** Lines 28-31 as a union in which the parsed entries win. *)
Lemma with_defaults_union (m : gmap string (option string)) :
  match
    match m !! "domain" with
    | Some _ => m
    | None => <["domain" := Some ".archive.org"]> m
    end !! "path"
  with
  | Some _ =>
      match m !! "domain" with
      | Some _ => m
      | None => <["domain" := Some ".archive.org"]> m
      end
  | None =>
      <["path" := Some "/"]>
        match m !! "domain" with
        | Some _ => m
        | None => <["domain" := Some ".archive.org"]> m
        end
  end = m ∪ cookie_defaults.
Proof.
  apply map_eq. intros k. rewrite lookup_union. unfold cookie_defaults.
  destruct (m !! "domain") as [d|] eqn:Ed;
    [|rewrite (lookup_insert_ne m "domain" "path") by discriminate];
    destruct (m !! "path") as [p|] eqn:Ep;
    destruct (decide (k = "path")) as [->|Hp];
    try destruct (decide (k = "domain")) as [->|Hd];
    rewrite ?lookup_insert_eq, ?Ed, ?Ep;
    rewrite ?lookup_insert_ne by congruence;
    rewrite ?lookup_insert_eq, ?Ed, ?Ep;
    rewrite ?lookup_singleton_eq;
    rewrite ?lookup_singleton_ne by congruence;
    try reflexivity;
    now destruct (m !! k).
Qed.

(** X24: a cookie string written as [name=value] pairs joined with ["; "]
    parses back to its pairs, a later pair replacing an earlier one with
    the same name, and the defaults for ["domain"] and ["path"] fill in
    only where the string gives none. *)
Theorem cookie_string_parses_back (pairs : list (string * string)) :
  Forall plain_pair pairs ->
  parse_dict_cookies (cookie_string pairs) = given_cookies pairs ∪ cookie_defaults.
Proof.
  intros Hall. unfold parse_dict_cookies. rewrite (cookie_items_given pairs Hall).
  apply with_defaults_union.
Qed.

End CookieFacts.

Section DeepUpdateFacts.

Import UtilsDicts.

Lemma deep_update_loop (d : pyval) (items : list (string * pyval)) :
  deep_update d (PDict items) = deep_update_items d items.
Proof.
  revert d. induction items as [|[k v] rest IH]; intros d; [reflexivity|].
  cbn [deep_update deep_update_items] in IH |- *.
  destruct (match v with
            | PDict _ =>
                bind (py_get d k (PDict []))
                     (fun sub => bind (deep_update sub v) (fun r => py_setitem d k r))
            | _ => py_setitem d k v
            end) as [d'|e]; cbn [bind]; [apply IH | reflexivity].
Qed.

Lemma assoc_cons k k' v rest :
  assoc k ((k', v) :: rest)
  = match assoc k rest with
    | Some x => Some x
    | None => if String.eqb k k' then Some v else None
    end.
Proof. reflexivity. Qed.

Lemma assoc_app_last k v kvs : assoc k (kvs ++ [(k, v)]) = Some v.
Proof.
  induction kvs as [|[k' v'] kvs IH].
  - cbn. now rewrite String.eqb_refl.
  - rewrite <- app_comm_cons, assoc_cons. now rewrite IH.
Qed.

Lemma assoc_app_other k k' v kvs :
  k <> k' -> assoc k (kvs ++ [(k', v)]) = assoc k kvs.
Proof.
  intros Hne. induction kvs as [|[k'' v'] kvs IH].
  - cbn. apply String.eqb_neq in Hne. now rewrite Hne.
  - rewrite <- app_comm_cons, !assoc_cons. now rewrite IH.
Qed.

Lemma assoc_replace k k' v kvs :
  assoc k (map (fun kv => if String.eqb (fst kv) k' then (fst kv, v) else kv) kvs)
  = if String.eqb k k'
    then match assoc k kvs with Some _ => Some v | None => None end
    else assoc k kvs.
Proof.
  induction kvs as [|[k'' v'] kvs IH].
  - now destruct (String.eqb k k').
  - cbn [map fst]. destruct (String.eqb k'' k') eqn:E''.
    + rewrite !assoc_cons, IH. apply String.eqb_eq in E''. subst k''.
      destruct (String.eqb k k'); [|reflexivity].
      now destruct (assoc k kvs).
    + rewrite !assoc_cons, IH.
      destruct (String.eqb k k') eqn:E; [|reflexivity].
      apply String.eqb_eq in E. subst k'.
      rewrite String.eqb_sym, E''. now destruct (assoc k kvs).
Qed.

Lemma assoc_setitem_eq k v kvs : assoc k (setitem k v kvs) = Some v.
Proof.
  unfold setitem. destruct (assoc k kvs) as [x|] eqn:E.
  - rewrite assoc_replace, String.eqb_refl, E. reflexivity.
  - apply assoc_app_last.
Qed.

Lemma assoc_setitem_ne k k' v kvs :
  k <> k' -> assoc k (setitem k' v kvs) = assoc k kvs.
Proof.
  intros Hne. unfold setitem. destruct (assoc k' kvs) as [x|] eqn:E.
  - rewrite assoc_replace. apply String.eqb_neq in Hne. now rewrite Hne.
  - now apply assoc_app_other.
Qed.

Lemma assoc_not_in k (kvs : list (string * pyval)) :
  ~ In k (map fst kvs) -> assoc k kvs = None.
Proof.
  induction kvs as [|[k' v] kvs IH]; intros Hnot; [reflexivity|].
  rewrite assoc_cons, IH by (intros H; apply Hnot; now right).
  destruct (String.eqb k k') eqn:E; [|reflexivity].
  apply String.eqb_eq in E. subst k'. exfalso. apply Hnot. now left.
Qed.

(** The loop, from a dict [cur] that still has the values of [d] at the
    keys to come. *)
Lemma deep_update_items_lookup (d : list (string * pyval)) :
  forall items cur,
    NoDup (map fst items) ->
    (forall k, In k (map fst items) -> assoc k cur = assoc k d) ->
    Forall (fun kv => is_Some (value_of (updated_value d (fst kv) (snd kv)))) items ->
    exists kvs,
      deep_update_items (PDict cur) items = Ok (PDict kvs)
      /\ forall k, assoc k kvs
                   = match assoc k items with
                     | Some v => value_of (updated_value d k v)
                     | None => assoc k cur
                     end.
Proof.
  induction items as [|[k v] rest IH]; intros cur Hnodup Hsame Hok.
  - exists cur. split; reflexivity.
  - apply NoDup_cons in Hnodup as [Hk Hrest]. cbn [map fst] in Hk.
    apply Forall_cons in Hok as [[x Hx] Hok]. cbn [fst snd] in Hx.
    assert (Hstep :
      match v with
      | PDict _ =>
          bind (py_get (PDict cur) k (PDict []))
               (fun sub => bind (deep_update sub v)
                                (fun r => py_setitem (PDict cur) k r))
      | _ => py_setitem (PDict cur) k v
      end = Ok (PDict (setitem k x cur))).
    { unfold updated_value in Hx.
      destruct v; cbn [py_setitem]; try (injection Hx as <-; reflexivity).
      cbn [py_get bind]. rewrite (Hsame k) by now left.
      destruct (deep_update (default (PDict []) (assoc k d)) (PDict kvs)) as [r|e];
        [|discriminate].
      injection Hx as <-. reflexivity. }
    cbn [deep_update_items]. rewrite Hstep. cbn [bind].
    destruct (IH (setitem k x cur) Hrest) as (kvs & Hrun & Hlookup).
    + intros k' Hk'. rewrite assoc_setitem_ne.
      * apply Hsame. now right.
      * intros ->. apply Hk. now apply list_elem_of_In.
    + exact Hok.
    + exists kvs. split; [exact Hrun|]. intros k'.
      rewrite Hlookup, assoc_cons.
      destruct (assoc k' rest) as [v'|] eqn:E; [reflexivity|].
      destruct (String.eqb k' k) eqn:Ek.
      * apply String.eqb_eq in Ek. subst k'.
        rewrite assoc_setitem_eq. now rewrite Hx.
      * apply String.eqb_neq in Ek. now rewrite assoc_setitem_ne.
Qed.

(** X25: a deep update works key by key. Where every nested update
    succeeds, the call succeeds, and the value at each key of [u] is what
    [u] gives there, a nested dict of [u] being merged into the value that
    [d] has at the key rather than replacing it; every other key of [d]
    keeps its value. *)
Theorem deep_update_by_key (d u : list (string * pyval)) :
  NoDup (map fst u) ->
  Forall (fun kv => is_Some (value_of (updated_value d (fst kv) (snd kv)))) u ->
  exists kvs,
    deep_update (PDict d) (PDict u) = Ok (PDict kvs)
    /\ forall k, assoc k kvs
                 = match assoc k u with
                   | Some v => value_of (updated_value d k v)
                   | None => assoc k d
                   end.
Proof.
  intros Hnodup Hok. rewrite deep_update_loop.
  apply (deep_update_items_lookup d u d Hnodup); [reflexivity | exact Hok].
Qed.

(** X26: a nested dict of [u] cannot be merged into a value of [d] that is
    not a dict: unless the nested dict is empty, the update raises, and
    what it raises depends on the first entry of the nested dict. *)
Theorem deep_update_into_scalar_raises (d rest : list (string * pyval))
    (k k' : string) (x v : pyval) (inner : list (string * pyval)) :
  assoc k d = Some x ->
  (forall kvs, x <> PDict kvs) ->
  deep_update (PDict d) (PDict ((k, PDict ((k', v) :: inner)) :: rest))
  = Raise match v with PDict _ => AttributeError | _ => TypeError end.
Proof.
  intros Hx Hscalar. rewrite deep_update_loop. cbn [deep_update_items].
  cbn [py_get bind]. rewrite Hx. cbn [default from_option id].
  rewrite deep_update_loop. cbn [deep_update_items].
  destruct x; try (now destruct v); now contradiction (Hscalar kvs).
Qed.

End DeepUpdateFacts.

Section UtilsExamples.

Import UtilsDicts.

Lemma cookie_string_parses_back_witness :
  parse_dict_cookies (raw_cookie_str "logged-in-user" "me%40example.org; path=/x")
  = given_cookies [("logged-in-user", "me%40example.org"); ("path", "/x")]
    ∪ cookie_defaults.
Proof.
  apply (cookie_string_parses_back
           [("logged-in-user", "me%40example.org"); ("path", "/x")]).
  repeat constructor.
Defined.

Lemma deep_update_by_key_witness :
  exists kvs,
    deep_update (PDict file_config) (PDict caller_config) = Ok (PDict kvs)
    /\ assoc "s3" kvs = Some (PDict [("access", PStr "a"); ("secret", PStr "b")])
    /\ assoc "general" kvs = Some (PDict [("secure", PStr "True")]).
Proof.
  destruct (deep_update_by_key file_config caller_config) as (kvs & Hrun & Hlookup).
  - repeat constructor. intros H. inversion H.
  - repeat constructor. eexists. reflexivity.
  - exists kvs. split; [exact Hrun|]. split; apply Hlookup.
Defined.

Lemma deep_update_into_scalar_raises_witness :
  deep_update (PDict [("s3", PStr "a")]) (PDict caller_config) = Raise TypeError.
Proof.
  apply (deep_update_into_scalar_raises [("s3", PStr "a")] [] "s3" "secret"
           (PStr "a") (PStr "b") []).
  - reflexivity.
  - discriminate.
Defined.

End UtilsExamples.

(** ** The files of an item *)

Section ItemFacts.

Import AsyncItem.

Variable fnmatch : string -> string -> bool.
Variable File : Type.
Variable get_file : pyval -> pyval -> result File.

(** Without a glob pattern the exclusion pattern is not read. *)
Lemma should_yield_without_glob names formats glob_pattern exclude1 exclude2 f :
  strs_truthy glob_pattern = false ->
  should_yield fnmatch names formats glob_pattern exclude1 f
  = should_yield fnmatch names formats glob_pattern exclude2 f.
Proof.
  intros Hglob. unfold should_yield. rewrite Hglob.
  destruct (py_get f "name" (PStr EmptyString)) as [file_name|e]; [|reflexivity].
  destruct (py_get f "format" (PStr EmptyString)) as [file_format|e]; reflexivity.
Qed.

Lemma files_loop_without_glob names formats glob_pattern exclude1 exclude2 item_files :
  strs_truthy glob_pattern = false ->
  files_loop fnmatch File get_file names formats glob_pattern exclude1 item_files
  = files_loop fnmatch File get_file names formats glob_pattern exclude2 item_files.
Proof.
  intros Hglob. induction item_files as [|f rest IH]; [reflexivity|].
  cbn [files_loop].
  rewrite (should_yield_without_glob names formats glob_pattern exclude1 exclude2 f Hglob).
  now rewrite IH.
Qed.

(** The loop when every entry is selected. *)
Lemma files_loop_all (glob_pattern exclude_pattern : strs_arg)
    (item_files : list pyval) (made : list File) :
  strs_truthy glob_pattern = false ->
  Forall2 (fun f_metadata file =>
             exists kvs, f_metadata = PDict kvs
               /\ get_file (default (PStr EmptyString) (assoc "name" kvs)) f_metadata
                  = Ok file)
          item_files made ->
  files_loop fnmatch File get_file [] [] glob_pattern exclude_pattern item_files
  = mkGen made None.
Proof.
  intros Hglob.
  induction 1 as [|f file item_files made (kvs & -> & Hget) _ IH]; [reflexivity|].
  cbn [files_loop should_yield py_get bind]. rewrite Hglob. cbn [orb negb].
  rewrite Hget, IH. reflexivity.
Qed.

(** X27: with nothing selected, every file of the item is yielded, in the
    order of the item, followed by the four derived files when [on_the_fly]
    is set; an exclusion pattern changes nothing. A single file object
    passed as [files] selects nothing either, so every file is yielded and
    not that file alone. *)
Theorem get_files_without_selection (self : t) (files : files_arg)
    (formats glob_pattern exclude_pattern : strs_arg) (on_the_fly : bool)
    (item_files : list pyval) (made : list File) :
  input_file_names files = [] ->
  strs_truthy formats = false ->
  strs_truthy glob_pattern = false ->
  AsyncItem.files self = PList item_files ->
  Forall2 (fun f_metadata file =>
             exists kvs, f_metadata = PDict kvs
               /\ get_file (default (PStr EmptyString) (assoc "name" kvs)) f_metadata
                  = Ok file)
          (item_files ++ if on_the_fly then otf_files self else []) made ->
  get_files fnmatch File get_file self files formats glob_pattern exclude_pattern
    on_the_fly
  = mkGen made None.
Proof.
  intros Hnames Hformats Hglob Hfiles Hmade. unfold get_files.
  rewrite Hnames, Hfiles. unfold formats_list. rewrite Hformats.
  assert (Hiter : bind (append_all (PList item_files)
                          (if on_the_fly then otf_files self else []))
                       py_iter
                  = Ok (item_files ++ if on_the_fly then otf_files self else [])).
  { destruct on_the_fly; [reflexivity|]. cbn. now rewrite app_nil_r. }
  rewrite Hiter. now apply files_loop_all.
Qed.

(** X28: an exclusion pattern is read only for files that a glob pattern
    matches. Without a glob pattern it has no effect at all, whatever
    names and formats are selected. *)
Theorem exclude_pattern_needs_glob (self : t) (files : files_arg)
    (formats glob_pattern exclude1 exclude2 : strs_arg) (on_the_fly : bool) :
  strs_truthy glob_pattern = false ->
  get_files fnmatch File get_file self files formats glob_pattern exclude1 on_the_fly
  = get_files fnmatch File get_file self files formats glob_pattern exclude2 on_the_fly.
Proof.
  intros Hglob. unfold get_files.
  destruct (bind (append_all (AsyncItem.files self)
                    (if on_the_fly then otf_files self else [])) py_iter)
    as [item_files|e]; [|reflexivity].
  now apply files_loop_without_glob.
Qed.

Section DownloadLoop.

Variable LoopState : Type.
Variable R : Type.
Variable start : LoopState.
Variable body : LoopState -> File -> result LoopState.
Variable finish : LoopState -> R.
Variable nothing : R.

(** X29: [AsyncItem.download] never reaches a file. For an item without
    metadata it returns the empty list; for every other item it raises
    [TypeError], because the files are an asynchronous generator that the
    method hands to [list] or to a plain [for]. Whatever the loop body
    does, it does not run; what the call leaves is the options object with
    its sources as lists and its sink and verbosity set, and the lines
    printed before. *)
Theorem download_never_reaches_a_file (self : t) (o : DownloadOptions) :
  let r := download fnmatch File get_file LoopState R start body finish nothing
             self o in
  options_after r = prepare o
  /\ returned r
     = (if is_empty_dict (metadata self) then Ok nothing else Raise TypeError)
  /\ stderr r
     = header self (prepare o)
       ++ (if is_empty_dict (metadata self) && verbose (prepare o)
           then [" skipping " +:+ identifier_str self +:+ ", item does not exist."]
           else []).
Proof.
  cbn zeta. unfold download.
  destruct (is_empty_dict (metadata self)).
  - cbn [options_after returned stderr andb].
    split; [reflexivity|]. split; reflexivity.
  - cbn [options_after returned stderr andb]. rewrite app_nil_r.
    split; [reflexivity|]. split; [|reflexivity].
    destruct (files_truthy (wanted_files (prepare o)));
      [|destruct (strs_truthy (formats (prepare o)));
        [|destruct (strs_truthy (glob_pattern (prepare o)))]];
      destruct (stdout (prepare o)); reflexivity.
Qed.

End DownloadLoop.

End ItemFacts.

Section ItemExamples.

Import AsyncItem.

(** The file object of [a.txt] passed as [files] selects both files of
    the item. *)
Lemma get_files_without_selection_witness :
  get_files star_or_literal _ keep_arguments two_file_item (FilesFile "a.txt")
    StrsNone StrsNone (StrsStr "*.mp3") false
  = mkGen [(PStr "a.mp3", mp3_file); (PStr "a.txt", txt_file)] None.
Proof.
  apply (get_files_without_selection star_or_literal _ keep_arguments
           two_file_item (FilesFile "a.txt") StrsNone StrsNone (StrsStr "*.mp3")
           false [mp3_file; txt_file]); try reflexivity.
  repeat constructor; eexists; split; reflexivity.
Defined.

Lemma exclude_pattern_needs_glob_witness :
  get_files star_or_literal _ keep_arguments two_file_item FilesNone
    (StrsStr "VBR MP3") StrsNone (StrsStr "*") false
  = get_files star_or_literal _ keep_arguments two_file_item FilesNone
      (StrsStr "VBR MP3") StrsNone StrsNone false.
Proof.
  apply (exclude_pattern_needs_glob star_or_literal _ keep_arguments
           two_file_item FilesNone (StrsStr "VBR MP3") StrsNone
           (StrsStr "*") StrsNone false).
  reflexivity.
Defined.

End ItemExamples.
